(** * Session daemon and dashboard helpers: a shallow embedding

    The development follows three source files of the repository:

    - the daemon entry point (the composing process: configuration, the
      Recency Filter [isRecentSession], the session event handler and the
      initial publish loop);
    - [api.ts], the HTTP API server ([ApiServer]: request routing, the
      clear-sessions control surface, iteration loops, [stop]);
    - the dashboard helpers ([getEffectiveStatus], [groupSessionsByRepo],
      [calculateRepoActivityScore]).

    ECMAScript values are represented as follows.  Times are integers
    (milliseconds since the epoch, [Z]); a timestamp field holding an ISO
    string is a [Timestamp], the epoch milliseconds that
    [new Date(s).getTime()] yields for it.  A number that can be [NaN]
    (the result of [parseInt]) is a [number].  JSON numbers and activity
    scores are rationals ([Q]): every finite double is one, and order
    comparisons of doubles are comparisons of their values; arithmetic on
    scores is exact and [Math.pow] is a parameter, the order of the scores
    being all that is used of them.  A [Map] is an insertion-ordered
    association list.  Thrown values and rejected promises are [Throw].

    Effects are explicit: a computation is a function from the state of
    the process to a completion and the next state.  The clock is an
    oracle, read once per call of [Date.now()] or [new Date()].  An
    [async] function is run up to its next suspension; the event loop runs
    one such piece at a time. *)

From Stdlib Require Import ZArith QArith Qround Qpower Lqa String Ascii List Bool Lia.
From stdpp Require Import base gmap strings list pretty sorting.

Open Scope string_scope.
Open Scope Z_scope.
Open Scope list_scope.

(* ===================================================================== *)
(** * ECMAScript prelude *)
(* ===================================================================== *)

Module JS.

(** An [Error] object: its [name] and its [message]. *)
Record JsError := mkError { err_name : string; err_message : string }.

Definition Error_ (msg : string) : JsError := mkError "Error" msg.

(** [String(error)], after [Error.prototype.toString]. *)
Definition String_of_error (e : JsError) : string :=
  if String.eqb (err_name e) EmptyString then err_message e
  else if String.eqb (err_message e) EmptyString then err_name e
  else err_name e +:+ ": " +:+ err_message e.

(** Completion of a call: a value, or a thrown value / rejected promise. *)
Inductive result (A : Type) : Type :=
| Ok (a : A)
| Throw (e : JsError).
Arguments Ok {A} a.
Arguments Throw {A} e.

(** State and exception monad: a computation over a mutable world [W]. *)
Definition M (W A : Type) : Type := W -> result A * W.

Definition ret {W A} (a : A) : M W A := fun w => (Ok a, w).

Definition throw {W A} (e : JsError) : M W A := fun w => (Throw e, w).

Definition bind {W A B} (m : M W A) (k : A -> M W B) : M W B :=
  fun w => match m w with
           | (Ok a, w') => k a w'
           | (Throw e, w') => (Throw e, w')
           end.

(** [try { body } catch (error) { handler }] *)
Definition try_catch {W A} (body : M W A) (handler : JsError -> M W A) : M W A :=
  fun w => match body w with
           | (Ok a, w') => (Ok a, w')
           | (Throw e, w') => handler e w'
           end.

Definition modify {W} (f : W -> W) : M W unit := fun w => (Ok tt, f w).

Definition gets {W A} (f : W -> A) : M W A := fun w => (Ok (f w), w).

(** [for (const x of xs) { body x }] *)
Fixpoint for_of {W A} (xs : list A) (body : A -> M W unit) : M W unit :=
  match xs with
  | [] => ret tt
  | x :: xs' => bind (body x) (fun _ => for_of xs' body)
  end.

(** [xs.filter(p)] for a callback [p] with effects: called on every
    element, in index order. *)
Fixpoint Array_filter {W A} (p : A -> M W bool) (xs : list A) : M W (list A) :=
  match xs with
  | [] => ret []
  | x :: xs' =>
      bind (p x) (fun keep =>
      bind (Array_filter p xs') (fun rest =>
      ret (if keep then x :: rest else rest)))
  end.

(** [xs.map(f)] for a callback [f] with effects. *)
Fixpoint Array_map {W A B} (f : A -> M W B) (xs : list A) : M W (list B) :=
  match xs with
  | [] => ret []
  | x :: xs' =>
      bind (f x) (fun y =>
      bind (Array_map f xs') (fun ys => ret (y :: ys)))
  end.


(** ** Instants

    An ISO timestamp string, represented by the instant it denotes. *)
Definition Timestamp : Type := Z.

(** [new Date(t).getTime()] *)
Definition Date_getTime (t : Timestamp) : Z := t.

(** ** Numbers that may be [NaN] *)

Inductive number : Type :=
| NaN
| Int (z : Z).

Definition num_mul (a b : number) : number :=
  match a, b with
  | Int x, Int y => Int (x * y)
  | _, _ => NaN
  end.

(** [a < b]: false as soon as one side is [NaN]. *)
Definition num_ltb (a b : number) : bool :=
  match a, b with
  | Int x, Int y => x <? y
  | _, _ => false
  end.

(** [String(n)] for such a number. *)
Definition num_toString (a : number) : string :=
  match a with
  | NaN => "NaN"
  | Int z => pretty z
  end.

(** ** Strings *)

Definition is_digit (c : ascii) : bool :=
  let n := nat_of_ascii c in (48 <=? n)%nat && (n <=? 57)%nat.

Definition digit_value (c : ascii) : Z := Z.of_nat (nat_of_ascii c) - 48.

(** The white space [parseInt] skips (the one-byte members of
    [StrWhiteSpaceChar]: TAB, LF, VT, FF, CR, SP). *)
Definition is_space (c : ascii) : bool :=
  let n := nat_of_ascii c in
  ((9 <=? n)%nat && (n <=? 13)%nat) || (n =? 32)%nat.

Fixpoint skip_spaces (s : string) : string :=
  match s with
  | String c s' => if is_space c then skip_spaces s' else s
  | EmptyString => s
  end.

(** The value of the longest prefix of decimal digits, [None] when that
    prefix is empty. *)
Fixpoint digits_prefix (acc : option Z) (s : string) : option Z :=
  match s with
  | String c s' =>
      if is_digit c
      then digits_prefix (Some (10 * default 0 acc + digit_value c)) s'
      else acc
  | EmptyString => acc
  end.

(** [parseInt(s, 10)]. *)
Definition parseInt10 (s : string) : number :=
  let t := skip_spaces s in
  let '(sign, body) :=
    match t with
    | String "-"%char t' => (-1, t')
    | String "+"%char t' => (1, t')
    | _ => (1, t)
    end in
  match digits_prefix None body with
  | Some v => Int (sign * v)
  | None => NaN
  end.

(** [s.slice(0, n)] for [n >= 0]. *)
Definition slice0 (n : nat) (s : string) : string := substring 0 n s.

Definition upper_ascii (c : ascii) : ascii :=
  let n := nat_of_ascii c in
  if (97 <=? n)%nat && (n <=? 122)%nat then ascii_of_nat (n - 32) else c.

(** [s.toUpperCase()] on ASCII letters. *)
Fixpoint toUpperCase (s : string) : string :=
  match s with
  | String c s' => String (upper_ascii c) (toUpperCase s')
  | EmptyString => EmptyString
  end.

(** [s.split(sep)] for a one-character separator: never empty. *)
Fixpoint split (sep : ascii) (s : string) : list string :=
  match s with
  | EmptyString => [EmptyString]
  | String c s' =>
      if Ascii.eqb c sep then EmptyString :: split sep s'
      else match split sep s' with
           | seg :: rest => String c seg :: rest
           | [] => [String c EmptyString]
           end
  end.

(** [a || b] on strings: the empty string is falsy. *)
Definition str_or (a b : string) : string :=
  if String.eqb a EmptyString then b else a.

(** [hay.includes(needle)] *)
Fixpoint includes (needle hay : string) : bool :=
  String.prefix needle hay ||
  match hay with
  | String _ hay' => includes needle hay'
  | EmptyString => false
  end.

(** ** [Map]: insertion-ordered, one entry per key *)

Definition JsMap (V : Type) : Type := list (string * V).

Fixpoint Map_get {V} (m : JsMap V) (k : string) : option V :=
  match m with
  | [] => None
  | (k', v) :: m' => if String.eqb k' k then Some v else Map_get m' k
  end.

(** [m.set(k, v)]: an existing key keeps its place, a new one goes last. *)
Fixpoint Map_set {V} (m : JsMap V) (k : string) (v : V) : JsMap V :=
  match m with
  | [] => [(k, v)]
  | (k', v') :: m' =>
      if String.eqb k' k then (k', v) :: m' else (k', v') :: Map_set m' k v
  end.

Definition Map_values {V} (m : JsMap V) : list V := map snd m.

Definition Map_keys {V} (m : JsMap V) : list string := map fst m.

(** ** [Array.prototype.sort] with a comparator

    The sort is stable; [cmp a b > 0] asks for [a] after [b].  Elements
    are inserted left to right, each one behind the elements it does not
    have to precede. *)

Fixpoint sort_insert {A} (cmp : A -> A -> Q) (x : A) (l : list A) : list A :=
  match l with
  | [] => [x]
  | y :: l' =>
      match (cmp y x ?= 0)%Q with
      | Gt => x :: y :: l'
      | _ => y :: sort_insert cmp x l'
      end
  end.

Definition Array_sort {A} (cmp : A -> A -> Q) (l : list A) : list A :=
  fold_left (fun acc x => sort_insert cmp x acc) l [].

End JS.

(* ===================================================================== *)
(** * [api.ts]: the HTTP API server *)
(* ===================================================================== *)

Module Api.
Import JS.

Definition DEFAULT_API_PORT : Z := 4451.

(** ** Requests and responses *)

(** A value handed to [JSON.stringify]; a response body is kept as the
    value that is serialised. *)
#[warnings="-register-all"]
Inductive Json : Type :=
| JNull
| JBool (b : bool)
| JNum (q : Q)
| JStr (s : string)
| JArr (items : list Json)
| JObj (fields : list (string * Json)).

(** The fields the handlers read from the parsed body, with the types the
    handlers cast them to; [None] is a missing field. *)
Record Body := mkBody {
  b_prompt : option string;
  b_content : option string;
  b_workDir : option string;
  b_iterations : option Q;
  b_loopId : option string
}.

(** An incoming message: [parsed] is the completion of [parseBody(req)]
    (rejected with [Invalid JSON body] when the body does not parse). *)
Record Request := mkRequest {
  method : string;
  url : option string;
  parsed : result Body
}.

Record Response := mkResponse {
  headers : list (string * string);
  statusCode : option Z;
  body : option Json;
  ended : bool
}.

Definition fresh_response : Response := mkResponse [] None None false.

Definition setHeader (k v : string) (res : Response) : Response :=
  mkResponse (headers res ++ [(k, v)]) (statusCode res) (body res) (ended res).

Definition writeHead (code : Z) (hs : list (string * string)) (res : Response)
  : Response :=
  mkResponse (headers res ++ hs) (Some code) (body res) (ended res).

Definition end_ (data : option Json) (res : Response) : Response :=
  mkResponse (headers res) (statusCode res) data true.

(** [res.writeHead(code, { "Content-Type": "application/json" });
     res.end(JSON.stringify(value))] *)
Definition send_json (code : Z) (value : Json) (res : Response) : Response :=
  end_ (Some value) (writeHead code [("Content-Type", "application/json")] res).

Definition setCorsHeaders (res : Response) : Response :=
  setHeader "Access-Control-Allow-Headers" "Content-Type"
    (setHeader "Access-Control-Allow-Methods" "GET, POST, OPTIONS"
       (setHeader "Access-Control-Allow-Origin" "*" res)).

(** ** Iteration loops *)

Inductive LoopStatus : Type := running | completed | failed | cancelled.

Definition status_name (s : LoopStatus) : string :=
  match s with
  | running => "running"
  | completed => "completed"
  | failed => "failed"
  | cancelled => "cancelled"
  end.

Definition is_running (s : LoopStatus) : bool :=
  match s with running => true | _ => false end.

(** A [LoopProcess] object.  [process] is the child process of the latest
    iteration, by its number; it is [null] until the first one is spawned. *)
Record LoopProcess := mkLoop {
  id : string;
  process : option nat;
  iterations : Q;
  currentIteration : Z;
  status : LoopStatus;
  output : list string;
  startedAt : string
}.

Definition set_process (p : option nat) (l : LoopProcess) : LoopProcess :=
  mkLoop (id l) p (iterations l) (currentIteration l) (status l) (output l)
         (startedAt l).

Definition set_currentIteration (i : Z) (l : LoopProcess) : LoopProcess :=
  mkLoop (id l) (process l) (iterations l) i (status l) (output l) (startedAt l).

Definition set_status (s : LoopStatus) (l : LoopProcess) : LoopProcess :=
  mkLoop (id l) (process l) (iterations l) (currentIteration l) s (output l)
         (startedAt l).

Definition push_output (line : string) (l : LoopProcess) : LoopProcess :=
  mkLoop (id l) (process l) (iterations l) (currentIteration l) (status l)
         (output l ++ [line]) (startedAt l).

(** ** The host

    Built-ins and the file system, outside the sources: the path of a
    request target, the printing of a number and of an instant, and the
    completions of the commands and file writes of the plan endpoints. *)
Class Host := {
  process_cwd : string;
  URL_pathname : string -> result string;
  Number_toString : Q -> string;
  toISOString : Z -> string;
  path_join : string -> string -> string;
  command_completion : string -> list string -> string -> result string;
  writeFile_completion : string -> string -> result unit
}.

(** What the server does to the outside, in order. *)
Inductive Effect : Type :=
| ELog (tag message : string)
| ESpawn (pid : nat) (command : string) (args : list string) (cwd : string)
| EKill (pid : nat) (signal : string)
| EListen (port : number)
| EServerClose.

(** An activation of [runIterations] suspended at its [await]: the loop
    object it works on, the iteration it is in and its [workDir]. *)
Record Activation := mkActivation {
  act_loop : nat;
  act_i : Z;
  act_workDir : string
}.

(** The fields the constructor assigns once; [E] is the state the
    clear-sessions callback works on. *)
Record ApiServer (E : Type) := mkApiServer {
  port : number;
  workDir : string;
  onClearSessions : option (M E unit)
}.
Arguments port {E} _.
Arguments workDir {E} _.
Arguments onClearSessions {E} _.

Record ApiServerOptions (E : Type) := mkOptions {
  opt_port : option number;
  opt_workDir : option string;
  opt_onClearSessions : option (M E unit)
}.
Arguments mkOptions {E} _ _ _.
Arguments opt_port {E} _.
Arguments opt_workDir {E} _.
Arguments opt_onClearSessions {E} _.

Definition constructor `{Host} {E} (options : ApiServerOptions E) : ApiServer E :=
  mkApiServer E
    (default (Int DEFAULT_API_PORT) (opt_port options))
    (default process_cwd (opt_workDir options))
    (opt_onClearSessions options).

(** The mutable state.  [LoopProcess] objects live in [heap] by reference:
    [activeLoops] and the suspended activations of [runIterations] share
    them.  [awaiting] maps a child process to the activation that awaits
    its completion.  [spawn_error k] tells whether the [k]-th call of
    [spawn] throws; [clock] and [reads] are the system clock. *)
Record World (E : Type) := mkWorld {
  server : option unit;
  activeLoops : JsMap nat;
  heap : gmap nat LoopProcess;
  next_ref : nat;
  awaiting : gmap nat Activation;
  spawned : nat;
  spawn_error : nat -> option JsError;
  clock : nat -> Z;
  reads : nat;
  trace : list Effect;
  ext : E
}.
Arguments mkWorld {E} _ _ _ _ _ _ _ _ _ _ _.
Arguments server {E} _.
Arguments activeLoops {E} _.
Arguments heap {E} _.
Arguments next_ref {E} _.
Arguments awaiting {E} _.
Arguments spawned {E} _.
Arguments spawn_error {E} _.
Arguments clock {E} _.
Arguments reads {E} _.
Arguments trace {E} _.
Arguments ext {E} _.

Definition set_server {E} (s : option unit) (w : World E) : World E :=
  mkWorld s (activeLoops w) (heap w) (next_ref w) (awaiting w) (spawned w)
          (spawn_error w) (clock w) (reads w) (trace w) (ext w).

Definition set_activeLoops {E} (m : JsMap nat) (w : World E) : World E :=
  mkWorld (server w) m (heap w) (next_ref w) (awaiting w) (spawned w)
          (spawn_error w) (clock w) (reads w) (trace w) (ext w).

Definition set_heap {E} (h : gmap nat LoopProcess) (w : World E) : World E :=
  mkWorld (server w) (activeLoops w) h (next_ref w) (awaiting w) (spawned w)
          (spawn_error w) (clock w) (reads w) (trace w) (ext w).

Definition set_next_ref {E} (n : nat) (w : World E) : World E :=
  mkWorld (server w) (activeLoops w) (heap w) n (awaiting w) (spawned w)
          (spawn_error w) (clock w) (reads w) (trace w) (ext w).

Definition set_awaiting {E} (a : gmap nat Activation) (w : World E) : World E :=
  mkWorld (server w) (activeLoops w) (heap w) (next_ref w) a (spawned w)
          (spawn_error w) (clock w) (reads w) (trace w) (ext w).

Definition set_spawned {E} (n : nat) (w : World E) : World E :=
  mkWorld (server w) (activeLoops w) (heap w) (next_ref w) (awaiting w) n
          (spawn_error w) (clock w) (reads w) (trace w) (ext w).

Definition set_reads {E} (n : nat) (w : World E) : World E :=
  mkWorld (server w) (activeLoops w) (heap w) (next_ref w) (awaiting w)
          (spawned w) (spawn_error w) (clock w) n (trace w) (ext w).

Definition set_trace {E} (t : list Effect) (w : World E) : World E :=
  mkWorld (server w) (activeLoops w) (heap w) (next_ref w) (awaiting w)
          (spawned w) (spawn_error w) (clock w) (reads w) t (ext w).

Definition set_ext {E} (e : E) (w : World E) : World E :=
  mkWorld (server w) (activeLoops w) (heap w) (next_ref w) (awaiting w)
          (spawned w) (spawn_error w) (clock w) (reads w) (trace w) e.

(** ** Primitive actions *)

Definition emit {E} (e : Effect) : M (World E) unit :=
  modify (fun w => set_trace (trace w ++ [e]) w).

(** [log(tag, message)] of the logging module. *)
Definition log {E} (tag message : string) : M (World E) unit :=
  emit (ELog tag message).

Definition Date_now {E} : M (World E) Z :=
  fun w => (Ok (clock w (reads w)), set_reads (S (reads w)) w).

(** [proc.kill(signal)] *)
Definition kill {E} (pid : nat) (signal : string) : M (World E) unit :=
  emit (EKill pid signal).

(** [spawn(command, args, { cwd, ... })]: the new child process, unless
    the call throws. *)
Definition spawn {E} (command : string) (args : list string) (cwd : string)
  : M (World E) nat :=
  fun w =>
    let k := spawned w in
    match spawn_error w k with
    | Some e => (Throw e, set_spawned (S k) w)
    | None =>
        (Ok k, set_trace (trace w ++ [ESpawn k command args cwd])
                         (set_spawned (S k) w))
    end.

(** Assignment to the fields of the object behind a reference. *)
Definition update_loop {E} (ref : nat) (f : LoopProcess -> LoopProcess)
  : M (World E) unit :=
  modify (fun w => set_heap (alter f ref (heap w)) w).

(** Run an action on the state of the callback. *)
Definition on_ext {E A} (m : M E A) : M (World E) A :=
  fun w => let '(r, e) := m (ext w) in (r, set_ext e w).

(** ** [start] and [stop] *)

(** [listened] is how [server.listen] ends: the listening callback, or
    the [error] event. *)
Definition start {E} (api : ApiServer E) (listened : result unit)
  : M (World E) unit :=
  bind (modify (set_server (Some tt))) (fun _ =>
  bind (emit (EListen (port api))) (fun _ =>
  match listened with
  | Ok _ =>
      log "API" ("HTTP API server running on http://127.0.0.1:" +:+
                 num_toString (port api))
  | Throw error =>
      bind (log "API" ("Server error: " +:+ err_message error)) (fun _ =>
      throw error)
  end)).

(** The body of the loop of [stop] for the entry [[id, loop]]. *)
Definition cancel_entry {E} (entry : string * nat) : M (World E) unit :=
  fun w =>
    match heap w !! entry.2 with
    | Some loop =>
        match process loop with
        | Some pid =>
            if is_running (status loop) then
              bind (kill pid "SIGTERM") (fun _ =>
              bind (update_loop entry.2 (set_status cancelled)) (fun _ =>
              log "API" ("Cancelled loop " +:+ entry.1))) w
            else (Ok tt, w)
        | None => (Ok tt, w)
        end
    | None => (Ok tt, w)
    end.

(** [for (const [id, loop] of this.activeLoops) ...] *)
Definition cancel_active_loops {E} : M (World E) unit :=
  bind (gets activeLoops) (fun entries => for_of entries cancel_entry).

(** [this.activeLoops.clear()] *)
Definition clear_active_loops {E} : M (World E) unit :=
  modify (set_activeLoops []).

(** The promise [stop] returns: [server.close] when there is a server,
    resolved at once otherwise. *)
Definition close_server {E} : M (World E) unit :=
  bind (gets server) (fun s =>
  match s with
  | Some _ => emit EServerClose
  | None => ret tt
  end).

Definition stop {E} : M (World E) unit :=
  bind cancel_active_loops (fun _ =>
  bind clear_active_loops (fun _ =>
  close_server)).

(** ** [runIterations]

    The function suspends at the [await] of each iteration; between two
    suspensions it runs without interruption.  [runIterations_from] is
    the run from the test [i <= loop.iterations] to the next suspension or
    to the end of the function, [runIterations_resume] the run that
    follows the completion of the awaited command. *)

Definition claudePrompt : string :=
"@PRD.md @progress.txt
1. Find the highest-priority task and implement it.
2. Run your tests and type checks.
3. Update the PRD with what was done.
4. Append your progress to progress.txt.
5. Commit your changes.
ONLY WORK ON A SINGLE TASK.
If the PRD is complete, output <promise>COMPLETE</promise>.".

(** After the loop: [if (loop.status === "running") loop.status =
    "completed"], and the closing log line. *)
Definition runIterations_end {E} (ref : nat) : M (World E) unit :=
  fun w =>
    match heap w !! ref with
    | Some loop =>
        let final := if is_running (status loop) then completed else status loop in
        bind (update_loop ref (set_status final)) (fun _ =>
        log "API" ("Loop " +:+ id loop +:+ ": Finished with status " +:+
                   status_name final)) w
    | None => (Ok tt, w)
    end.

(** The [catch] clause of an iteration. *)
Definition iteration_failed {E} (ref : nat) (i : Z) (error : JsError)
  : M (World E) unit :=
  fun w =>
    match heap w !! ref with
    | Some loop =>
        bind (log "API" ("Loop " +:+ id loop +:+ ": Iteration " +:+ pretty i +:+
                         " failed: " +:+ String_of_error error)) (fun _ =>
        bind (update_loop ref (push_output
                ("Error in iteration " +:+ pretty i +:+ ": " +:+
                 String_of_error error))) (fun _ =>
        bind (update_loop ref (set_status failed)) (fun _ =>
        runIterations_end ref))) w
    | None => (Ok tt, w)
    end.

Definition runIterations_from `{Host} {E} (ref : nat) (workDir : string) (i : Z)
  : M (World E) unit :=
  fun w =>
    match heap w !! ref with
    | Some loop =>
        if Qle_bool (inject_Z i) (iterations loop) then
          if is_running (status loop) then
            bind (update_loop ref (set_currentIteration i)) (fun _ =>
            bind (log "API" ("Loop " +:+ id loop +:+ ": Starting iteration " +:+
                             pretty i +:+ "/" +:+
                             Number_toString (iterations loop))) (fun _ =>
            try_catch
              (bind (spawn "claude"
                           ["--dangerously-skip-permissions"; "-p"; claudePrompt]
                           workDir) (fun proc =>
               bind (update_loop ref (set_process (Some proc))) (fun _ =>
               modify (fun w' =>
                 set_awaiting (<[proc := mkActivation ref i workDir]> (awaiting w'))
                              w'))))
              (iteration_failed ref i))) w
          else runIterations_end ref w
        else runIterations_end ref w
    | None => (Ok tt, w)
    end.

Definition runIterations `{Host} {E} (ref : nat) (workDir : string)
  : M (World E) unit :=
  runIterations_from ref workDir 1.

(** How a child process ends, as [runCommandWithProcess] sees it. *)
Inductive ProcessEvent : Type :=
| PClose (code : option Z) (stdout stderr : string)
| PError (error : JsError).

(** The settlement of the promise of [runCommandWithProcess]. *)
Definition settle (ev : ProcessEvent) : result string :=
  match ev with
  | PClose code stdout stderr =>
      match code with
      | None => Ok stdout
      | Some c =>
          if c =? 0 then Ok stdout
          else Throw (Error_ ("Command failed with code " +:+ pretty c +:+ ": " +:+
                              str_or stderr stdout))
      end
  | PError error => Throw error
  end.

Definition runIterations_resume `{Host} {E}
    (a : Activation) (settled : result string) : M (World E) unit :=
  let ref := act_loop a in
  let i := act_i a in
  match settled with
  | Ok result =>
      bind (update_loop ref (push_output ("=== Iteration " +:+ pretty i +:+ " ===")))
           (fun _ =>
      bind (update_loop ref (push_output result)) (fun _ =>
      if includes "<promise>COMPLETE</promise>" result then
        fun w =>
          match heap w !! ref with
          | Some loop =>
              bind (log "API" ("Loop " +:+ id loop +:+ ": PRD complete after " +:+
                               pretty i +:+ " iterations")) (fun _ =>
              bind (update_loop ref (set_status completed)) (fun _ =>
              runIterations_end ref)) w
          | None => (Ok tt, w)
          end
      else runIterations_from ref (act_workDir a) (i + 1)))
  | Throw error => iteration_failed ref i error
  end.

(** A child process ends: the activation awaiting it, if any, resumes. *)
Definition process_settled `{Host} {E} (pid : nat) (ev : ProcessEvent)
  : M (World E) unit :=
  fun w =>
    match awaiting w !! pid with
    | Some a =>
        runIterations_resume a (settle ev) (set_awaiting (delete pid (awaiting w)) w)
    | None => (Ok tt, w)
    end.

Definition startLoopProcess `{Host} {E}
    (loopId : string) (iterations : Q) (workDir : string) : M (World E) unit :=
  bind Date_now (fun instant =>
  let loop := mkLoop loopId None iterations 0 running [] (toISOString instant) in
  fun w =>
    let ref := next_ref w in
    bind (modify (fun w' =>
            set_activeLoops (Map_set (activeLoops w') loopId ref)
              (set_next_ref (S ref) (set_heap (<[ref := loop]> (heap w')) w'))))
         (fun _ => runIterations ref workDir) w).

(** ** The request handlers *)

Definition handleCreatePlan `{Host} {E}
    (api : ApiServer E) (req : Request) (res : Response) : M (World E) Response :=
  bind (fun w => (parsed req, w)) (fun body =>
  let workDir := default (workDir api) (b_workDir body) in
  match b_prompt body with
  | None =>
      ret (send_json 400
             (JObj [("error", JStr "Missing 'prompt' in request body")]) res)
  | Some prompt =>
      if String.eqb prompt EmptyString then
        ret (send_json 400
               (JObj [("error", JStr "Missing 'prompt' in request body")]) res)
      else
        bind (log "API" ("Creating plan in " +:+ workDir +:+ " with prompt: " +:+
                         slice0 50 prompt +:+ "...")) (fun _ =>
        let fullPrompt := prompt +:+ ". Save the plan to PRD.md and exit." in
        try_catch
          (bind (fun w => (command_completion "claude"
                             ["--permission-mode"; "plan"; "-p"; fullPrompt]
                             workDir, w)) (fun result =>
           bind (log "API" "Plan created successfully") (fun _ =>
           ret (send_json 200
                  (JObj [("success", JBool true); ("output", JStr result)]) res))))
          (fun error =>
             bind (log "API" ("Failed to create plan: " +:+ String_of_error error))
                  (fun _ =>
             ret (send_json 500
                    (JObj [("error", JStr (String_of_error error))]) res))))
  end).

Definition handleSavePlan `{Host} {E}
    (api : ApiServer E) (req : Request) (res : Response) : M (World E) Response :=
  bind (fun w => (parsed req, w)) (fun body =>
  let workDir := default (workDir api) (b_workDir body) in
  match b_content body with
  | None =>
      ret (send_json 400
             (JObj [("error", JStr "Missing 'content' in request body")]) res)
  | Some content =>
      if String.eqb content EmptyString then
        ret (send_json 400
               (JObj [("error", JStr "Missing 'content' in request body")]) res)
      else
        bind (log "API" ("Saving PRD to " +:+ workDir +:+ "/PRD.md")) (fun _ =>
        try_catch
          (let prdPath := path_join workDir "PRD.md" in
           bind (fun w => (writeFile_completion prdPath content, w)) (fun _ =>
           bind (log "API" "PRD saved successfully") (fun _ =>
           ret (send_json 200
                  (JObj [("success", JBool true); ("path", JStr prdPath)]) res))))
          (fun error =>
             bind (log "API" ("Failed to save PRD: " +:+ String_of_error error))
                  (fun _ =>
             ret (send_json 500
                    (JObj [("error", JStr (String_of_error error))]) res))))
  end).

(** [!iterations || iterations < 1] *)
Definition invalid_iterations (iterations : option Q) : bool :=
  match iterations with
  | None => true
  | Some q => Qeq_bool q 0 || negb (Qle_bool 1 q)
  end.

Definition handleStartLoop `{Host} {E}
    (api : ApiServer E) (req : Request) (res : Response) : M (World E) Response :=
  bind (fun w => (parsed req, w)) (fun body =>
  let workDir := default (workDir api) (b_workDir body) in
  match b_iterations body with
  | Some iterations =>
      if invalid_iterations (Some iterations) then
        ret (send_json 400
               (JObj [("error",
                       JStr "Missing or invalid 'iterations' in request body (must be >= 1)")])
               res)
      else
        bind Date_now (fun instant =>
        let loopId := "loop-" +:+ pretty instant in
        bind (log "API" ("Starting loop " +:+ loopId +:+ " with " +:+
                         Number_toString iterations +:+ " iterations in " +:+
                         workDir)) (fun _ =>
        bind (startLoopProcess loopId iterations workDir) (fun _ =>
        ret (send_json 200
               (JObj [("success", JBool true); ("loopId", JStr loopId);
                      ("iterations", JNum iterations)]) res))))
  | None =>
      ret (send_json 400
             (JObj [("error",
                     JStr "Missing or invalid 'iterations' in request body (must be >= 1)")])
             res)
  end).

(** [xs.slice(-n)] *)
Definition slice_last {A} (n : nat) (xs : list A) : list A :=
  skipn (length xs - n) xs.

Definition loop_summary (loop : LoopProcess) : Json :=
  JObj [("id", JStr (id loop));
        ("iterations", JNum (iterations loop));
        ("currentIteration", JNum (inject_Z (currentIteration loop)));
        ("status", JStr (status_name (status loop)));
        ("startedAt", JStr (startedAt loop));
        ("outputLines", JNum (inject_Z (Z.of_nat (length (output loop)))));
        ("lastOutput", JArr (map JStr (slice_last 5 (output loop))))].

Definition handleLoopStatus {E} (res : Response) : M (World E) Response :=
  fun w =>
    let loops := omap (fun ref => heap w !! ref) (Map_values (activeLoops w)) in
    (Ok (send_json 200 (JObj [("loops", JArr (map loop_summary loops))]) res), w).

Definition handleCancelLoop {E} (req : Request) (res : Response)
  : M (World E) Response :=
  bind (fun w => (parsed req, w)) (fun body =>
  match b_loopId body with
  | None =>
      ret (send_json 400
             (JObj [("error", JStr "Missing 'loopId' in request body")]) res)
  | Some loopId =>
      if String.eqb loopId EmptyString then
        ret (send_json 400
               (JObj [("error", JStr "Missing 'loopId' in request body")]) res)
      else
        fun w =>
          match Map_get (activeLoops w) loopId with
          | None => (Ok (send_json 404 (JObj [("error", JStr "Loop not found")]) res), w)
          | Some ref =>
              bind (cancel_entry (loopId, ref)) (fun _ =>
              fun w' =>
                let st := match heap w' !! ref with
                          | Some loop => status_name (status loop)
                          | None => EmptyString
                          end in
                (Ok (send_json 200
                       (JObj [("success", JBool true); ("loopId", JStr loopId);
                              ("status", JStr st)]) res), w')) w
          end
  end).

Definition handleClearSessions {E}
    (api : ApiServer E) (res : Response) : M (World E) Response :=
  bind (log "API" "Clearing all sessions") (fun _ =>
  try_catch
    (bind (match onClearSessions api with
           | Some callback => on_ext callback
           | None => ret tt
           end) (fun _ =>
     ret (send_json 200 (JObj [("success", JBool true)]) res)))
    (fun error =>
       bind (log "API" ("Failed to clear sessions: " +:+ String_of_error error))
            (fun _ =>
       ret (send_json 500 (JObj [("error", JStr (String_of_error error))]) res)))).

Definition handleRequest `{Host} {E}
    (api : ApiServer E) (req : Request) (res0 : Response) : M (World E) Response :=
  let res := setCorsHeaders res0 in
  if String.eqb (method req) "OPTIONS" then
    ret (end_ None (writeHead 204 [] res))
  else
    bind (fun w => (URL_pathname (default "/" (url req)), w)) (fun path =>
    let route m p := String.eqb (method req) m && String.eqb path p in
    try_catch
      (if route "POST" "/api/plan/create" then handleCreatePlan api req res
       else if route "POST" "/api/plan/save" then handleSavePlan api req res
       else if route "POST" "/api/loop/start" then handleStartLoop api req res
       else if route "GET" "/api/loop/status" then handleLoopStatus res
       else if route "POST" "/api/loop/cancel" then handleCancelLoop req res
       else if route "POST" "/api/sessions/clear" then handleClearSessions api res
       else ret (send_json 404 (JObj [("error", JStr "Not found")]) res))
      (fun error =>
         bind (log "API" ("Error handling " +:+ path +:+ ": " +:+
                          String_of_error error)) (fun _ =>
         ret (send_json 500 (JObj [("error", JStr (String_of_error error))]) res)))).

(** ** The server as a transition system

    One event is handled without interruption, as the event loop does. *)
Inductive Event : Type :=
| EvStart (listened : result unit)
| EvRequest (req : Request)
| EvProcess (pid : nat) (ev : ProcessEvent)
| EvStop.

Definition step `{Host} {E} (api : ApiServer E) (ev : Event) (w : World E)
  : World E :=
  match ev with
  | EvStart listened => (start api listened w).2
  | EvRequest req => (handleRequest api req fresh_response w).2
  | EvProcess pid pev => (process_settled pid pev w).2
  | EvStop => (stop w).2
  end.

(** A newly constructed server. *)
Definition initial {E} (w : World E) : Prop :=
  server w = None /\ activeLoops w = [] /\ heap w = ∅ /\ awaiting w = ∅ /\
  spawned w = 0%nat.

Inductive reachable `{Host} {E} (api : ApiServer E) : World E -> Prop :=
| reach_initial w : initial w -> reachable api w
| reach_step w ev : reachable api w -> reachable api (step api ev w).

(** ** [parseBody]

    The request stream emits [data] events and then [end], or [error];
    the promise settles at the first [end] or [error] and is pending
    before.  [JSON_parse] is [JSON.parse] followed by the reading of the
    fields the handlers use. *)
Inductive StreamEvent : Type :=
| SData (chunk : string)
| SEnd
| SError (error : JsError).

Definition empty_body : Body := mkBody None None None None None.

Fixpoint parseBody_from (JSON_parse : string -> result Body) (body : string)
    (events : list StreamEvent) : option (result Body) :=
  match events with
  | [] => None
  | SData chunk :: rest => parseBody_from JSON_parse (body +:+ chunk) rest
  | SEnd :: _ =>
      Some (if String.eqb body EmptyString then Ok empty_body
            else match JSON_parse body with
                 | Ok value => Ok value
                 | Throw _ => Throw (Error_ "Invalid JSON body")
                 end)
  | SError error :: _ => Some (Throw error)
  end.

Definition parseBody (JSON_parse : string -> result Body)
    (events : list StreamEvent) : option (result Body) :=
  parseBody_from JSON_parse EmptyString events.

(** ** [runCommand]

    The promise of [runCommand] once the child process is spawned and the
    timer is set.  The callbacks run one at a time: the timer fires, the
    process writes, closes or fails. *)
Inductive CommandEvent : Type :=
| CTimer
| CStdout (data : string)
| CStderr (data : string)
| CClose (code : option Z)
| CError (error : JsError).

(** [timer] tells whether the timer is still set: it fires once at most
    and not at all once cleared.  [promise] is the settlement of the
    promise, [signals] what [proc.kill] was called with. *)
Record Command := mkCommand {
  stdout : string;
  stderr : string;
  timedOut : bool;
  timer : bool;
  promise : option (result string);
  signals : list string
}.

Definition command_spawned : Command :=
  mkCommand EmptyString EmptyString false true None [].

(** [resolve] and [reject] settle a pending promise only. *)
Definition settle_promise (r : result string) (c : Command) : Command :=
  mkCommand (stdout c) (stderr c) (timedOut c) (timer c)
            (match promise c with
             | Some settled => Some settled
             | None => Some r
             end)
            (signals c).

Definition clearTimeout (c : Command) : Command :=
  mkCommand (stdout c) (stderr c) (timedOut c) false (promise c) (signals c).

(** [`${code}`] for an exit code. *)
Definition code_toString (code : option Z) : string :=
  match code with
  | Some c => pretty c
  | None => "null"
  end.

Definition runCommand_on `{Host} (timeoutMs : Q) (ev : CommandEvent) (c : Command)
  : Command :=
  match ev with
  | CTimer =>
      if timer c then
        settle_promise
          (Throw (Error_ ("Command timed out after " +:+
                          Number_toString (timeoutMs / 1000)%Q +:+ "s")))
          (mkCommand (stdout c) (stderr c) true false (promise c)
                     (signals c ++ ["SIGTERM"]))
      else c
  | CStdout data =>
      mkCommand (stdout c +:+ data) (stderr c) (timedOut c) (timer c)
                (promise c) (signals c)
  | CStderr data =>
      mkCommand (stdout c) (stderr c +:+ data) (timedOut c) (timer c)
                (promise c) (signals c)
  | CClose code =>
      let c' := clearTimeout c in
      if timedOut c' then c'
      else
        match code with
        | Some 0 => settle_promise (Ok (stdout c')) c'
        | _ =>
            settle_promise
              (Throw (Error_ ("Command failed with code " +:+ code_toString code
                              +:+ ": " +:+ str_or (stderr c') (stdout c'))))
              c'
        end
  | CError error => settle_promise (Throw error) (clearTimeout c)
  end.

(** [timeoutMs = 5 * 60 * 1000] unless given. *)
Definition runCommand `{Host} (timeoutMs : option Q) (events : list CommandEvent)
  : Command :=
  fold_left (fun c ev => runCommand_on (default (5 * 60 * 1000)%Q timeoutMs) ev c)
            events command_spawned.

End Api.
(* ===================================================================== *)
(** * The daemon entry point (the composing process) *)
(* ===================================================================== *)

Module Index.
Import JS.

(** ** Configuration

    [process.env] as the constants of the module read it, that is after
    the [.env] file, if any, has been loaded. *)

Definition env_or (env : gmap string string) (key dflt : string) : string :=
  default dflt (env !! key).

Definition PORT (env : gmap string string) : number :=
  parseInt10 (env_or env "PORT" "4450").

Definition API_PORT (env : gmap string string) : number :=
  parseInt10 (env_or env "API_PORT" "4451").

Definition MAX_AGE_HOURS (env : gmap string string) : number :=
  parseInt10 (env_or env "MAX_AGE_HOURS" "24").

Definition MAX_AGE_MS (env : gmap string string) : number :=
  num_mul (num_mul (num_mul (MAX_AGE_HOURS env) (Int 60)) (Int 60)) (Int 1000).

(** ANSI colors. *)
Definition ESC : string := String "027"%char EmptyString.
Definition c_reset : string := ESC +:+ "[0m".
Definition c_dim : string := ESC +:+ "[2m".
Definition c_bold : string := ESC +:+ "[1m".
Definition c_green : string := ESC +:+ "[32m".
Definition c_yellow : string := ESC +:+ "[33m".
Definition c_blue : string := ESC +:+ "[34m".
Definition c_cyan : string := ESC +:+ "[36m".
Definition c_gray : string := ESC +:+ "[90m".

(** ** Data model *)

Inductive SessionStatus : Type := working | waiting | idle.

(** Modelled from the spec: the declarations of [SessionState] and
    [SessionEvent] live in the watcher module, which is not among the
    sources.  The fields the entry point reads ([sessionId], [cwd],
    [status], [status.lastActivityAt]) are as it reads them; the remaining
    ones follow the data model of the specification. *)
Record StatusResult := mkStatus {
  status_kind : SessionStatus;
  lastActivityAt : Timestamp;
  messageCount : Z;
  hasPendingToolUse : bool
}.

Record SessionState := mkSession {
  sessionId : string;
  cwd : string;
  gitBranch : option string;
  gitRepoUrl : option string;
  gitRepoId : option string;
  status : StatusResult;
  goal : string;
  summary : string
}.

Inductive EventType : Type := created | updated | deleted.

Record SessionEvent := mkEvent { type : EventType; session : SessionState }.

Inductive Operation : Type := op_insert | op_update | op_delete.

Definition type_name (t : EventType) : string :=
  match t with
  | created => "created"
  | updated => "updated"
  | deleted => "deleted"
  end.

Definition is_deleted (t : EventType) : bool :=
  match t with deleted => true | _ => false end.

(** ** Collaborators

    The stream server, the status formatter and the locale of the host
    are outside the sources; the entry point is embedded over any
    implementation of them.  A call to the stream server returns its
    completion (resolved or rejected) and the server's next state. *)
Class Collaborators := {
  StreamServer : Type;
  publishSession :
    SessionState -> Operation -> StreamServer -> result unit * StreamServer;
  clearAllSessions : StreamServer -> result unit * StreamServer;
  formatStatus : StatusResult -> string;
  toLocaleTimeString : Z -> string
}.

(** What the process writes to the console. *)
Inductive ConsoleLine : Type :=
| Log (line : string)
| Err (line : string) (detail : JsError + string).

(** A call made to the stream server, and how it completed. *)
Inductive StreamRequest : Type :=
| Publish (s : SessionState) (op : Operation)
| Clear.

Record StreamCall := mkCall {
  request : StreamRequest;
  completion : result unit
}.

(** The world of the process: [clock k] is what the [k]-th reading of the
    system clock returns, [reads] counts the readings taken so far;
    [console] and [calls] grow at their end. *)
Record World `{Collaborators} := mkWorld {
  clock : nat -> Z;
  reads : nat;
  console : list ConsoleLine;
  streamServer : StreamServer;
  calls : list StreamCall
}.

(** [Date.now()], also the instant of [new Date()]. *)
Definition Date_now `{Collaborators} : M World Z :=
  fun w => (Ok (clock w (reads w)),
            mkWorld _ (clock w) (S (reads w)) (console w) (streamServer w) (calls w)).

Definition console_log `{Collaborators} (line : string) : M World unit :=
  modify (fun w => mkWorld _ (clock w) (reads w) (console w ++ [Log line])
                           (streamServer w) (calls w)).

Definition console_error `{Collaborators} (line : string) (detail : JsError + string)
  : M World unit :=
  modify (fun w => mkWorld _ (clock w) (reads w) (console w ++ [Err line detail])
                           (streamServer w) (calls w)).

(** [await streamServer.publishSession(session, operation)] *)
Definition call_publishSession `{Collaborators}
    (s : SessionState) (op : Operation) : M World unit :=
  fun w =>
    let '(r, srv) := publishSession s op (streamServer w) in
    (r, mkWorld _ (clock w) (reads w) (console w) srv
                (calls w ++ [mkCall (Publish s op) r])).

(** [await streamServer.clearAllSessions()] *)
Definition call_clearAllSessions `{Collaborators} : M World unit :=
  fun w =>
    let '(r, srv) := clearAllSessions (streamServer w) in
    (r, mkWorld _ (clock w) (reads w) (console w) srv
                (calls w ++ [mkCall Clear r])).

(** ** The Recency Filter *)

Definition isRecentSession `{Collaborators}
    (env : gmap string string) (session : SessionState) : M World bool :=
  let lastActivity := Date_getTime (lastActivityAt (status session)) in
  bind Date_now (fun now =>
  ret (num_ltb (Int (now - lastActivity)) (MAX_AGE_MS env))).

(** ** The handler of the watcher's [session] events *)

Definition operation_of (t : EventType) : Operation :=
  match t with
  | created => op_insert
  | deleted => op_delete
  | updated => op_update
  end.

Definition event_color (t : EventType) : string :=
  match t with
  | created => c_green
  | deleted => c_blue
  | updated => c_yellow
  end.

Definition dirName (s : SessionState) : string :=
  str_or (List.last (split "/"%char (cwd s)) EmptyString) (cwd s).

Definition event_line `{Collaborators}
    (timestamp : string) (t : EventType) (s : SessionState) : string :=
  c_gray +:+ timestamp +:+ c_reset +:+ " " +:+
  event_color t +:+ "[" +:+ slice0 3 (toUpperCase (type_name t)) +:+ "]" +:+
  c_reset +:+ " " +:+
  c_cyan +:+ slice0 8 (sessionId s) +:+ c_reset +:+ " " +:+
  c_dim +:+ dirName s +:+ c_reset +:+ " " +:+
  formatStatus (status s).

Definition on_session `{Collaborators}
    (env : gmap string string) (event : SessionEvent) : M World unit :=
  let t := type event in
  let s := session event in
  bind (isRecentSession env s) (fun recent =>
  if negb recent && negb (is_deleted t) then ret tt
  else
    bind Date_now (fun instant =>
    let timestamp := toLocaleTimeString instant in
    bind (console_log (event_line timestamp t s)) (fun _ =>
    try_catch
      (call_publishSession s (operation_of t))
      (fun error =>
         console_error (c_yellow +:+ "[ERROR]" +:+ c_reset +:+ " Failed to publish:")
                       (inl error))))).

(** The events the watcher emits, handled one after the other. *)
Definition handle_events `{Collaborators}
    (env : gmap string string) (events : list SessionEvent) : M World unit :=
  for_of events (on_session env).

(** [watcher.on("error", ...)] *)
Definition on_error `{Collaborators} (error : JsError) : M World unit :=
  console_error (c_yellow +:+ "[ERROR]" +:+ c_reset) (inr (err_message error)).

(** ** [main], after [await watcher.start()]

    [allSessions] is what [watcher.getSessions()] returns. *)
Definition publish_initial `{Collaborators}
    (env : gmap string string) (allSessions : JsMap SessionState) : M World unit :=
  bind (Array_filter (isRecentSession env) (Map_values allSessions))
       (fun recentSessions =>
  bind (console_log
          (c_dim +:+ "Found " +:+ pretty (length recentSessions) +:+
           " recent sessions (of " +:+ pretty (length allSessions) +:+
           " total), publishing..." +:+ c_reset)) (fun _ =>
  bind (for_of recentSessions (fun s =>
          try_catch
            (call_publishSession s op_insert)
            (fun error =>
               console_error (c_yellow +:+ "[ERROR]" +:+ c_reset +:+
                              " Failed to publish initial session:")
                             (inl error)))) (fun _ =>
  bind (console_log EmptyString) (fun _ =>
  bind (console_log (c_green +:+ "✓" +:+ c_reset +:+ " Ready - watching for changes"))
       (fun _ =>
  console_log (c_dim +:+ "Press Ctrl+C to exit" +:+ c_reset)))))).

(** The options [main] constructs the watcher with. *)
Record SessionWatcherOptions := { debounceMs : Z }.

Definition watcherOptions : SessionWatcherOptions := {| debounceMs := 300 |}.

(** The options [main] constructs the API server with: the clear-sessions
    callback awaits [streamServer.clearAllSessions()]. *)
Definition apiServerOptions `{Collaborators} (env : gmap string string)
  : Api.ApiServerOptions World :=
  Api.mkOptions (Some (API_PORT env)) None (Some call_clearAllSessions).

Definition apiServer `{Collaborators} `{Api.Host} (env : gmap string string)
  : Api.ApiServer World :=
  Api.constructor (apiServerOptions env).

End Index.

(* ===================================================================== *)
(** * The dashboard helpers *)
(* ===================================================================== *)

Module UI.
Import JS.

(** ** [schema.ts] *)

Inductive SessionStatus : Type := working | waiting | idle.

Record PendingTool := mkPendingTool { tool : string; target : string }.

Inductive Role : Type := user | assistant | tool_role.

Record RecentOutput := mkRecentOutput { role : Role; content : string }.

Inductive CIStatus : Type :=
| ci_pending | ci_running | ci_success | ci_failure | ci_cancelled | ci_unknown.

Record CICheck := mkCICheck {
  check_name : string;
  check_status : CIStatus;
  check_url : option string
}.

Record PRInfo := mkPRInfo {
  pr_number : Q;
  pr_url : string;
  pr_title : string;
  ciStatus : CIStatus;
  ciChecks : list CICheck;
  lastChecked : string
}.

Record Session := mkSession {
  sessionId : string;
  cwd : string;
  gitBranch : option string;
  gitRepoUrl : option string;
  gitRepoId : option string;
  originalPrompt : string;
  status : SessionStatus;
  lastActivityAt : Timestamp;
  messageCount : Q;
  hasPendingToolUse : bool;
  pendingTool : option PendingTool;
  goal : string;
  summary : string;
  recentOutput : list RecentOutput;
  pr : option PRInfo
}.

(** ** The browser's clock and [Math.pow] *)

Record Clock := mkClock { clock : nat -> Z; reads : nat }.

Definition Date_now : M Clock Z :=
  fun c => (Ok (clock c (reads c)), mkClock (clock c) (S (reads c))).

Class MathLib := { Math_pow : Q -> Q -> Q }.

(** ** [RepoSection.tsx] *)

Definition IDLE_TIMEOUT_MS : Z := 60 * 60 * 1000.

Definition getEffectiveStatus (session : Session) : M Clock SessionStatus :=
  bind Date_now (fun now =>
  let elapsed := now - Date_getTime (lastActivityAt session) in
  if IDLE_TIMEOUT_MS <? elapsed then ret idle
  else ret (status session)).

(** ** [useSessions.ts] *)

Definition STATUS_WEIGHTS (s : SessionStatus) : Q :=
  match s with
  | working => 100
  | waiting => 50
  | idle => 1
  end.

Definition PENDING_TOOL_BONUS : Q := 30.

Definition calculateRepoActivityScore `{MathLib} (sessions : list Session)
  : M Clock Q :=
  bind Date_now (fun now =>
  ret (fold_left
         (fun (score : Q) (session : Session) =>
            let ageMs := inject_Z (now - Date_getTime (lastActivityAt session)) in
            let ageMinutes := (ageMs / (1000 * 60))%Q in
            let sessionScore :=
              if hasPendingToolUse session
              then (STATUS_WEIGHTS (status session) + PENDING_TOOL_BONUS)%Q
              else STATUS_WEIGHTS (status session) in
            let decayFactor := Math_pow (1 # 2) (ageMinutes / 30)%Q in
            (score + sessionScore * decayFactor)%Q)
         sessions 0%Q)).

Record RepoGroup := mkRepoGroup {
  repoId : string;
  repoUrl : option string;
  sessions : list Session;
  activityScore : Q
}.

(** [session.gitRepoId ?? "Other"] *)
Definition group_key (session : Session) : string :=
  default "Other" (gitRepoId session).

(** The body of the grouping loop. *)
Definition add_session (groups : JsMap (list Session)) (session : Session)
  : JsMap (list Session) :=
  let key := group_key session in
  let existing := default [] (Map_get groups key) in
  Map_set groups key (existing ++ [session])%list.

Definition scored_group `{MathLib} (entry : string * list Session)
  : M Clock RepoGroup :=
  let '(key, sessions) := entry in
  bind (calculateRepoActivityScore sessions) (fun score =>
  ret (mkRepoGroup key
         (if String.eqb key "Other" then None
          else Some ("https://github.com/" +:+ key))
         sessions score)).

Definition groupSessionsByRepo `{MathLib} (sessions : list Session)
  : M Clock (list RepoGroup) :=
  let groups := fold_left add_session sessions [] in
  bind (Array_map scored_group groups) (fun groupsWithScores =>
  ret (Array_sort (fun a b => (activityScore b - activityScore a)%Q)
                  groupsWithScores)).


(** ** [RepoSection.tsx]: what a section renders

    An element is kept as the data it shows: the heading of a section and
    the three columns with their sessions. *)

Definition status_eqb (a b : SessionStatus) : bool :=
  match a, b with
  | working, working | waiting, waiting | idle, idle => true
  | _, _ => false
  end.

Record KanbanColumn := mkColumn {
  column_title : string;
  column_status : string;
  column_sessions : list Session;
  column_color : string
}.

Inductive Heading : Type :=
| HeadingOther
| HeadingLink (href text : string)
| HeadingPlain (text : string).

Record Box := mkBox { heading : Heading; columns : list KanbanColumn }.

Definition RepoSection (repoId : string) (repoUrl : option string)
    (sessions : list Session) (activityScore : Q) : M Clock (option Box) :=
  bind (Array_filter
          (fun s => bind (getEffectiveStatus s) (fun st =>
                    ret (status_eqb st working))) sessions) (fun working_ =>
  bind (Array_filter
          (fun s => bind (getEffectiveStatus s) (fun st =>
                    ret (status_eqb st waiting && hasPendingToolUse s)))
          sessions) (fun needsApproval =>
  bind (Array_filter
          (fun s => bind (getEffectiveStatus s) (fun st =>
                    ret (status_eqb st waiting && negb (hasPendingToolUse s))))
          sessions) (fun waiting_ =>
  let hasActiveSessions :=
    (0 <? length working_)%nat || (0 <? length needsApproval)%nat
    || (0 <? length waiting_)%nat in
  if negb hasActiveSessions then ret None
  else
    ret (Some (mkBox
      (if String.eqb repoId "Other" then HeadingOther
       else match repoUrl with
            | Some href =>
                if String.eqb href EmptyString then HeadingPlain repoId
                else HeadingLink href repoId
            | None => HeadingPlain repoId
            end)
      [mkColumn "Working" "working" working_ "green";
       mkColumn "Needs Approval" "needs-approval" needsApproval "orange";
       mkColumn "Waiting" "waiting" waiting_ "yellow"]))))).

(** ** The index route: [IndexPage] *)



End UI.

(* ===================================================================== *)
(** * Facts about the prelude *)
(* ===================================================================== *)

Module JSFacts.
Import JS.

(** ** [Map] *)

Section MapFacts.
Context {V : Type}.
Implicit Types (m : JsMap V) (k : string) (v : V).

Lemma Map_get_set m k v k' :
  Map_get (Map_set m k v) k' = if String.eqb k k' then Some v else Map_get m k'.
Proof.
  induction m as [|[k0 v0] m IH]; cbn.
  - reflexivity.
  - destruct (String.eqb_spec k0 k) as [->|Hne]; cbn.
    + destruct (String.eqb k k'); reflexivity.
    + rewrite IH. destruct (String.eqb_spec k0 k') as [->|]; [|reflexivity].
      destruct (String.eqb_spec k k'); congruence.
Qed.

Lemma Map_get_elem m k v : Map_get m k = Some v -> (k, v) ∈ m.
Proof.
  induction m as [|[k0 v0] m IH]; cbn; [discriminate|].
  destruct (String.eqb_spec k0 k) as [->|Hne]; intros Hget.
  - injection Hget as ->. apply list_elem_of_here.
  - apply list_elem_of_further. auto.
Qed.

Lemma Map_get_None m k : Map_get m k = None -> k ∉ Map_keys m.
Proof.
  induction m as [|[k0 v0] m IH]; cbn.
  - intros _ Hin. inversion Hin.
  - destruct (String.eqb_spec k0 k) as [->|Hne]; [discriminate|].
    intros Hget Hin. apply elem_of_cons in Hin as [Heq|Hin]; [congruence|].
    exact (IH Hget Hin).
Qed.




Lemma elem_of_Map_set m k v k' v' :
  (k', v') ∈ Map_set m k v -> (k', v') ∈ m \/ (k' = k /\ v' = v).
Proof.
  induction m as [|[k0 v0] m IH]; cbn.
  - intros Hin. apply list_elem_of_singleton in Hin. injection Hin as -> ->. auto.
  - destruct (String.eqb_spec k0 k) as [->|Hne]; intros Hin;
      apply elem_of_cons in Hin as [Heq|Hin].
    + injection Heq as -> ->. auto.
    + left. apply list_elem_of_further, Hin.
    + left. rewrite Heq. apply list_elem_of_here.
    + destruct (IH Hin) as [Hm|Hnew]; [left; apply list_elem_of_further, Hm|auto].
Qed.

End MapFacts.

(** ** [Array.prototype.sort] *)

Section SortFacts.
Context {A : Type}.
Variable key : A -> Q.

(** The comparator [(a, b) => key b - key a]: larger keys first. *)
Definition descending (a b : A) : Q := (key b - key a)%Q.










End SortFacts.

End JSFacts.

(* ===================================================================== *)
(** * Further facts about the prelude: sorting by a key *)
(* ===================================================================== *)

Module JSMore.
Import JS JSFacts.

Section SortByKey.
Context {A : Type}.
Variable key : A -> Q.
Variable cmp : A -> A -> Q.

(** The comparator orders by decreasing [key]. *)
Hypothesis cmp_key : forall a b, (cmp a b ?= 0)%Q = (key b ?= key a)%Q.

Definition before (a b : A) : Prop := (key b <= key a)%Q.










End SortByKey.


Lemma descending_by_key {A} (key : A -> Q) (a b : A) :
  (descending key a b ?= 0)%Q = (key b ?= key a)%Q.
Proof.
  unfold descending.
  destruct (key b ?= key a)%Q eqn:Hc.
  - apply Qeq_alt in Hc. apply (proj1 (Qeq_alt _ _)).
    assert (H1 : (key b <= key a)%Q) by (rewrite Hc; apply Qle_refl).
    assert (H2 : (key a <= key b)%Q) by (rewrite Hc; apply Qle_refl).
    apply Qle_antisym; lra.
  - apply Qlt_alt in Hc. apply (proj1 (Qlt_alt _ _)). lra.
  - apply Qgt_alt in Hc. apply (proj1 (Qgt_alt _ _)). lra.
Qed.

End JSMore.

(* ===================================================================== *)
(** * Facts about the composing process *)
(* ===================================================================== *)

Module IndexFacts.
Import JS Index.

(** [now - lastActivityAt < maxAge], for the configured maximum age. *)
Definition within_max_age (env : gmap string string) (now : Z) (s : SessionState)
  : bool :=
  num_ltb (Int (now - lastActivityAt (status s))) (MAX_AGE_MS env).

Definition requests (cs : list StreamCall) : list StreamRequest :=
  map request cs.

(** The errors the stream server rejected calls with. *)
Definition rejections (cs : list StreamCall) : list JsError :=
  omap (fun c => match completion c with
                 | Throw e => Some e
                 | Ok _ => None
                 end) cs.

(** The error objects written with [console.error]. *)
Definition logged_errors (ls : list ConsoleLine) : list JsError :=
  omap (fun l => match l with
                 | Err _ (inl e) => Some e
                 | _ => None
                 end) ls.



Section Handler.
Context `{Collaborators}.
Variable env : gmap string string.

Lemma isRecentSession_run (s : SessionState) (w : World) :
  isRecentSession env s w =
    (Ok (within_max_age env (clock w (reads w)) s),
     mkWorld _ (clock w) (S (reads w)) (console w) (streamServer w) (calls w)).
Proof. reflexivity. Qed.

(** One call of the publishing [try]/[catch]: the call is recorded, a
    rejection is written to the console, nothing is thrown. *)
Lemma guarded_publish_run (s : SessionState) (op : Operation) (line : string)
    (w : World) :
  try_catch (call_publishSession s op)
            (fun error => console_error line (inl error)) w =
    let r := (publishSession s op (streamServer w)).1 in
    (Ok tt,
     mkWorld _ (clock w) (reads w)
       (console w ++ match r with Throw e => [Err line (inl e)] | Ok _ => [] end)
       (publishSession s op (streamServer w)).2
       (calls w ++ [mkCall (Publish s op) r])).
Proof.
  unfold try_catch, call_publishSession, console_error, modify.
  destruct (publishSession s op (streamServer w)) as [[[]|e] srv]; simpl;
    rewrite ?app_nil_r; reflexivity.
Qed.

Lemma on_session_dropped (event : SessionEvent) (w : World) :
  within_max_age env (clock w (reads w)) (session event) = false ->
  is_deleted (type event) = false ->
  on_session env event w =
    (Ok tt, mkWorld _ (clock w) (S (reads w)) (console w) (streamServer w) (calls w)).
Proof.
  intros Hold Hdel. unfold on_session, bind.
  rewrite isRecentSession_run, Hold, Hdel. reflexivity.
Qed.

Lemma on_session_published (event : SessionEvent) (w : World) :
  within_max_age env (clock w (reads w)) (session event) || is_deleted (type event)
    = true ->
  exists w' c,
    on_session env event w = (Ok tt, w') /\
    clock w' = clock w /\ reads w' = S (S (reads w)) /\
    calls w' = calls w ++ [c] /\
    request c = Publish (session event) (operation_of (type event)) /\
    logged_errors (console w') = logged_errors (console w) ++ rejections [c].
Proof.
  intros Hpub. unfold on_session, bind.
  rewrite isRecentSession_run.
  replace (negb _ && negb _) with false
    by (destruct (within_max_age _ _ _), (is_deleted _); simpl in *; congruence).
  cbn [Date_now console_log modify].
  rewrite guarded_publish_run. cbn zeta.
  do 2 eexists; split; [reflexivity|]. cbn [clock reads calls console].
  repeat split.
  unfold logged_errors, rejections. rewrite !omap_app. cbn.
  destruct (publishSession _ _ _).1 as [[]|e]; cbn; rewrite ?app_nil_r; reflexivity.
Qed.

(** The handler never throws, and leaves the clock function alone. *)
Lemma on_session_total (event : SessionEvent) (w : World) :
  exists w', on_session env event w = (Ok tt, w') /\ clock w' = clock w.
Proof.
  destruct (within_max_age env (clock w (reads w)) (session event)
            || is_deleted (type event)) eqn:Hpub.
  - destruct (on_session_published event w Hpub) as (w' & c & Hrun & Hclk & _).
    eauto.
  - apply orb_false_iff in Hpub as [Hold Hdel].
    rewrite (on_session_dropped event w Hold Hdel). eauto.
Qed.






End Handler.

(** ** Sample data *)

(** A stream server for the examples: it keeps the requests it accepted
    and rejects a call once its [room] is used up. *)
Record SampleServer := mkSample { accepted : list StreamRequest; room : nat }.

Definition sample_publish (s : SessionState) (op : Operation) (srv : SampleServer)
  : result unit * SampleServer :=
  match room srv with
  | O => (Throw (mkError "PublishError" "log append failed"), srv)
  | S n => (Ok tt, mkSample (accepted srv ++ [Publish s op]) n)
  end.

Definition sample_clear (srv : SampleServer) : result unit * SampleServer :=
  match room srv with
  | O => (Throw (mkError "PublishError" "log append failed"), srv)
  | S n => (Ok tt, mkSample (accepted srv ++ [Clear]) n)
  end.

Definition sample_collaborators : Collaborators :=
  {| StreamServer := SampleServer;
     publishSession := sample_publish;
     clearAllSessions := sample_clear;
     formatStatus := fun st =>
       match status_kind st with
       | working => "Working"
       | waiting => "Waiting"
       | idle => "Idle"
       end;
     toLocaleTimeString := fun _ => "12:00:00" |}.

Definition hour : Z := 60 * 60 * 1000.

(** Two sessions with the same [lastActivityAt] that differ everywhere
    else, and a session last active 30 hours before [sample_world]. *)
Definition session_a : SessionState :=
  mkSession "abc123" "/home/dev/app" (Some "main")
            (Some "https://github.com/dev/app") (Some "dev/app")
            (mkStatus working (100 * hour) 5 false) "ship it" "editing".

Definition session_b : SessionState :=
  mkSession "zzz999" "/tmp/scratch/" None None None
            (mkStatus idle (100 * hour) 42 true) "explore" "waiting for approval".

Definition session_old : SessionState :=
  mkSession "old000" "/srv/legacy" None None None
            (mkStatus waiting (71 * hour) 7 false) "migrate" "stalled".

(** A world whose clock stands at hour 101 and whose stream server has
    [n] records of room left. *)
Definition sample_world (n : nat) : @World sample_collaborators :=
  mkWorld sample_collaborators (fun _ => 101 * hour) 0 [] (mkSample [] n) [].

(** ** Properties of the specification *)


(** An aged-out session that is deleted still reaches the stream. *)
Example aged_out_deletion_is_published :
  requests (calls (on_session (H:=sample_collaborators) ∅
                     (mkEvent deleted session_old) (sample_world 1)).2)
    = [Publish session_old op_delete] /\
  requests (calls (on_session (H:=sample_collaborators) ∅
                     (mkEvent updated session_old) (sample_world 1)).2)
    = [].
Proof. split; reflexivity. Qed.


Example initial_publication_sample :
  requests (calls (publish_initial (H:=sample_collaborators) ∅
                     [("abc123", session_a); ("old000", session_old);
                      ("zzz999", session_b)] (sample_world 5)).2)
    = [Publish session_a op_insert; Publish session_b op_insert].
Proof. reflexivity. Qed.

(** C3: the decision of the Recency Filter depends on the session only
    through [lastActivityAt]: two sessions that agree on it get the same
    answer (and leave the same world) when evaluated in the same world,
    hence at the same instant. *)
Theorem recency_depends_on_lastActivityAt_only `{Collaborators}
    (env : gmap string string) (s1 s2 : SessionState) (w : World) :
  lastActivityAt (status s1) = lastActivityAt (status s2) ->
  isRecentSession env s1 w = isRecentSession env s2 w.
Proof.
  intros Hsame. rewrite !isRecentSession_run.
  unfold within_max_age. rewrite Hsame. reflexivity.
Qed.

Lemma recency_depends_on_lastActivityAt_only_witness :
  lastActivityAt (status session_a) = lastActivityAt (status session_b) /\
  sessionId session_a <> sessionId session_b /\
  isRecentSession (H:=sample_collaborators) ∅ session_a (sample_world 1)
    = isRecentSession (H:=sample_collaborators) ∅ session_b (sample_world 1).
Proof.
  split; [reflexivity|]. split; [discriminate|].
  apply (recency_depends_on_lastActivityAt_only
           (H:=sample_collaborators) ∅ session_a session_b (sample_world 1)).
  reflexivity.
Defined.


(** With no room left every publish is rejected; both sessions are still
    requested and both rejections are logged. *)
Example rejected_publishes_sample :
  let w' := (handle_events (H:=sample_collaborators) ∅
               [mkEvent created session_a; mkEvent updated session_b]
               (sample_world 0)).2 in
  requests (calls w') = [Publish session_a op_insert; Publish session_b op_update] /\
  length (rejections (calls w')) = 2%nat /\
  length (logged_errors (console w')) = 2%nat.
Proof. repeat split. Qed.

(** C7: the watcher is constructed with a debounce of 300 milliseconds
    and, when [MAX_AGE_HOURS] is not set, the maximum session age is
    24 hours, that is [24 * 60 * 60 * 1000] milliseconds. *)
Theorem default_configuration (env : gmap string string) :
  env !! "MAX_AGE_HOURS" = None ->
  debounceMs watcherOptions = 300 /\
  MAX_AGE_HOURS env = Int 24 /\
  MAX_AGE_MS env = Int (24 * 60 * 60 * 1000).
Proof.
  intros Hunset. unfold MAX_AGE_MS, MAX_AGE_HOURS, env_or. rewrite Hunset.
  repeat split.
Qed.

(** A configured value replaces the default; one that does not parse
    makes the maximum age [NaN], and then no session is recent. *)
Example configured_max_age :
  MAX_AGE_MS {["MAX_AGE_HOURS" := " 48h"]} = Int (48 * 60 * 60 * 1000) /\
  MAX_AGE_MS {["MAX_AGE_HOURS" := "two days"]} = NaN /\
  within_max_age {["MAX_AGE_HOURS" := "two days"]} (100 * hour) session_a = false.
Proof. repeat split. Qed.

Lemma default_configuration_witness :
  (∅ : gmap string string) !! "MAX_AGE_HOURS" = None /\
  debounceMs watcherOptions = 300 /\
  MAX_AGE_HOURS ∅ = Int 24 /\
  MAX_AGE_MS ∅ = Int (24 * 60 * 60 * 1000).
Proof.
  split; [reflexivity|].
  apply (default_configuration ∅). reflexivity.
Defined.

End IndexFacts.

(* ===================================================================== *)
(** * Further properties of the composing process *)
(* ===================================================================== *)

Module IndexMore.
Import JS Index IndexFacts.

(** ** The Recency Filter over time *)

(** X1: a session the filter turns down is turned down at every reading of
    the clock that is not earlier, as long as its [lastActivityAt] stays:
    a session does not come back by the passing of time. *)
Theorem aged_out_stays_out `{Collaborators}
    (env : gmap string string) (s : SessionState) (w1 w2 : World) :
  clock w1 (reads w1) <= clock w2 (reads w2) ->
  (isRecentSession env s w1).1 = Ok false ->
  (isRecentSession env s w2).1 = Ok false.
Proof.
  intros Hlater. rewrite !isRecentSession_run. cbn [fst].
  unfold within_max_age, num_ltb.
  destruct (MAX_AGE_MS env) as [|m]; [reflexivity|].
  intros Hout. injection Hout as Hout. f_equal.
  apply Z.ltb_ge in Hout. apply Z.ltb_ge. lia.
Qed.

(** A world like [sample_world] whose clock stands at hour [h]. *)
Definition world_at (h : Z) : @World sample_collaborators :=
  mkWorld sample_collaborators (fun _ => h * hour) 0 [] (mkSample [] 1) [].

Lemma aged_out_stays_out_witness :
  clock (world_at 101) (reads (world_at 101))
    <= clock (world_at 500) (reads (world_at 500)) /\
  (isRecentSession (H:=sample_collaborators) ∅ session_old (world_at 101)).1
    = Ok false /\
  (isRecentSession (H:=sample_collaborators) ∅ session_old (world_at 500)).1
    = Ok false.
Proof.
  assert (Hlater : clock (world_at 101) (reads (world_at 101))
                   <= clock (world_at 500) (reads (world_at 500)))
    by (vm_compute; discriminate).
  split; [exact Hlater|]. split; [reflexivity|].
  apply (aged_out_stays_out (H:=sample_collaborators) ∅ session_old
           (world_at 101) (world_at 500) Hlater).
  reflexivity.
Defined.

(** ** A maximum age that does not parse *)






(** ** Events that are dropped *)

(** X3: an event that is neither a deletion nor recent leaves no trace:
    nothing is written to the console, the stream server is not called
    and its state stays; only the clock has been read, once. *)
Theorem dropped_event_is_silent `{Collaborators}
    (env : gmap string string) (event : SessionEvent) (w : World) :
  type event <> deleted ->
  within_max_age env (clock w (reads w)) (session event) = false ->
  exists w',
    on_session env event w = (Ok tt, w') /\
    console w' = console w /\
    streamServer w' = streamServer w /\
    calls w' = calls w /\
    reads w' = S (reads w).
Proof.
  intros Hnd Hold.
  assert (Hdel : is_deleted (type event) = false)
    by (destruct (type event); [reflexivity..|contradiction]).
  rewrite (on_session_dropped env event w Hold Hdel).
  eexists. repeat split.
Qed.

Lemma dropped_event_is_silent_witness :
  type (mkEvent updated session_old) <> deleted /\
  within_max_age ∅ (clock (sample_world 1) (reads (sample_world 1))) session_old
    = false /\
  exists w',
    on_session (H:=sample_collaborators) ∅ (mkEvent updated session_old)
               (sample_world 1) = (Ok tt, w') /\
    console w' = [] /\ calls w' = [].
Proof.
  split; [discriminate|]. split; [reflexivity|].
  destruct (dropped_event_is_silent (H:=sample_collaborators) ∅
              (mkEvent updated session_old) (sample_world 1))
    as (w' & Hrun & Hconsole & _ & Hcalls & _); [discriminate|reflexivity|].
  exists w'. auto.
Defined.

(** ** The directory name of the log line *)

Definition has_char (c : ascii) (s : string) : Prop :=
  In c (list_ascii_of_string s).

Lemma split_last (sep : ascii) (s : string) :
  exists init seg,
    split sep s = init ++ [seg] /\
    ~ has_char sep seg /\
    (init = [] -> s = seg) /\
    (init <> [] -> exists parent, s = parent +:+ String sep seg).
Proof.
  induction s as [|c s (init & seg & Hsplit & Hfree & Hwhole & Hparent)]; cbn.
  - exists [], EmptyString. repeat split; tauto.
  - destruct (Ascii.eqb_spec c sep) as [->|Hne].
    + exists (EmptyString :: init), seg. rewrite Hsplit.
      split; [reflexivity|]. split; [exact Hfree|]. split; [discriminate|].
      intros _. destruct init as [|seg0 init].
      * exists EmptyString. rewrite (Hwhole eq_refl). reflexivity.
      * destruct Hparent as [parent ->]; [discriminate|].
        exists (String sep parent). reflexivity.
    + rewrite Hsplit. destruct init as [|seg0 init]; cbn.
      * exists [], (String c seg). split; [reflexivity|]. split.
        -- unfold has_char. cbn. intros [Heq|Hin]; [congruence | exact (Hfree Hin)].
        -- split; [|tauto]. intros _. rewrite (Hwhole eq_refl). reflexivity.
      * exists (String c seg0 :: init), seg. split; [reflexivity|].
        split; [exact Hfree|]. split; [discriminate|].
        intros _. destruct Hparent as [parent ->]; [discriminate|].
        exists (String c parent). reflexivity.
Qed.

(** X4: the directory name shown in the log line is either the whole [cwd]
    (as for a [cwd] without a slash, or one that ends with a slash) or
    what follows the last slash of [cwd]: not empty and free of slashes. *)
Theorem dirName_last_segment (s : SessionState) :
  dirName s = cwd s \/
  (dirName s <> EmptyString /\
   ~ has_char "/"%char (dirName s) /\
   exists parent, cwd s = parent +:+ String "/"%char (dirName s)).
Proof.
  unfold dirName.
  destruct (split_last "/"%char (cwd s)) as (init & seg & -> & Hfree & Hwhole & Hparent).
  rewrite last_last. unfold str_or.
  destruct (String.eqb_spec seg EmptyString) as [->|Hne]; [left; reflexivity|].
  destruct init as [|seg0 init].
  - left. symmetry. apply Hwhole. reflexivity.
  - right. split; [exact Hne|]. split; [exact Hfree|].
    apply Hparent. discriminate.
Qed.

Example dirName_samples :
  map (fun path => dirName (mkSession "id" path None None None
                              (mkStatus idle 0 0 false) "g" "s"))
      ["/home/dev/app"; "/home/dev/app/"; "app"; EmptyString; "/"]
    = ["app"; "/home/dev/app/"; "app"; EmptyString; "/"].
Proof. reflexivity. Qed.

End IndexMore.

(* ===================================================================== *)
(** * Facts about the dashboard helpers *)
(* ===================================================================== *)

Module UIFacts.
Import JS JSFacts UI.











Section Scores.
Context `{MathLib}.




End Scores.







(** ** Sample data *)

(** A stand-in for [Math.pow]: the power at the integer part of the
    exponent. *)
Definition sample_math : MathLib :=
  {| Math_pow := fun b e => Qpower b (Qfloor e) |}.

Definition minute : Z := 60 * 1000.

Definition sample_now : Z := 1700000000000.

Definition sample_session (name : string) (repo : option string)
    (st : SessionStatus) (age : Z) (pending : bool) : Session :=
  mkSession name "/work" None None repo "prompt" st (sample_now - age) 3
            pending None "goal" "summary" [] None.

Definition sample_sessions : list Session :=
  [sample_session "s2" None waiting (30 * minute) true;
   sample_session "s1" (Some "acme/web") working 0 false;
   sample_session "s3" (Some "acme/web") idle (60 * minute) false;
   sample_session "s4" (Some "zeta/api") working 0 true].

Definition sample_clock : Clock := mkClock (fun _ => sample_now) 0.

(** ** Properties of the specification *)

(** C8: [getEffectiveStatus] answers [idle] whenever more than 3,600,000
    milliseconds have passed since [lastActivityAt], whatever the stored
    status (so also for a stored [working] or [waiting]), and the stored
    status otherwise. *)
Theorem effective_status_after_one_hour (session : Session) (c : Clock) :
  let elapsed := clock c (reads c) - lastActivityAt session in
  (3600000 < elapsed -> (getEffectiveStatus session c).1 = Ok idle) /\
  (elapsed <= 3600000 -> (getEffectiveStatus session c).1 = Ok (status session)).
Proof.
  cbn zeta. unfold getEffectiveStatus, bind, Date_now, IDLE_TIMEOUT_MS, Date_getTime.
  cbn [fst]. change (60 * 60 * 1000) with 3600000.
  destruct (Z.ltb_spec 3600000 (clock c (reads c) - lastActivityAt session));
    split; intros; try lia; reflexivity.
Qed.


Example groups_sample :
  let out := match (groupSessionsByRepo (H:=sample_math) sample_sessions
                      sample_clock).1 with
             | Ok groups => groups
             | Throw _ => []
             end in
  map repoId out = ["zeta/api"; "acme/web"; "Other"] /\
  map (fun g => map sessionId (sessions g)) out = [["s4"]; ["s1"; "s3"]; ["s2"]] /\
  map repoUrl out = [Some "https://github.com/zeta/api";
                     Some "https://github.com/acme/web"; None] /\
  map (fun g => Qred (activityScore g)) out = [130; 401 # 4; 40]%Q.
Proof. vm_compute. repeat split. Qed.

(** A session that reports [working] is shown idle after more than an
    hour, and as stored up to the hour. *)
Example stale_working_session :
  (getEffectiveStatus (sample_session "s" None working (60 * minute + 1) false)
                      sample_clock).1 = Ok idle /\
  (getEffectiveStatus (sample_session "s" None working (60 * minute) false)
                      sample_clock).1 = Ok working.
Proof. split; reflexivity. Qed.

End UIFacts.

(* ===================================================================== *)
(** * Further properties of the dashboard helpers *)
(* ===================================================================== *)

Module UIMore.
Import JS JSFacts JSMore UI UIFacts.

(** ** The list of sessions of [useSessions] *)




(** ** The activity score *)

Section Score.
Context `{MathLib}.

(** What one session adds to the score of its group at the instant [now]. *)
Definition contribution (now : Z) (s : Session) : Q :=
  ((if hasPendingToolUse s
    then STATUS_WEIGHTS (status s) + PENDING_TOOL_BONUS
    else STATUS_WEIGHTS (status s))
   * Math_pow (1 # 2) (inject_Z (now - lastActivityAt s) / (1000 * 60) / 30))%Q.

(** The score [calculateRepoActivityScore] returns. *)
Definition score_of (c : Clock) (l : list Session) : Q :=
  match (calculateRepoActivityScore l c).1 with
  | Ok score => score
  | Throw _ => 0
  end.

Definition add_contribution (now : Z) (score : Q) (s : Session) : Q :=
  (score + contribution now s)%Q.

Lemma score_of_fold (c : Clock) (l : list Session) :
  score_of c l = fold_left (add_contribution (clock c (reads c))) l 0%Q.
Proof. reflexivity. Qed.

Lemma fold_contribution (now : Z) (l : list Session) (a : Q) :
  (fold_left (add_contribution now) l a
   == a + fold_left (add_contribution now) l 0)%Q.
Proof.
  revert a. induction l as [|s l IH]; intros a; cbn.
  - ring.
  - rewrite (IH (add_contribution now a s)), (IH (add_contribution now 0 s)).
    unfold add_contribution. ring.
Qed.

Lemma score_single (c : Clock) (s : Session) :
  (score_of c [s] == contribution (clock c (reads c)) s)%Q.
Proof. rewrite score_of_fold. cbn. unfold add_contribution. ring. Qed.

Lemma score_app (c : Clock) (l1 l2 : list Session) :
  (score_of c (l1 ++ l2) == score_of c l1 + score_of c l2)%Q.
Proof. rewrite !score_of_fold, fold_left_app. apply fold_contribution. Qed.

(** X6: when [Math.pow(0.5, x)] is never negative, neither is a score, and
    putting a session more into a group does not lower its score. *)
Theorem activity_score_grows (c : Clock) (l : list Session) (s : Session) :
  (forall x, 0 <= Math_pow (1 # 2) x)%Q ->
  (0 <= score_of c l)%Q /\ (score_of c l <= score_of c (l ++ [s]))%Q.
Proof.
  intros Hpow.
  assert (Hcontribution : forall now x, (0 <= contribution now x)%Q).
  { intros now x. unfold contribution. apply Qmult_le_0_compat; [|apply Hpow].
    unfold PENDING_TOOL_BONUS.
    destruct (hasPendingToolUse x), (status x); cbn; discriminate. }
  assert (Hnonneg : forall l', (0 <= score_of c l')%Q).
  { intros l'. rewrite score_of_fold.
    induction l' as [|x l' IH] using rev_ind; [discriminate|].
    rewrite fold_left_app. cbn. unfold add_contribution at 1.
    pose proof (Hcontribution (clock c (reads c)) x). lra. }
  split; [apply Hnonneg|].
  rewrite (score_app c l [s]), (score_single c s).
  pose proof (Hcontribution (clock c (reads c)) s). lra.
Qed.

End Score.

Lemma activity_score_grows_witness :
  (forall x, 0 <= @Math_pow sample_math (1 # 2) x)%Q /\
  (0 <= @score_of sample_math sample_clock sample_sessions)%Q /\
  (@score_of sample_math sample_clock sample_sessions
   <= @score_of sample_math sample_clock
        (sample_sessions ++ [sample_session "s9" None working 0 false]))%Q.
Proof.
  assert (Hpow : forall x, (0 <= @Math_pow sample_math (1 # 2) x)%Q).
  { intros x. cbn. apply Qpower_0_le. discriminate. }
  split; [exact Hpow|].
  exact (@activity_score_grows sample_math sample_clock sample_sessions
           (sample_session "s9" None working 0 false) Hpow).
Defined.

(** ** Sections and the page *)

(** The status [getEffectiveStatus] gives at the instant [now]. *)
Definition effective (now : Z) (s : Session) : SessionStatus :=
  if 3600000 <? now - lastActivityAt s then idle else status s.

Definition active (now : Z) (s : Session) : bool :=
  negb (status_eqb (effective now s) idle).

(** The clock reads [now] at every reading: the page is rendered within
    one millisecond. *)
Definition steady (clk : nat -> Z) (now : Z) : Prop := forall k, clk k = now.

(** The sessions a rendered section shows, column after column. *)
Definition shown (r : option Box) : list Session :=
  match r with
  | Some box => concat (map column_sessions (columns box))
  | None => []
  end.


Lemma getEffectiveStatus_steady (c : Clock) (now : Z) (s : Session) :
  steady (clock c) now ->
  getEffectiveStatus s c = (Ok (effective now s), mkClock (clock c) (S (reads c))).
Proof.
  intros Hnow. unfold getEffectiveStatus, bind, Date_now, effective.
  rewrite (Hnow (reads c)). unfold IDLE_TIMEOUT_MS, Date_getTime.
  change (60 * 60 * 1000) with 3600000.
  destruct (3600000 <? now - lastActivityAt s); reflexivity.
Qed.

Lemma filter_by_status (p : SessionStatus -> Session -> bool)
    (l : list Session) (c : Clock) (now : Z) :
  steady (clock c) now ->
  Array_filter (fun s => bind (getEffectiveStatus s) (fun st => ret (p st s))) l c
    = (Ok (List.filter (fun s => p (effective now s) s) l),
       mkClock (clock c) (reads c + length l)).
Proof.
  intros Hnow. revert c Hnow.
  induction l as [|s l IH]; intros c Hnow; cbn [Array_filter List.filter length].
  - unfold ret. rewrite Nat.add_0_r. destruct c; reflexivity.
  - unfold bind at 1. unfold bind at 1.
    rewrite (getEffectiveStatus_steady c now s Hnow). unfold ret at 1.
    unfold bind at 1. rewrite IH by exact Hnow. cbn [clock reads].
    rewrite Nat.add_succ_r. destruct (p (effective now s) s); reflexivity.
Qed.


(** The three columns share out the active sessions. *)
Lemma columns_partition (now : Z) (l : list Session) :
  List.filter (fun s => status_eqb (effective now s) working) l ++
  List.filter (fun s => status_eqb (effective now s) waiting
                        && hasPendingToolUse s) l ++
  List.filter (fun s => status_eqb (effective now s) waiting
                        && negb (hasPendingToolUse s)) l
  ≡ₚ List.filter (active now) l.
Proof.
  induction l as [|s l IH]; cbn [List.filter]; [reflexivity|].
  unfold active at 1.
  destruct (effective now s), (hasPendingToolUse s); cbn;
    rewrite <- ?IH; try reflexivity.
  - rewrite <- Permutation_middle. reflexivity.
  - rewrite app_assoc, <- Permutation_middle, <- app_assoc. reflexivity.
Qed.

Lemma filter_nil_iff {A} (f : A -> bool) (l : list A) :
  List.filter f l = [] <-> forall x, x ∈ l -> f x = false.
Proof.
  induction l as [|a l IH]; cbn.
  - split; [intros _ x Hx; inversion Hx | reflexivity].
  - destruct (f a) eqn:Hfa; split.
    + discriminate.
    + intros Hall. rewrite (Hall a) in Hfa by apply list_elem_of_here.
      discriminate.
    + intros Hnil x Hx. apply elem_of_cons in Hx as [->|Hx]; [exact Hfa|].
      apply IH; assumption.
    + intros Hall. apply IH. intros x Hx. apply Hall, list_elem_of_further, Hx.
Qed.

Lemma RepoSection_run (name : string) (link : option string)
    (l : list Session) (score : Q) (c : Clock) (now : Z) :
  steady (clock c) now ->
  exists r c',
    RepoSection name link l score c = (Ok r, c') /\
    clock c' = clock c /\
    (r = None <-> List.filter (active now) l = []) /\
    shown r ≡ₚ List.filter (active now) l /\
    (forall box, r = Some box ->
       heading box =
         (if String.eqb name "Other" then HeadingOther
          else match link with
               | Some href =>
                   if String.eqb href EmptyString then HeadingPlain name
                   else HeadingLink href name
               | None => HeadingPlain name
               end) /\
       map column_title (columns box) = ["Working"; "Needs Approval"; "Waiting"] /\
       map column_sessions (columns box) =
         [List.filter (fun s => status_eqb (effective now s) working) l;
          List.filter (fun s => status_eqb (effective now s) waiting
                                && hasPendingToolUse s) l;
          List.filter (fun s => status_eqb (effective now s) waiting
                                && negb (hasPendingToolUse s)) l]).
Proof.
  intros Hnow. destruct c as [clk k]. cbn [clock] in Hnow. unfold RepoSection.
  unfold bind at 1.
  rewrite (filter_by_status (fun st _ => status_eqb st working) l
             (mkClock clk k) now Hnow).
  unfold bind at 1.
  rewrite (filter_by_status
             (fun st s => status_eqb st waiting && hasPendingToolUse s) l
             (mkClock clk _) now Hnow).
  unfold bind at 1.
  rewrite (filter_by_status
             (fun st s => status_eqb st waiting && negb (hasPendingToolUse s))
             l (mkClock clk _) now Hnow).
  cbn [clock reads].
  pose proof (columns_partition now l) as Hpart.
  set (ws := List.filter (fun s => status_eqb (effective now s) working) l) in *.
  set (ns := List.filter (fun s => status_eqb (effective now s) waiting
                                   && hasPendingToolUse s) l) in *.
  set (ts := List.filter (fun s => status_eqb (effective now s) waiting
                                   && negb (hasPendingToolUse s)) l) in *.
  destruct ws as [|w0 ws]; [destruct ns as [|n0 ns]; [destruct ts as [|t0 ts]|]|];
    cbn [length Nat.ltb Nat.leb orb negb]; unfold ret;
    eexists _, _; (split; [reflexivity|]); (split; [reflexivity|]).
  - cbn in Hpart. apply Permutation_nil in Hpart. rewrite Hpart.
    split; [tauto|]. split; [reflexivity|]. discriminate.
  - split.
    + split; [discriminate|]. intros Hnil. rewrite Hnil in Hpart.
      apply Permutation_sym, Permutation_nil in Hpart. discriminate.
    + split; [cbn; rewrite app_nil_r; exact Hpart|].
      intros box Hbox. injection Hbox as <-. repeat split.
  - split.
    + split; [discriminate|]. intros Hnil. rewrite Hnil in Hpart.
      apply Permutation_sym, Permutation_nil in Hpart. discriminate.
    + split; [cbn; rewrite app_nil_r; exact Hpart|].
      intros box Hbox. injection Hbox as <-. repeat split.
  - split.
    + split; [discriminate|]. intros Hnil. rewrite Hnil in Hpart.
      apply Permutation_sym, Permutation_nil in Hpart. discriminate.
    + split; [cbn; rewrite app_nil_r; exact Hpart|].
      intros box Hbox. injection Hbox as <-. repeat split.
Qed.

Lemma filter_concat {A} (f : A -> bool) (ls : list (list A)) :
  List.filter f (concat ls) = concat (map (List.filter f) ls).
Proof.
  induction ls as [|l ls IH]; cbn; [reflexivity|].
  rewrite List.filter_app, IH. reflexivity.
Qed.







(** X7: a section of the page shows its sessions in three columns: those
    that are working, those waiting with a pending tool use, and those
    waiting without one, each in the order of the sessions given, with the
    status [getEffectiveStatus] gives at the time of rendering. Together
    they are the sessions that are not idle then, and there is no section
    at all exactly when there is none of these. *)
Theorem repo_section_columns (name : string) (link : option string)
    (l : list Session) (score : Q) (c : Clock) (now : Z) :
  steady (clock c) now ->
  exists r c',
    RepoSection name link l score c = (Ok r, c') /\
    (r = None <-> forall s, s ∈ l -> effective now s = idle) /\
    shown r ≡ₚ List.filter (active now) l /\
    (forall box, r = Some box ->
       map column_title (columns box) = ["Working"; "Needs Approval"; "Waiting"] /\
       map column_sessions (columns box) =
         [List.filter (fun s => status_eqb (effective now s) working) l;
          List.filter (fun s => status_eqb (effective now s) waiting
                                && hasPendingToolUse s) l;
          List.filter (fun s => status_eqb (effective now s) waiting
                                && negb (hasPendingToolUse s)) l]).
Proof.
  intros Hnow.
  destruct (RepoSection_run name link l score c now Hnow)
    as (r & c' & Hrun & _ & Hnone & Hshown & Hbox).
  exists r, c'. split; [exact Hrun|]. split; [|split; [exact Hshown|]].
  - rewrite Hnone, filter_nil_iff. split; intros Hall s Hs.
    + specialize (Hall s Hs). unfold active in Hall.
      destruct (effective now s); [discriminate.. | reflexivity].
    + unfold active. rewrite (Hall s Hs). reflexivity.
  - intros box Hr. exact (proj2 (Hbox box Hr)).
Qed.

Lemma repo_section_columns_witness :
  steady (clock sample_clock) sample_now /\
  exists r c',
    RepoSection "Other" None sample_sessions 0 sample_clock = (Ok r, c') /\
    (r = None <-> forall s, s ∈ sample_sessions -> effective sample_now s = idle) /\
    shown r ≡ₚ List.filter (active sample_now) sample_sessions /\
    (forall box, r = Some box ->
       map column_title (columns box) = ["Working"; "Needs Approval"; "Waiting"] /\
       map column_sessions (columns box) =
         [List.filter (fun s => status_eqb (effective sample_now s) working)
            sample_sessions;
          List.filter (fun s => status_eqb (effective sample_now s) waiting
                                && hasPendingToolUse s) sample_sessions;
          List.filter (fun s => status_eqb (effective sample_now s) waiting
                                && negb (hasPendingToolUse s)) sample_sessions]).
Proof.
  assert (Hnow : steady (clock sample_clock) sample_now) by (intros k; reflexivity).
  split; [exact Hnow|].
  exact (repo_section_columns "Other" None sample_sessions 0 sample_clock
           sample_now Hnow).
Defined.



End UIMore.

(* ===================================================================== *)
(** * Facts about the API server *)
(* ===================================================================== *)

Module ApiFacts.
Import JS JSFacts Api.

(** ** Actions that leave the loops alone *)

Section Frames.
Context {E : Type}.

(** Whatever its completion, the action changes neither the loop objects
    nor their registration. *)
Definition frame {A} (m : M (World E) A) : Prop :=
  forall w, heap (m w).2 = heap w /\ activeLoops (m w).2 = activeLoops w /\
            next_ref (m w).2 = next_ref w.

Lemma frame_ret {A} (a : A) : frame (ret a).
Proof. intros w. repeat split. Qed.

Lemma frame_throw {A} (e : JsError) : frame (@throw (World E) A e).
Proof. intros w. repeat split. Qed.

Lemma frame_pure {A} (r : result A) : frame (fun w : World E => (r, w)).
Proof. intros w. repeat split. Qed.

Lemma frame_bind {A B} (m : M (World E) A) (k : A -> M (World E) B) :
  frame m -> (forall a, frame (k a)) -> frame (bind m k).
Proof.
  intros Hm Hk w. unfold bind.
  destruct (Hm w) as (Hh & Ha & Hn).
  destruct (m w) as [[a|e] w1]; cbn [snd] in *.
  - destruct (Hk a w1) as (Hh' & Ha' & Hn'). repeat split; congruence.
  - auto.
Qed.

Lemma frame_try_catch {A} (m : M (World E) A) (h : JsError -> M (World E) A) :
  frame m -> (forall e, frame (h e)) -> frame (try_catch m h).
Proof.
  intros Hm Hh w. unfold try_catch.
  destruct (Hm w) as (Hh1 & Ha & Hn).
  destruct (m w) as [[a|e] w1]; cbn [snd] in *.
  - auto.
  - destruct (Hh e w1) as (Hh' & Ha' & Hn'). repeat split; congruence.
Qed.

Lemma frame_emit (e : Effect) : frame (emit e : M (World E) unit).
Proof. intros w. repeat split. Qed.

Lemma frame_log (tag message : string) :
  frame (log tag message : M (World E) unit).
Proof. apply frame_emit. Qed.

Lemma frame_Date_now : frame (Date_now : M (World E) Z).
Proof. intros w. repeat split. Qed.

Lemma frame_on_ext {A} (m : M E A) : frame (on_ext m).
Proof. intros w. unfold on_ext. destruct (m (ext w)). repeat split. Qed.

Lemma frame_start (api : ApiServer E) (listened : result unit) :
  frame (start api listened).
Proof.
  unfold start. apply frame_bind; [intros w; repeat split|]. intros _.
  apply frame_bind; [apply frame_emit|]. intros _.
  destruct listened; [apply frame_log|].
  apply frame_bind; [apply frame_log | intros _; apply frame_throw].
Qed.

End Frames.

Create HintDb frames.

#[local] Hint Resolve frame_ret frame_throw frame_pure frame_emit frame_log
  frame_Date_now frame_on_ext : frames.

Ltac frame_step :=
  first
    [ apply frame_bind; [|intros ?]
    | apply frame_try_catch; [|intros ?]
    | solve [auto with frames]
    | match goal with
      | |- frame (match ?x with _ => _ end) => destruct x
      | |- frame (if ?b then _ else _) => destruct b
      end ].

Section PlainHandlers.
Context `{Host} {E : Type}.
Variable api : ApiServer E.

Lemma frame_handleCreatePlan req res : frame (handleCreatePlan api req res).
Proof. unfold handleCreatePlan. repeat frame_step. Qed.

Lemma frame_handleSavePlan req res : frame (handleSavePlan api req res).
Proof. unfold handleSavePlan. repeat frame_step. Qed.

Lemma frame_handleLoopStatus res : frame (E:=E) (handleLoopStatus res).
Proof. intros w. repeat split. Qed.

Lemma frame_handleClearSessions res : frame (handleClearSessions api res).
Proof. unfold handleClearSessions. repeat frame_step. Qed.

End PlainHandlers.

(** ** The runs of [runIterations] *)

Ltac world_simpl :=
  cbn [heap activeLoops next_ref server awaiting spawned spawn_error clock
       reads trace ext set_heap set_trace set_awaiting set_spawned set_reads
       set_server set_activeLoops set_next_ref set_ext fst snd] in *.

(** The loop object behind [ref] becomes [l']; the other objects and the
    registration stay. *)
Definition touches {E} (ref : nat) (l' : LoopProcess) (w w' : World E) : Prop :=
  heap w' !! ref = Some l' /\
  (forall r, r <> ref -> heap w' !! r = heap w !! r) /\
  activeLoops w' = activeLoops w /\
  next_ref w' = next_ref w.

(** The bounds of a loop, and the loop invariant proper: a running loop
    has a child process. *)
Definition core (l : LoopProcess) : Prop :=
  (1 <= iterations l)%Q /\ (inject_Z (currentIteration l) <= iterations l)%Q.

Definition good (l : LoopProcess) : Prop :=
  core l /\ (status l = running -> is_Some (process l)).

(** What a run of the server may do to a loop object: its bound and its
    name stay, and once it is not running no iteration is started on it. *)
Definition settled (l l' : LoopProcess) : Prop :=
  status l <> running ->
  currentIteration l' = currentIteration l /\ process l' = process l /\
  status l' <> running.

Definition evolves (l l' : LoopProcess) : Prop :=
  iterations l' = iterations l /\ (core l -> good l') /\ settled l l'.

Definition keeps (l l' : LoopProcess) : Prop :=
  iterations l' = iterations l /\ (good l -> good l') /\ settled l l'.

Lemma evolves_keeps l l' : evolves l l' -> keeps l l'.
Proof.
  intros (Hi & Hg & Hs). split; [exact Hi|]. split; [|exact Hs].
  intros [Hcore _]. auto.
Qed.

Lemma keeps_refl l : keeps l l.
Proof. split; [reflexivity|]. split; [auto|]. intros Hnot. auto. Qed.

(** ** The invariant of the server *)

(** References are allocated in order, registered loops exist, and every
    loop object is [good]. *)
Record wf {E} (w : World E) : Prop := mkWf {
  wf_bound : forall ref l, heap w !! ref = Some l -> (ref < next_ref w)%nat;
  wf_registered :
    forall id ref, (id, ref) ∈ activeLoops w -> is_Some (heap w !! ref);
  wf_good : forall ref l, heap w !! ref = Some l -> good l
}.

(** What handling one event may do to the loops. *)
Definition advance {E} (w w' : World E) : Prop :=
  (next_ref w <= next_ref w')%nat /\
  (forall ref l, heap w !! ref = Some l ->
     exists l', heap w' !! ref = Some l' /\ keeps l l') /\
  (forall ref l', heap w' !! ref = Some l' -> heap w !! ref = None ->
     (next_ref w <= ref < next_ref w')%nat /\ good l') /\
  (forall id ref, (id, ref) ∈ activeLoops w' ->
     (id, ref) ∈ activeLoops w \/ is_Some (heap w' !! ref)).

Lemma advance_wf {E} (w w' : World E) : wf w -> advance w w' -> wf w'.
Proof.
  intros [Hb Hr Hg] (Hn & Hold & Hnew & Hreg). split.
  - intros ref l' Hl'. destruct (heap w !! ref) as [l|] eqn:Hl.
    + specialize (Hb ref l Hl). lia.
    + destruct (Hnew ref l' Hl' Hl). lia.
  - intros id ref Hin. destruct (Hreg id ref Hin) as [Hin'|Hsome]; [|exact Hsome].
    destruct (Hr id ref Hin') as [l Hl].
    destruct (Hold ref l Hl) as (l' & Hl' & _). eauto.
  - intros ref l' Hl'. destruct (heap w !! ref) as [l|] eqn:Hl.
    + destruct (Hold ref l Hl) as (l'' & Hl'' & _ & Hkeep & _).
      rewrite Hl' in Hl''. injection Hl'' as <-. apply Hkeep, (Hg ref l Hl).
    + apply (Hnew ref l' Hl' Hl).
Qed.

Lemma advance_same {E} (w w' : World E) :
  heap w' = heap w -> activeLoops w' = activeLoops w -> next_ref w' = next_ref w ->
  advance w w'.
Proof.
  intros Hh Ha Hn. unfold advance. rewrite Hh, Ha, Hn.
  split; [lia|]. split; [|split].
  - intros ref l Hl. exists l. split; [exact Hl | apply keeps_refl].
  - intros ref l' Hl' Hnone. congruence.
  - auto.
Qed.

Lemma advance_then_same {E} (w w1 w2 : World E) :
  advance w w1 ->
  heap w2 = heap w1 -> activeLoops w2 = activeLoops w1 -> next_ref w2 = next_ref w1 ->
  advance w w2.
Proof.
  intros Hadv Hh Ha Hn. unfold advance in *. rewrite Hh, Ha, Hn. exact Hadv.
Qed.

Lemma advance_touches {E} ref l l' (w w' : World E) :
  heap w !! ref = Some l -> touches ref l' w w' -> keeps l l' -> advance w w'.
Proof.
  intros Hl (Hl' & Hother & Ha & Hn) Hkeep. unfold advance. rewrite Ha, Hn.
  split; [lia|]. split; [|split].
  - intros r l0 Hl0. destruct (decide (r = ref)) as [->|Hne].
    + exists l'. split; [exact Hl'|]. congruence.
    + exists l0. rewrite (Hother r Hne). split; [exact Hl0 | apply keeps_refl].
  - intros r l0 Hl0 Hnone. destruct (decide (r = ref)) as [->|Hne]; [congruence|].
    rewrite (Hother r Hne) in Hl0. congruence.
  - auto.
Qed.

Section Runs.
Context `{Host} {E : Type}.
Implicit Types (w : World E) (l : LoopProcess).

Lemma update_loop_run ref (f : LoopProcess -> LoopProcess) w l :
  heap w !! ref = Some l ->
  update_loop ref f w = (Ok tt, set_heap (<[ref := f l]> (heap w)) w).
Proof.
  intros Hl. unfold update_loop, modify. do 2 f_equal.
  apply map_eq. intros j. rewrite lookup_alter, lookup_insert.
  case_decide; subst; rewrite ?Hl; reflexivity.
Qed.

Lemma touches_insert ref l' w w' :
  heap w' = <[ref := l']> (heap w) ->
  activeLoops w' = activeLoops w -> next_ref w' = next_ref w ->
  touches ref l' w w'.
Proof.
  intros Hh Ha Hn. unfold touches. rewrite Hh, lookup_insert_eq.
  repeat split; try assumption.
  intros r Hr. rewrite lookup_insert_ne by congruence. reflexivity.
Qed.

Lemma runIterations_end_run ref w l :
  heap w !! ref = Some l ->
  exists w',
    runIterations_end ref w = (Ok tt, w') /\
    touches ref (set_status (if is_running (status l) then completed
                             else status l) l) w w'.
Proof.
  intros Hl. unfold runIterations_end. rewrite Hl. unfold bind.
  rewrite (update_loop_run _ _ _ _ Hl). unfold log, emit, modify.
  eexists. split; [reflexivity|]. apply touches_insert; reflexivity.
Qed.

Lemma iteration_failed_run ref i error w l :
  heap w !! ref = Some l ->
  exists w' out,
    iteration_failed ref i error w = (Ok tt, w') /\
    touches ref (mkLoop (id l) (process l) (iterations l) (currentIteration l)
                        failed out (startedAt l)) w w'.
Proof.
  intros Hl. unfold iteration_failed. rewrite Hl. unfold bind at 1.
  unfold log at 1, emit, modify. unfold bind at 1.
  erewrite update_loop_run by (world_simpl; exact Hl).
  unfold bind at 1.
  erewrite update_loop_run by (world_simpl; apply lookup_insert_eq).
  match goal with |- context [runIterations_end ref ?w1] =>
    destruct (runIterations_end_run ref w1 (set_status failed (push_output
                ("Error in iteration " +:+ pretty i +:+ ": " +:+
                 String_of_error error) l)))
      as (w' & Hrun & Hlook & Hother & Ha & Hn);
      [world_simpl; apply lookup_insert_eq|]
  end.
  rewrite Hrun. exists w', (output l ++ ["Error in iteration " +:+ pretty i +:+
                                        ": " +:+ String_of_error error]).
  split; [reflexivity|]. world_simpl. repeat split; try assumption.
  intros r Hr. rewrite (Hother r Hr), !lookup_insert_ne by congruence.
  reflexivity.
Qed.

Lemma touches_trans ref l1 l2 w w1 w2 :
  touches ref l1 w w1 -> touches ref l2 w1 w2 -> touches ref l2 w w2.
Proof.
  intros (_ & Ho1 & Ha1 & Hn1) (Hl2 & Ho2 & Ha2 & Hn2).
  repeat split; try congruence.
  intros r Hr. rewrite (Ho2 r Hr). apply Ho1, Hr.
Qed.

Lemma runIterations_from_run ref wd i w l :
  heap w !! ref = Some l ->
  exists w' l',
    runIterations_from ref wd i w = (Ok tt, w') /\
    touches ref l' w w' /\ evolves l l'.
Proof.
  intros Hl. unfold runIterations_from. rewrite Hl.
  destruct (Qle_bool (inject_Z i) (iterations l)) eqn:Hle.
  - apply Qle_bool_iff in Hle.
    destruct (is_running (status l)) eqn:Hrun.
    + unfold bind at 1. rewrite (update_loop_run _ _ _ _ Hl).
      unfold bind at 1, log at 1, emit, modify.
      unfold try_catch, bind at 1, spawn. world_simpl.
      destruct (spawn_error w (spawned w)) as [error|].
      * match goal with |- context [iteration_failed ref i error ?w1] =>
          destruct (iteration_failed_run ref i error w1 (set_currentIteration i l))
            as (w' & out & Hfail & Hlook & Hother & Ha & Hn);
            [world_simpl; apply lookup_insert_eq|]
        end.
        rewrite Hfail. eexists w', _. split; [reflexivity|]. split.
        -- world_simpl. repeat split; [exact Hlook| |exact Ha|exact Hn].
           intros r Hr. rewrite (Hother r Hr), lookup_insert_ne by congruence.
           reflexivity.
        -- split; [reflexivity|]. split.
           ++ intros [Hone _]. repeat split; cbn; try assumption. discriminate.
           ++ intros Hnot. destruct (status l); [contradiction|discriminate..].
      * unfold bind at 1.
        erewrite update_loop_run by (world_simpl; apply lookup_insert_eq).
        eexists _, _. split; [reflexivity|]. split.
        -- world_simpl. apply touches_insert; world_simpl;
             [rewrite insert_insert_eq|..]; reflexivity.
        -- split; [reflexivity|]. split.
           ++ intros [Hone _]. repeat split; cbn; try assumption. eauto.
           ++ intros Hnot. destruct (status l); [contradiction|discriminate..].
    + destruct (runIterations_end_run ref w l Hl) as (w' & Hend & Htouch).
      rewrite Hrun in Htouch. rewrite Hend.
      eexists w', _. split; [reflexivity|]. split; [exact Htouch|].
      split; [reflexivity|]. split.
      * intros Hcore. split; [exact Hcore|]. cbn. intros Hr.
        rewrite Hr in Hrun. discriminate.
      * intros Hnot. cbn. auto.
  - destruct (runIterations_end_run ref w l Hl) as (w' & Hend & Htouch).
    rewrite Hend. eexists w', _. split; [reflexivity|]. split; [exact Htouch|].
    split; [reflexivity|]. split.
    + intros Hcore. split; [exact Hcore|]. cbn. intros Hr.
      destruct (status l); cbn in Hr; discriminate.
    + intros Hnot. cbn. destruct (status l); cbn; auto; contradiction.
Qed.

Lemma runIterations_resume_run a (r : result string) w l :
  heap w !! act_loop a = Some l ->
  exists w' l',
    runIterations_resume a r w = (Ok tt, w') /\
    touches (act_loop a) l' w w' /\ evolves l l'.
Proof.
  intros Hl. unfold runIterations_resume. destruct r as [result|error].
  - unfold bind at 1. rewrite (update_loop_run _ _ _ _ Hl).
    unfold bind at 1.
    erewrite update_loop_run by (world_simpl; apply lookup_insert_eq).
    set (l2 := push_output result
                 (push_output ("=== Iteration " +:+ pretty (act_i a) +:+ " ===") l)).
    set (w2 := set_heap _ (set_heap _ w)).
    assert (Hl2 : heap w2 !! act_loop a = Some l2)
      by (subst w2; world_simpl; apply lookup_insert_eq).
    assert (Htouch2 : touches (act_loop a) l2 w w2).
    { subst w2. apply touches_insert; world_simpl;
        [rewrite insert_insert_eq|..]; reflexivity. }
    destruct (includes "<promise>COMPLETE</promise>" result).
    + rewrite Hl2. unfold bind at 1, log at 1, emit, modify.
      unfold bind at 1.
      erewrite update_loop_run by (world_simpl; exact Hl2).
      match goal with |- context [runIterations_end _ ?w3] =>
        destruct (runIterations_end_run (act_loop a) w3 (set_status completed l2))
          as (w' & Hend & Htouch);
          [world_simpl; apply lookup_insert_eq|]
      end.
      rewrite Hend. eexists w', _. split; [reflexivity|]. split.
      * apply (touches_trans _ l2 _ w w2); [exact Htouch2|].
        destruct Htouch as (Hlook & Hother & Ha & Hn). world_simpl.
        split; [exact Hlook|]. repeat split; try assumption.
        intros r Hr. rewrite (Hother r Hr), lookup_insert_ne by congruence.
        reflexivity.
      * split; [reflexivity|]. split.
        -- intros Hcore. split; [exact Hcore|]. discriminate.
        -- intros Hnot. cbn. repeat split. discriminate.
    + destruct (runIterations_from_run (act_loop a) (act_workDir a) (act_i a + 1)
                  w2 l2 Hl2) as (w' & l' & Hrun & Htouch & Hev).
      rewrite Hrun. exists w', l'. split; [reflexivity|]. split.
      * exact (touches_trans _ _ _ _ _ _ Htouch2 Htouch).
      * exact Hev.
  - destruct (iteration_failed_run (act_loop a) (act_i a) error w l Hl)
      as (w' & out & Hfail & Htouch).
    rewrite Hfail. eexists w', _. split; [reflexivity|]. split; [exact Htouch|].
    split; [reflexivity|]. split.
    + intros Hcore. split; [exact Hcore|]. discriminate.
    + intros Hnot. cbn. repeat split. discriminate.
Qed.

(** *** Cancelling *)

(** The child process to signal when the loop is cancelled. *)
Definition cancelling (l : LoopProcess) : option nat :=
  match process l with
  | Some pid => if is_running (status l) then Some pid else None
  | None => None
  end.

Definition cancelled_loop (l : LoopProcess) : LoopProcess :=
  match cancelling l with
  | Some _ => set_status cancelled l
  | None => l
  end.

Definition cancel_effects (name : string) (o : option LoopProcess) : list Effect :=
  match o ≫= cancelling with
  | Some pid => [EKill pid "SIGTERM"; ELog "API" ("Cancelled loop " +:+ name)]
  | None => []
  end.

Lemma cancel_entry_run (entry : string * nat) w :
  exists w',
    cancel_entry entry w = (Ok tt, w') /\
    heap w' = alter cancelled_loop entry.2 (heap w) /\
    trace w' = trace w ++ cancel_effects entry.1 (heap w !! entry.2) /\
    activeLoops w' = activeLoops w /\ next_ref w' = next_ref w /\
    server w' = server w.
Proof.
  unfold cancel_entry, cancel_effects.
  destruct (heap w !! entry.2) as [l|] eqn:Hl; cbn [mbind option_bind].
  - unfold cancelling.
    destruct (process l) as [pid|] eqn:Hp.
    + destruct (is_running (status l)) eqn:Hr.
      * unfold bind, kill, log, emit, modify, update_loop. world_simpl.
        eexists. split; [reflexivity|]. world_simpl.
        rewrite <- app_assoc. repeat split.
        apply map_eq. intros j. rewrite !lookup_alter.
        case_decide; subst; [|reflexivity]. rewrite Hl. cbn.
        unfold cancelled_loop, cancelling. rewrite Hp, Hr. reflexivity.
      * exists w. rewrite app_nil_r. repeat split.
        apply map_eq. intros j. rewrite lookup_alter.
        case_decide; subst; [|reflexivity]. rewrite Hl. cbn.
        unfold cancelled_loop, cancelling. rewrite Hp, Hr. reflexivity.
    + exists w. rewrite app_nil_r. repeat split.
      apply map_eq. intros j. rewrite lookup_alter.
      case_decide; subst; [|reflexivity]. rewrite Hl. cbn.
      unfold cancelled_loop, cancelling. rewrite Hp. reflexivity.
  - exists w. rewrite app_nil_r. repeat split.
    apply map_eq. intros j. rewrite lookup_alter.
    case_decide; subst; [|reflexivity]. rewrite Hl. reflexivity.
Qed.

Lemma cancelled_loop_keeps l : keeps l (cancelled_loop l).
Proof.
  unfold cancelled_loop, cancelling.
  destruct (process l) as [pid|]; [|apply keeps_refl].
  destruct (is_running (status l)) eqn:Hr; [|apply keeps_refl].
  split; [reflexivity|]. split.
  - intros [Hcore _]. split; [exact Hcore|]. discriminate.
  - intros Hnot. destruct (status l); [contradiction|discriminate..].
Qed.

Lemma advance_alter (f : LoopProcess -> LoopProcess) ref w w' :
  (forall l, keeps l (f l)) ->
  heap w' = alter f ref (heap w) ->
  activeLoops w' = activeLoops w -> next_ref w' = next_ref w ->
  advance w w'.
Proof.
  intros Hf Hh Ha Hn. unfold advance. rewrite Hh, Ha, Hn.
  split; [lia|]. split; [|split].
  - intros r l Hl. rewrite lookup_alter. case_decide; subst.
    + rewrite Hl. cbn. eauto.
    + exists l. split; [exact Hl | apply keeps_refl].
  - intros r l' Hl' Hnone. rewrite lookup_alter in Hl'.
    case_decide; subst; [rewrite Hnone in Hl'; discriminate | congruence].
  - auto.
Qed.

Lemma cancel_entry_advance entry w : advance w (cancel_entry entry w).2.
Proof.
  destruct (cancel_entry_run entry w) as (w' & -> & Hh & _ & Ha & Hn & _).
  exact (advance_alter _ _ _ _ cancelled_loop_keeps Hh Ha Hn).
Qed.

(** A reference without an object: nothing happens to the loops. *)
Lemma update_loop_missing ref (f : LoopProcess -> LoopProcess) w :
  heap w !! ref = None -> update_loop ref f w = (Ok tt, w).
Proof.
  intros Hl. unfold update_loop, modify. f_equal.
  replace (alter f ref (heap w)) with (heap w); [destruct w; reflexivity|].
  apply map_eq. intros j. rewrite lookup_alter.
  case_decide; subst; [rewrite Hl|]; reflexivity.
Qed.

Lemma runIterations_resume_missing a (r : result string) w :
  heap w !! act_loop a = None ->
  runIterations_resume a r w = (Ok tt, w).
Proof.
  intros Hl. unfold runIterations_resume. destruct r as [result|error].
  - unfold bind. rewrite !(update_loop_missing _ _ _ Hl).
    destruct (includes _ result).
    + rewrite Hl. reflexivity.
    + unfold runIterations_from. rewrite Hl. reflexivity.
  - unfold iteration_failed. rewrite Hl. reflexivity.
Qed.

Lemma process_settled_advance pid ev w : advance w (process_settled pid ev w).2.
Proof.
  unfold process_settled.
  destruct (awaiting w !! pid) as [a|]; [|apply advance_same; reflexivity].
  set (w0 := set_awaiting _ w).
  destruct (heap w !! act_loop a) as [l|] eqn:Hl.
  - destruct (runIterations_resume_run a (settle ev) w0 l Hl)
      as (w' & l' & -> & Htouch & Hev).
    exact (advance_touches _ l l' w w' Hl Htouch (evolves_keeps _ _ Hev)).
  - rewrite (runIterations_resume_missing a (settle ev) w0 Hl).
    apply advance_same; reflexivity.
Qed.

Lemma startLoopProcess_advance loopId (its : Q) wd w :
  (1 <= its)%Q ->
  heap w !! next_ref w = None ->
  advance w (startLoopProcess loopId its wd w).2.
Proof.
  intros Hits Hfresh. unfold startLoopProcess, bind at 1, Date_now.
  unfold bind at 1, modify. world_simpl.
  match goal with |- context [runIterations ?ref wd ?w2] =>
    destruct (runIterations_from_run ref wd 1 w2
                (mkLoop loopId None its 0 running []
                        (toISOString (clock w (reads w)))))
      as (w' & l' & Hrun & (Hl' & Hother & Ha & Hn) & _ & Hgood & _);
      [world_simpl; apply lookup_insert_eq|]
  end.
  unfold runIterations. rewrite Hrun. world_simpl.
  assert (Hg : good l').
  { apply Hgood. split; cbn [iterations currentIteration]; [exact Hits|].
    change (inject_Z 0) with 0%Q. lra. }
  unfold advance. rewrite Hn, Ha. split; [lia|]. split; [|split].
  - intros r l Hl. exists l. split; [|apply keeps_refl].
    assert (r <> next_ref w) by congruence.
    rewrite (Hother r), lookup_insert_ne by congruence. exact Hl.
  - intros r l0 Hl0 Hnone. destruct (decide (r = next_ref w)) as [->|Hne].
    + split; [lia|]. congruence.
    + rewrite (Hother r Hne), lookup_insert_ne in Hl0 by congruence. congruence.
  - intros name r Hin. apply elem_of_Map_set in Hin as [Hin|[_ ->]]; eauto.
Qed.

Lemma frame_advance {A} (m : M (World E) A) w : frame m -> advance w (m w).2.
Proof. intros Hm. destruct (Hm w) as (Hh & Ha & Hn). apply advance_same; assumption. Qed.

Lemma try_catch_advance {A} (m : M (World E) A) (h : JsError -> M (World E) A) w :
  advance w (m w).2 -> (forall e, frame (h e)) -> advance w (try_catch m h w).2.
Proof.
  intros Hm Hh. unfold try_catch. destruct (m w) as [[a|e] w1]; [exact Hm|].
  destruct (Hh e w1) as (Hheap & Ha & Hn).
  exact (advance_then_same w w1 _ Hm Hheap Ha Hn).
Qed.

Lemma invalid_iterations_false (q : Q) :
  invalid_iterations (Some q) = false -> (1 <= q)%Q.
Proof.
  cbn. intros Hinv. apply orb_false_iff in Hinv as [_ Hone].
  apply negb_false_iff in Hone. apply Qle_bool_iff. exact Hone.
Qed.


Lemma handleStartLoop_advance (api : ApiServer E) req res w :
  heap w !! next_ref w = None ->
  advance w (handleStartLoop api req res w).2.
Proof.
  intros Hfresh. unfold handleStartLoop, bind at 1.
  destruct (parsed req) as [body|e]; [|apply advance_same; reflexivity].
  destruct (b_iterations body) as [its|]; [|apply advance_same; reflexivity].
  destruct (invalid_iterations (Some its)) eqn:Hinv;
    [apply advance_same; reflexivity|].
  apply invalid_iterations_false in Hinv.
  unfold bind at 1, Date_now. unfold bind at 1, log, emit, modify.
  unfold bind at 1. world_simpl.
  match goal with |- context [startLoopProcess ?name ?q ?wd ?w1] =>
    pose proof (startLoopProcess_advance name q wd w1 Hinv Hfresh) as Hadv;
    destruct (startLoopProcess name q wd w1) as [[[]|e] w']
  end; exact Hadv.
Qed.

Lemma handleCancelLoop_advance req res w :
  advance w (handleCancelLoop req res w).2.
Proof.
  unfold handleCancelLoop, bind at 1.
  destruct (parsed req) as [body|e]; [|apply advance_same; reflexivity].
  destruct (b_loopId body) as [loopId|]; [|apply advance_same; reflexivity].
  destruct (String.eqb loopId EmptyString); [apply advance_same; reflexivity|].
  destruct (Map_get (activeLoops w) loopId) as [ref|];
    [|apply advance_same; reflexivity].
  unfold bind.
  pose proof (cancel_entry_advance (loopId, ref) w) as Hadv.
  destruct (cancel_entry (loopId, ref) w) as [[[]|e] w']; exact Hadv.
Qed.

Lemma handleRequest_advance (api : ApiServer E) req res w :
  heap w !! next_ref w = None ->
  advance w (handleRequest api req res w).2.
Proof.
  intros Hfresh. unfold handleRequest.
  destruct (String.eqb (method req) "OPTIONS"); [apply advance_same; reflexivity|].
  unfold bind at 1.
  destruct (URL_pathname (default "/" (url req))) as [path|e];
    [|apply advance_same; reflexivity].
  apply try_catch_advance; [|intros e; repeat frame_step].
  repeat match goal with
         | |- context [if ?b then _ else _] => destruct b
         end.
  - apply frame_advance, frame_handleCreatePlan.
  - apply frame_advance, frame_handleSavePlan.
  - apply handleStartLoop_advance, Hfresh.
  - apply frame_advance, frame_handleLoopStatus.
  - apply handleCancelLoop_advance.
  - apply frame_advance, frame_handleClearSessions.
  - apply advance_same; reflexivity.
Qed.

(** *** [stop] *)

Lemma cancelled_loop_idem l : cancelled_loop (cancelled_loop l) = cancelled_loop l.
Proof.
  unfold cancelled_loop, cancelling.
  destruct (process l) as [pid|] eqn:Hp; [|rewrite Hp; reflexivity].
  destruct (is_running (status l)) eqn:Hr; cbn; rewrite Hp, ?Hr; reflexivity.
Qed.

Lemma cancel_loop_run (entries : list (string * nat)) w :
  exists w1 kills,
    for_of entries cancel_entry w = (Ok tt, w1) /\
    activeLoops w1 = activeLoops w /\ next_ref w1 = next_ref w /\
    server w1 = server w /\
    trace w1 = trace w ++ kills /\
    (EServerClose ∉ kills) /\
    (forall ref, heap w1 !! ref =
       if bool_decide (ref ∈ entries.*2) then cancelled_loop <$> heap w !! ref
       else heap w !! ref) /\
    (forall name ref l pid,
       (name, ref) ∈ entries -> heap w !! ref = Some l -> cancelling l = Some pid ->
       EKill pid "SIGTERM" ∈ kills).
Proof.
  revert w. induction entries as [|entry rest IH]; intros w; cbn [for_of].
  - exists w, []. rewrite app_nil_r. repeat split; try reflexivity.
    + intros Hin. inversion Hin.
    + intros name ref l pid Hin. inversion Hin.
  - destruct (cancel_entry_run entry w) as (w0 & Hrun & Hh0 & Ht0 & Ha0 & Hn0 & Hs0).
    destruct (IH w0) as (w1 & kills & Hrest & Ha & Hn & Hs & Ht & Hclose & Hh & Hk).
    unfold bind. rewrite Hrun, Hrest.
    exists w1, (cancel_effects entry.1 (heap w !! entry.2) ++ kills).
    split; [reflexivity|]. rewrite Ha, Hn, Hs, Ht, Ht0, <- app_assoc.
    repeat split; try assumption.
    + intros Hin. apply elem_of_app in Hin as [Hin|Hin]; [|contradiction].
      unfold cancel_effects in Hin. destruct (_ ≫= _); [|inversion Hin].
      apply elem_of_cons in Hin as [?|Hin]; [discriminate|].
      apply list_elem_of_singleton in Hin. discriminate.
    + intros ref. rewrite Hh, Hh0, lookup_alter. cbn [fmap list_fmap].
      destruct (decide (entry.2 = ref)) as [<-|Hne].
      * rewrite (bool_decide_eq_true_2 (entry.2 ∈ entry.2 :: rest.*2))
          by apply list_elem_of_here.
        destruct (heap w !! entry.2) as [l|]; cbn; [|destruct (bool_decide _); reflexivity].
        rewrite cancelled_loop_idem. destruct (bool_decide _); reflexivity.
      * rewrite (bool_decide_ext (ref ∈ entry.2 :: rest.*2) (ref ∈ rest.*2));
          [reflexivity|].
        rewrite elem_of_cons. split; [intros [?|?]; congruence | auto].
    + intros name ref l pid Hin Hl Hc. apply elem_of_app.
      apply elem_of_cons in Hin as [<-|Hin].
      * left. unfold cancel_effects. cbn [fst snd]. rewrite Hl. cbn. rewrite Hc.
        apply list_elem_of_here.
      * destruct (decide (entry.2 = ref)) as [Heq|Hne].
        -- left. unfold cancel_effects. rewrite Heq, Hl. cbn. rewrite Hc.
           apply list_elem_of_here.
        -- right. apply (Hk name ref l pid Hin); [|exact Hc].
           rewrite Hh0, lookup_alter_ne by exact Hne. exact Hl.
Qed.

Lemma stop_advance w : advance w (stop w).2.
Proof.
  unfold stop, bind at 1, cancel_active_loops, bind at 1, gets.
  destruct (cancel_loop_run (activeLoops w) w)
    as (w1 & kills & -> & Ha & Hn & Hs & Ht & _ & Hh & _).
  unfold bind at 1, clear_active_loops, modify, close_server, bind, gets.
  assert (Hadv : advance w (set_activeLoops [] w1)).
  { unfold advance. world_simpl. rewrite Hn. split; [lia|]. split; [|split].
    - intros ref l Hl. rewrite Hh, Hl. destruct (bool_decide _); cbn.
      + eexists. split; [reflexivity | apply cancelled_loop_keeps].
      + eexists. split; [reflexivity | apply keeps_refl].
    - intros ref l' Hl' Hnone. rewrite Hh, Hnone in Hl'.
      destruct (bool_decide _); discriminate.
    - intros name ref Hin. inversion Hin. }
  world_simpl. destruct (server w1); exact Hadv.
Qed.

(** *** Reachable states *)

Lemma step_advance (api : ApiServer E) ev w :
  heap w !! next_ref w = None -> advance w (step api ev w).
Proof.
  intros Hfresh. destruct ev as [listened|req|pid pev|]; cbn [step].
  - apply frame_advance, frame_start.
  - apply handleRequest_advance, Hfresh.
  - apply process_settled_advance.
  - apply stop_advance.
Qed.

Lemma wf_fresh w : wf w -> heap w !! next_ref w = None.
Proof.
  intros Hwf. destruct (heap w !! next_ref w) as [l|] eqn:Hl; [|reflexivity].
  pose proof (wf_bound w Hwf _ _ Hl). lia.
Qed.

Lemma reachable_wf (api : ApiServer E) w : reachable api w -> wf w.
Proof.
  induction 1 as [w (_ & Ha & Hh & _)|w ev _ IH].
  - split; rewrite ?Hh, ?Ha.
    + intros ref l Hl. rewrite lookup_empty in Hl. discriminate.
    + intros name ref Hin. inversion Hin.
    + intros ref l Hl. rewrite lookup_empty in Hl. discriminate.
  - exact (advance_wf _ _ IH (step_advance api ev w (wf_fresh w IH))).
Qed.

(** *** The clear-sessions endpoint *)

Lemma handleClearSessions_run (api : ApiServer E) (callback : M E unit) res w :
  onClearSessions api = Some callback ->
  exists w',
    handleClearSessions api res w =
      (Ok (match (callback (ext w)).1 with
           | Ok _ => send_json 200 (JObj [("success", JBool true)]) res
           | Throw error =>
               send_json 500 (JObj [("error", JStr (String_of_error error))]) res
           end), w') /\
    ext w' = (callback (ext w)).2 /\
    heap w' = heap w /\ activeLoops w' = activeLoops w.
Proof.
  intros Hcb. unfold handleClearSessions. rewrite Hcb.
  unfold bind at 1, log at 1, emit, modify, try_catch, bind, on_ext. world_simpl.
  destruct (callback (ext w)) as [[[]|error] e']; cbn [fst snd];
    eexists; (split; [reflexivity|]); repeat split.
Qed.

Lemma route_clear_sessions (api : ApiServer E) req w :
  method req = "POST" ->
  URL_pathname (default "/" (url req)) = Ok "/api/sessions/clear" ->
  handleRequest api req fresh_response w =
    try_catch
      (handleClearSessions api (setCorsHeaders fresh_response))
      (fun error =>
         bind (log "API" ("Error handling " +:+ "/api/sessions/clear" +:+ ": " +:+
                          String_of_error error)) (fun _ =>
         ret (send_json 500 (JObj [("error", JStr (String_of_error error))])
                        (setCorsHeaders fresh_response)))) w.
Proof.
  intros Hm Hp. unfold handleRequest. rewrite Hm.
  change (String.eqb "POST" "OPTIONS") with false. cbv iota.
  unfold bind at 1. rewrite Hp. reflexivity.
Qed.



End Runs.

(** ** Sample data *)

(** The path of an origin-form request target: what comes before the
    query and the fragment. *)
Fixpoint sample_path (target : string) : string :=
  match target with
  | String c rest =>
      if Ascii.eqb c "?"%char || Ascii.eqb c "#"%char then EmptyString
      else String c (sample_path rest)
  | EmptyString => EmptyString
  end.

Definition sample_host : Host :=
  {| process_cwd := "/srv/app";
     URL_pathname := fun target => Ok (sample_path target);
     Number_toString := fun q =>
       pretty (Qnum q) +:+ "/" +:+ pretty (Zpos (Qden q));
     toISOString := fun instant => pretty instant;
     path_join := fun a b => a +:+ "/" +:+ b;
     command_completion := fun _ _ _ => Ok "done";
     writeFile_completion := fun _ _ => Ok tt |}.

(** A server without a clear-sessions callback, and its first states: as
    constructed, listening, and with a loop of three iterations started. *)
Definition sample_api : ApiServer unit :=
  constructor (H:=sample_host) (mkOptions None None None).

Definition sample_initial : World unit :=
  mkWorld None [] ∅ 0 ∅ 0 (fun _ => None) (fun k => 1700000000000 + Z.of_nat k)
          0 [] tt.

Definition start_request (iterations : option Q) : Request :=
  mkRequest "POST" (Some "/api/loop/start")
            (Ok (mkBody None None None iterations None)).

Definition sample_listening : World unit :=
  step (H:=sample_host) sample_api (EvStart (Ok tt)) sample_initial.

Definition sample_looping : World unit :=
  step (H:=sample_host) sample_api (EvRequest (start_request (Some 3%Q)))
       sample_listening.

Lemma sample_looping_reachable : reachable (H:=sample_host) sample_api sample_looping.
Proof. do 2 apply reach_step. apply reach_initial. repeat split. Qed.

(** The world of the composing process inside the world of its API
    server, at start. *)
Definition sample_daemon (n : nat)
  : World (@Index.World IndexFacts.sample_collaborators) :=
  mkWorld None [] ∅ 0 ∅ 0 (fun _ => None) (fun k => 1700000000000 + Z.of_nat k)
          0 [] (IndexFacts.sample_world n).

Definition clear_request : Request :=
  mkRequest "POST" (Some "/api/sessions/clear?source=ui") (Ok (mkBody None None None None None)).

(** ** Properties of the specification *)

(** C5: a POST to [/api/sessions/clear] on the server the composing
    process constructs calls [streamServer.clearAllSessions()] exactly
    once, through the [onClearSessions] callback, and answers 200 with
    [{success: true}] when that call resolves and 500 with the error when
    it rejects. *)
Theorem clear_sessions_control_surface `{Index.Collaborators} `{Host}
    (env : gmap string string) (req : Request) (w : World Index.World) :
  method req = "POST" ->
  URL_pathname (default "/" (url req)) = Ok "/api/sessions/clear" ->
  let answer := Index.clearAllSessions (Index.streamServer (ext w)) in
  exists res w',
    handleRequest (Index.apiServer env) req fresh_response w = (Ok res, w') /\
    Index.calls (ext w') =
      Index.calls (ext w) ++ [Index.mkCall Index.Clear answer.1] /\
    Index.streamServer (ext w') = answer.2 /\
    match answer.1 with
    | Ok _ =>
        statusCode res = Some 200 /\
        body res = Some (JObj [("success", JBool true)])
    | Throw error =>
        statusCode res = Some 500 /\
        body res = Some (JObj [("error", JStr (String_of_error error))])
    end.
Proof.
  intros Hm Hp answer. rewrite (route_clear_sessions _ _ _ Hm Hp).
  destruct (handleClearSessions_run (Index.apiServer env)
              Index.call_clearAllSessions (setCorsHeaders fresh_response) w
              eq_refl) as (w' & Hrun & Hext & _).
  unfold try_catch. rewrite Hrun.
  eexists _, w'. split; [reflexivity|]. rewrite Hext.
  unfold Index.call_clearAllSessions. subst answer.
  destruct (Index.clearAllSessions _) as [[[]|error] srv];
    cbn [fst snd Index.calls Index.streamServer]; repeat split.
Qed.

Lemma clear_sessions_control_surface_witness :
  method clear_request = "POST" /\
  @URL_pathname sample_host (default "/" (url clear_request))
    = Ok "/api/sessions/clear" /\
  exists res w',
    handleRequest (H:=sample_host)
      (Index.apiServer (H:=IndexFacts.sample_collaborators) (H0:=sample_host) ∅)
      clear_request fresh_response (sample_daemon 1) = (Ok res, w') /\
    Index.calls (ext w') = [Index.mkCall Index.Clear (Ok tt)] /\
    statusCode res = Some 200 /\
    body res = Some (JObj [("success", JBool true)]).
Proof.
  split; [reflexivity|]. split; [reflexivity|].
  destruct (clear_sessions_control_surface
              (H:=IndexFacts.sample_collaborators) (H0:=sample_host)
              ∅ clear_request (sample_daemon 1) eq_refl eq_refl)
    as (res & w' & Hrun & Hcalls & _ & Hcode & Hbody).
  exists res, w'. auto.
Defined.

(** When the stream server rejects the call, the answer is 500 with the
    error. *)
Example clear_sessions_rejected :
  match (handleRequest (H:=sample_host)
           (Index.apiServer (H:=IndexFacts.sample_collaborators)
                            (H0:=sample_host) ∅)
           clear_request fresh_response (sample_daemon 0)).1 with
  | Ok res =>
      statusCode res = Some 500 /\
      body res = Some (JObj [("error", JStr "PublishError: log append failed")])
  | Throw _ => False
  end.
Proof. vm_compute. split; reflexivity. Qed.

(** C6: [stop] first ends the work in flight and then releases the
    listener.  In any state the server can be in, it sends SIGTERM to the
    process of every registered loop that is running and marks the loop
    cancelled (no other effect than these signals and their log lines
    comes first), then empties [activeLoops], and only then closes the
    HTTP server, if there is one; the promise resolves in every case,
    also when the server was never started. *)
Theorem stop_cancels_then_releases `{Host} {E : Type}
    (api : ApiServer E) (w : World E) :
  reachable api w ->
  exists w1 w2 w' kills,
    stop w = (Ok tt, w') /\
    cancel_active_loops w = (Ok tt, w1) /\
    clear_active_loops w1 = (Ok tt, w2) /\
    close_server w2 = (Ok tt, w') /\
    (forall name ref l,
       (name, ref) ∈ activeLoops w -> heap w !! ref = Some l ->
       status l = running ->
       exists pid,
         process l = Some pid /\ EKill pid "SIGTERM" ∈ kills /\
         heap w' !! ref = Some (set_status cancelled l)) /\
    (forall ref l,
       heap w !! ref = Some l -> status l <> running -> heap w' !! ref = Some l) /\
    trace w1 = trace w ++ kills /\
    (EServerClose ∉ kills) /\
    activeLoops w1 = activeLoops w /\
    activeLoops w2 = [] /\ trace w2 = trace w1 /\
    activeLoops w' = [] /\
    trace w' = trace w2 ++ match server w with
                           | Some _ => [EServerClose]
                           | None => []
                           end.
Proof.
  intros Hreach. pose proof (reachable_wf api w Hreach) as Hwf.
  destruct (cancel_loop_run (activeLoops w) w)
    as (w1 & kills & Hrun & Ha & Hn & Hs & Ht & Hclose & Hh & Hk).
  assert (Hcancel : cancel_active_loops w = (Ok tt, w1))
    by (unfold cancel_active_loops, bind, gets; exact Hrun).
  exists w1, (set_activeLoops [] w1),
         (match server w with
          | Some _ => set_trace (trace w1 ++ [EServerClose]) (set_activeLoops [] w1)
          | None => set_activeLoops [] w1
          end), kills.
  assert (Hclosing : close_server (set_activeLoops [] w1) =
            (Ok tt, match server w with
                    | Some _ => set_trace (trace w1 ++ [EServerClose])
                                          (set_activeLoops [] w1)
                    | None => set_activeLoops [] w1
                    end)).
  { unfold close_server, bind, gets. world_simpl. rewrite Hs.
    destruct (server w); reflexivity. }
  split.
  { unfold stop, bind at 1. rewrite Hcancel.
    unfold bind, clear_active_loops, modify. exact Hclosing. }
  split; [exact Hcancel|]. split; [reflexivity|]. split; [exact Hclosing|].
  split.
  { intros name ref l Hin Hl Hrunning.
    destruct (wf_good w Hwf ref l Hl) as [_ Hproc].
    destruct (Hproc Hrunning) as [pid Hpid]. exists pid.
    assert (Hc : cancelling l = Some pid)
      by (unfold cancelling; rewrite Hpid, Hrunning; reflexivity).
    split; [exact Hpid|]. split; [exact (Hk name ref l pid Hin Hl Hc)|].
    assert (Hlook : heap w1 !! ref = Some (set_status cancelled l)).
    { rewrite Hh, bool_decide_eq_true_2, Hl.
      - cbn. unfold cancelled_loop. rewrite Hc. reflexivity.
      - apply (list_elem_of_fmap_2 snd) in Hin. exact Hin. }
    destruct (server w); exact Hlook. }
  split.
  { intros ref l Hl Hnot.
    assert (Hlook : heap w1 !! ref = Some l).
    { rewrite Hh, Hl. destruct (bool_decide _); [|reflexivity].
      cbn. unfold cancelled_loop, cancelling.
      destruct (process l); [|reflexivity].
      destruct (status l); [contradiction|reflexivity..]. }
    destruct (server w); exact Hlook. }
  split; [exact Ht|]. split; [exact Hclose|]. split; [exact Ha|].
  split; [reflexivity|]. split; [reflexivity|].
  destruct (server w); world_simpl; rewrite ?app_nil_r; split; reflexivity.
Qed.

Lemma stop_cancels_then_releases_witness :
  reachable (H:=sample_host) sample_api sample_looping /\
  exists w',
    stop sample_looping = (Ok tt, w') /\
    activeLoops w' = [] /\
    EKill 0 "SIGTERM" ∈ trace w' /\
    (status <$> heap w' !! 0%nat) = Some cancelled /\
    List.last (trace w') EServerClose = EServerClose.
Proof.
  split; [exact sample_looping_reachable|].
  destruct (stop_cancels_then_releases (H:=sample_host) sample_api sample_looping
              sample_looping_reachable)
    as (w1 & w2 & w' & kills & Hstop & _).
  exists w'. split; [exact Hstop|].
  assert (Hrun : (stop sample_looping).2 = w') by (rewrite Hstop; reflexivity).
  rewrite <- Hrun. vm_compute. repeat split.
  apply list_elem_of_In. vm_compute. auto 10.
Defined.


(** The life of a loop of three iterations: the first command ends, the
    second one announces completion; a late event changes nothing. *)
Example loop_completes :
  let w1 := step (H:=sample_host) sample_api
              (EvProcess 0 (PClose (Some 0) "one task done" EmptyString))
              sample_looping in
  let w2 := step (H:=sample_host) sample_api
              (EvProcess 1 (PClose (Some 0) "<promise>COMPLETE</promise>" EmptyString))
              w1 in
  let w3 := step (H:=sample_host) sample_api
              (EvProcess 1 (PError (Error_ "late"))) w2 in
  let view (w : World unit) :=
    (fun l => (status l, currentIteration l, process l)) <$> heap w !! 0%nat in
  Map_keys (activeLoops sample_looping) = ["loop-1700000000000"] /\
  view sample_looping = Some (running, 1, Some 0%nat) /\
  view w1 = Some (running, 2, Some 1%nat) /\
  view w2 = Some (completed, 2, Some 1%nat) /\
  view w3 = Some (completed, 2, Some 1%nat).
Proof. vm_compute. repeat split. Qed.

(** A cancelled loop starts no further iteration when its command ends. *)
Example loop_cancelled :
  let cancel :=
    mkRequest "POST" (Some "/api/loop/cancel")
              (Ok (mkBody None None None None (Some "loop-1700000000000"))) in
  let w1 := step (H:=sample_host) sample_api (EvRequest cancel) sample_looping in
  let w2 := step (H:=sample_host) sample_api
              (EvProcess 0 (PClose None "interrupted" EmptyString)) w1 in
  let view (w : World unit) :=
    (fun l => (status l, currentIteration l, process l)) <$> heap w !! 0%nat in
  view w1 = Some (cancelled, 1, Some 0%nat) /\
  view w2 = Some (cancelled, 1, Some 0%nat) /\
  spawned w2 = 1%nat.
Proof. vm_compute. repeat split. Qed.

(** Requests without a usable [iterations] are refused. *)
Example start_refused :
  Forall (fun its =>
            match (handleRequest (H:=sample_host) sample_api
                     (start_request its) fresh_response sample_listening).1 with
            | Ok res => statusCode res = Some 400
            | Throw _ => False
            end /\
            step (H:=sample_host) sample_api (EvRequest (start_request its))
                 sample_listening = sample_listening)
         [None; Some 0%Q; Some (-2)%Q; Some (1 # 2)%Q].
Proof. repeat constructor. Qed.

(** Stopping a server that was never started resolves and closes nothing. *)
Example stop_before_start :
  stop sample_initial = (Ok tt, sample_initial).
Proof. reflexivity. Qed.

End ApiFacts.
(* ===================================================================== *)
(** * Further properties of the API server *)
(* ===================================================================== *)

Module ApiMore.
Import JS JSFacts Api ApiFacts.

(** ** The runs of [runIterations], field by field *)

Definition is_log (e : Effect) : Prop := exists tag message, e = ELog tag message.

Definition logs (t : list Effect) : Prop := Forall is_log t.

Definition finish (l : LoopProcess) : LoopProcess :=
  set_status (if is_running (status l) then completed else status l) l.

Definition error_line (i : Z) (error : JsError) : string :=
  "Error in iteration " +:+ pretty i +:+ ": " +:+ String_of_error error.

Definition heading_line (i : Z) : string :=
  "=== Iteration " +:+ pretty i +:+ " ===".

Definition marker : string := "<promise>COMPLETE</promise>".

Definition claude_args : list string :=
  ["--dangerously-skip-permissions"; "-p"; claudePrompt].

(** The loop as an iteration that failed leaves it. *)
Definition fail_with (i : Z) (error : JsError) (l : LoopProcess) : LoopProcess :=
  set_status failed (push_output (error_line i error) l).

(** The loop once the command of iteration [i] gave [out]. *)
Definition record_output (i : Z) (out : string) (l : LoopProcess) : LoopProcess :=
  push_output out (push_output (heading_line i) l).

Section Runs.
Context `{Host} {E : Type}.
Implicit Types (w : World E) (l : LoopProcess).

(** What no run of a loop changes. *)
Definition unchanged w w' : Prop :=
  server w' = server w /\ activeLoops w' = activeLoops w /\
  next_ref w' = next_ref w /\ spawn_error w' = spawn_error w /\
  clock w' = clock w /\ reads w' = reads w /\ ext w' = ext w.

(** The run leaves [l'] behind [ref], the activations [aw], [sp] processes
    spawned, and adds [t] to the trace. *)
Definition run_to (ref : nat) (l' : LoopProcess) (aw : gmap nat Activation)
    (sp : nat) (t : list Effect) w w' : Prop :=
  heap w' = <[ref := l']> (heap w) /\ awaiting w' = aw /\ spawned w' = sp /\
  trace w' = trace w ++ t /\ unchanged w w'.

Lemma logs_one tag message : logs [ELog tag message].
Proof. constructor; [eexists _, _; reflexivity | constructor]. Qed.

Lemma logs_two tag message tag' message' :
  logs [ELog tag message; ELog tag' message'].
Proof. constructor; [eexists _, _; reflexivity | apply logs_one]. Qed.

Lemma logs_app t t' : logs t -> logs t' -> logs (t ++ t').
Proof. apply Forall_app_2. Qed.

Lemma end_run ref w l :
  heap w !! ref = Some l ->
  exists w' t,
    runIterations_end ref w = (Ok tt, w') /\
    run_to ref (finish l) (awaiting w) (spawned w) t w w' /\ logs t.
Proof.
  intros Hl. unfold runIterations_end. rewrite Hl. unfold bind.
  rewrite (update_loop_run _ _ _ _ Hl). unfold log, emit, modify.
  eexists _, _. split; [reflexivity|]. split; [|apply logs_one].
  repeat split.
Qed.

Lemma failed_run ref i error w l :
  heap w !! ref = Some l ->
  exists w' t,
    iteration_failed ref i error w = (Ok tt, w') /\
    run_to ref (fail_with i error l) (awaiting w) (spawned w) t w w' /\ logs t.
Proof.
  intros Hl. unfold iteration_failed. rewrite Hl. unfold bind at 1.
  unfold log at 1, emit, modify. unfold bind at 1.
  erewrite update_loop_run by (world_simpl; exact Hl).
  unfold bind at 1.
  erewrite update_loop_run by (world_simpl; apply lookup_insert_eq).
  match goal with |- context [runIterations_end ref ?w1] =>
    destruct (end_run ref w1 (fail_with i error l))
      as (w' & t & Hrun & (Hh & Ha & Hs & Ht & Hu) & Hlogs);
      [world_simpl; apply lookup_insert_eq|]
  end.
  rewrite Hrun. world_simpl. rewrite !insert_insert_eq in Hh.
  eexists w', _. split; [reflexivity|]. split.
  - split; [exact Hh|]. split; [exact Ha|]. split; [exact Hs|].
    split; [rewrite Ht, <- app_assoc; reflexivity | exact Hu].
  - apply logs_app; [apply logs_one | exact Hlogs].
Qed.

Lemma unchanged_refl w : unchanged w w.
Proof. repeat split. Qed.

Lemma unchanged_trans w w1 w2 : unchanged w w1 -> unchanged w1 w2 -> unchanged w w2.
Proof.
  intros (?&?&?&?&?&?&?) (?&?&?&?&?&?&?). repeat split; congruence.
Qed.

(** The test of the loop fails, or the loop is not running: the function
    ends. *)
Lemma from_done ref wd i w l :
  heap w !! ref = Some l ->
  Qle_bool (inject_Z i) (iterations l) && is_running (status l) = false ->
  exists w' t,
    runIterations_from ref wd i w = (Ok tt, w') /\
    run_to ref (finish l) (awaiting w) (spawned w) t w w' /\ logs t.
Proof.
  intros Hl Hcond. unfold runIterations_from. rewrite Hl.
  destruct (Qle_bool (inject_Z i) (iterations l));
    [destruct (is_running (status l)); [discriminate|]|];
    exact (end_run ref w l Hl).
Qed.

(** The next iteration starts and its command is spawned. *)
Lemma from_spawned ref wd i w l :
  heap w !! ref = Some l ->
  Qle_bool (inject_Z i) (iterations l) = true -> status l = running ->
  spawn_error w (spawned w) = None ->
  exists w' message,
    runIterations_from ref wd i w = (Ok tt, w') /\
    run_to ref (set_process (Some (spawned w)) (set_currentIteration i l))
      (<[spawned w := mkActivation ref i wd]> (awaiting w)) (S (spawned w))
      [ELog "API" message; ESpawn (spawned w) "claude" claude_args wd] w w'.
Proof.
  intros Hl Hle Hrun Hspawn. unfold runIterations_from. rewrite Hl, Hle, Hrun.
  cbn [is_running]. unfold bind at 1. rewrite (update_loop_run _ _ _ _ Hl).
  unfold bind at 1, log at 1, emit, modify.
  unfold try_catch, bind at 1, spawn. world_simpl. rewrite Hspawn.
  unfold bind at 1.
  erewrite update_loop_run by (world_simpl; apply lookup_insert_eq).
  eexists _, _. split; [reflexivity|]. unfold run_to. world_simpl.
  rewrite insert_insert_eq, <- app_assoc. repeat split.
Qed.

(** The next iteration starts and [spawn] throws. *)
Lemma from_spawn_failed ref wd i w l error :
  heap w !! ref = Some l ->
  Qle_bool (inject_Z i) (iterations l) = true -> status l = running ->
  spawn_error w (spawned w) = Some error ->
  exists w' t,
    runIterations_from ref wd i w = (Ok tt, w') /\
    run_to ref (fail_with i error (set_currentIteration i l))
      (awaiting w) (S (spawned w)) t w w' /\ logs t.
Proof.
  intros Hl Hle Hrun Hspawn. unfold runIterations_from. rewrite Hl, Hle, Hrun.
  cbn [is_running]. unfold bind at 1. rewrite (update_loop_run _ _ _ _ Hl).
  unfold bind at 1, log at 1, emit, modify.
  unfold try_catch, bind at 1, spawn. world_simpl. rewrite Hspawn.
  match goal with |- context [iteration_failed ref i error ?w1] =>
    destruct (failed_run ref i error w1 (set_currentIteration i l))
      as (w' & t & Hfail & (Hh & Ha & Hs & Ht & Hu) & Hlogs);
      [world_simpl; apply lookup_insert_eq|]
  end.
  rewrite Hfail. world_simpl. rewrite insert_insert_eq in Hh.
  eexists w', _. split; [reflexivity|]. split.
  - split; [exact Hh|]. split; [exact Ha|]. split; [exact Hs|].
    split; [rewrite Ht, <- app_assoc; reflexivity | exact Hu].
  - apply logs_app; [apply logs_one | exact Hlogs].
Qed.

(** The awaited command failed. *)
Lemma resume_failed a error w l :
  heap w !! act_loop a = Some l ->
  exists w' t,
    runIterations_resume a (Throw error) w = (Ok tt, w') /\
    run_to (act_loop a) (fail_with (act_i a) error l) (awaiting w) (spawned w)
           t w w' /\ logs t.
Proof. intros Hl. exact (failed_run _ _ _ _ _ Hl). Qed.

(** The awaited command announced completion. *)
Lemma resume_complete a out w l :
  heap w !! act_loop a = Some l ->
  includes marker out = true ->
  exists w' t,
    runIterations_resume a (Ok out) w = (Ok tt, w') /\
    run_to (act_loop a) (set_status completed (record_output (act_i a) out l))
           (awaiting w) (spawned w) t w w' /\ logs t.
Proof.
  intros Hl Hmark. unfold runIterations_resume.
  unfold bind at 1. rewrite (update_loop_run _ _ _ _ Hl).
  unfold bind at 1.
  erewrite update_loop_run by (world_simpl; apply lookup_insert_eq).
  fold marker. rewrite Hmark. world_simpl.
  rewrite insert_insert_eq, lookup_insert_eq.
  unfold bind at 1, log at 1, emit, modify. unfold bind at 1.
  erewrite update_loop_run by (world_simpl; apply lookup_insert_eq).
  match goal with |- context [runIterations_end _ ?w1] =>
    destruct (end_run (act_loop a) w1
                (set_status completed (record_output (act_i a) out l)))
      as (w' & t & Hrun & (Hh & Ha & Hs & Ht & Hu) & Hlogs);
      [world_simpl; apply lookup_insert_eq|]
  end.
  rewrite Hrun. world_simpl. rewrite !insert_insert_eq in Hh.
  eexists w', _. split; [reflexivity|]. split.
  - split; [exact Hh|]. split; [exact Ha|]. split; [exact Hs|].
    split; [rewrite Ht, <- app_assoc; reflexivity | exact Hu].
  - apply logs_app; [apply logs_one | exact Hlogs].
Qed.

(** The awaited command ended without announcing completion: the loop
    goes on from the next iteration, on the loop with the output added. *)
Lemma resume_next a out w l :
  heap w !! act_loop a = Some l ->
  includes marker out = false ->
  runIterations_resume a (Ok out) w =
    runIterations_from (act_loop a) (act_workDir a) (act_i a + 1)
      (set_heap (<[act_loop a := record_output (act_i a) out l]> (heap w)) w).
Proof.
  intros Hl Hmark. unfold runIterations_resume.
  unfold bind at 1. rewrite (update_loop_run _ _ _ _ Hl).
  unfold bind at 1.
  erewrite update_loop_run by (world_simpl; apply lookup_insert_eq).
  fold marker. rewrite Hmark. world_simpl. rewrite insert_insert_eq.
  reflexivity.
Qed.

(** *** What a run does to its loop *)

(** The name, the bound and the start of a loop stay, and its output is
    only added to. *)
Definition same_record l l' : Prop :=
  id l' = id l /\ iterations l' = iterations l /\ startedAt l' = startedAt l /\
  output l `prefix_of` output l'.

Lemma same_record_refl l : same_record l l.
Proof. repeat split. reflexivity. Qed.

Lemma same_record_trans l1 l2 l3 :
  same_record l1 l2 -> same_record l2 l3 -> same_record l1 l3.
Proof.
  intros (?&?&?&?) (?&?&?&?). repeat split; try congruence.
  etransitivity; eassumption.
Qed.

(** A run from iteration [i] either ends the function, and the loop is
    not running any more, or suspends on a new child process. *)
Definition outcome (ref : nat) (wd : string) (i : Z) l l'
    (aw aw' : gmap nat Activation) (sp sp' : nat) : Prop :=
  same_record l l' /\
  ((aw' = aw /\ status l' <> running /\ process l' = process l /\
    (sp <= sp' <= S sp)%nat /\
    (currentIteration l' = currentIteration l \/
     status l = running /\ currentIteration l' = i))
   \/
   (aw' = <[sp := mkActivation ref i wd]> aw /\ sp' = S sp /\
    status l = running /\ status l' = running /\
    process l' = Some sp /\ currentIteration l' = i)).

Lemma finish_not_running l : status (finish l) <> running.
Proof. unfold finish. destruct (status l); cbn; discriminate. Qed.

Lemma from_outcome ref wd i w l :
  heap w !! ref = Some l ->
  exists w' l' t,
    runIterations_from ref wd i w = (Ok tt, w') /\
    run_to ref l' (awaiting w') (spawned w') t w w' /\
    outcome ref wd i l l' (awaiting w) (awaiting w') (spawned w) (spawned w').
Proof.
  intros Hl.
  destruct (Qle_bool (inject_Z i) (iterations l) && is_running (status l))
    eqn:Hcond.
  - apply andb_true_iff in Hcond as [Hle Hrun].
    assert (Hst : status l = running) by (destruct (status l); try discriminate; reflexivity).
    destruct (spawn_error w (spawned w)) as [error|] eqn:Hspawn.
    + destruct (from_spawn_failed ref wd i w l error Hl Hle Hst Hspawn)
        as (w' & t & Hrun' & Hto & _).
      pose proof Hto as (_ & Ha & Hs & _).
      exists w', (fail_with i error (set_currentIteration i l)), t.
      split; [exact Hrun'|]. rewrite Ha, Hs. split; [exact Hto|].
      split.
      * repeat split. cbn. apply prefix_app_r. reflexivity.
      * left. repeat split; cbn; try lia; try discriminate. right. auto.
    + destruct (from_spawned ref wd i w l Hl Hle Hst Hspawn)
        as (w' & message & Hrun' & Hto).
      pose proof Hto as (_ & Ha & Hs & _).
      exists w', (set_process (Some (spawned w)) (set_currentIteration i l)),
             [ELog "API" message; ESpawn (spawned w) "claude" claude_args wd].
      split; [exact Hrun'|]. rewrite Ha, Hs. split; [exact Hto|].
      split; [repeat split; reflexivity|]. right. repeat split; assumption.
  - destruct (from_done ref wd i w l Hl Hcond) as (w' & t & Hrun' & Hto & _).
    pose proof Hto as (_ & Ha & Hs & _).
    exists w', (finish l), t. split; [exact Hrun'|]. rewrite Ha, Hs.
    split; [exact Hto|]. split; [repeat split; reflexivity|].
    left. repeat split; try lia; [apply finish_not_running | left; reflexivity].
Qed.

Lemma resume_outcome a (r : result string) w l :
  heap w !! act_loop a = Some l ->
  exists w' l' t,
    runIterations_resume a r w = (Ok tt, w') /\
    run_to (act_loop a) l' (awaiting w') (spawned w') t w w' /\
    outcome (act_loop a) (act_workDir a) (act_i a + 1) l l'
            (awaiting w) (awaiting w') (spawned w) (spawned w').
Proof.
  intros Hl. destruct r as [out|error].
  - destruct (includes marker out) eqn:Hmark.
    + destruct (resume_complete a out w l Hl Hmark) as (w' & t & Hrun & Hto & _).
      pose proof Hto as (_ & Ha & Hs & _).
      exists w', (set_status completed (record_output (act_i a) out l)), t.
      split; [exact Hrun|]. rewrite Ha, Hs. split; [exact Hto|]. split.
      * repeat split. cbn. rewrite <- app_assoc. apply prefix_app_r. reflexivity.
      * left. repeat split; cbn; try lia; try discriminate.
    + rewrite (resume_next a out w l Hl Hmark).
      match goal with |- context [runIterations_from _ _ _ ?w1] =>
        destruct (from_outcome (act_loop a) (act_workDir a) (act_i a + 1) w1
                    (record_output (act_i a) out l))
          as (w' & l' & t & Hrun & (Hh & Ha & Hs & Ht & Hu) & Hrec & Hout);
          [world_simpl; apply lookup_insert_eq|]
      end.
      world_simpl. rewrite insert_insert_eq in Hh.
      exists w', l', t. split; [exact Hrun|]. split.
      * split; [exact Hh|]. repeat split; try assumption; apply Hu.
      * split.
        -- apply (same_record_trans _ (record_output (act_i a) out l)); [|exact Hrec].
           repeat split. cbn. rewrite <- app_assoc. apply prefix_app_r. reflexivity.
        -- exact Hout.
  - destruct (resume_failed a error w l Hl) as (w' & t & Hrun & Hto & _).
    pose proof Hto as (_ & Ha & Hs & _).
    exists w', (fail_with (act_i a) error l), t.
    split; [exact Hrun|]. rewrite Ha, Hs. split; [exact Hto|]. split.
    + repeat split. cbn. apply prefix_app_r. reflexivity.
    + left. repeat split; cbn; try lia; try discriminate.
Qed.

End Runs.

(** ** Actions that leave loops, activations and processes alone *)

Section Quiet.
Context {E : Type}.

Definition quiet {A} (m : M (World E) A) : Prop :=
  forall w, heap (m w).2 = heap w /\ activeLoops (m w).2 = activeLoops w /\
            next_ref (m w).2 = next_ref w /\ awaiting (m w).2 = awaiting w /\
            spawned (m w).2 = spawned w.

Lemma quiet_ret {A} (a : A) : quiet (ret a).
Proof. intros w. repeat split. Qed.

Lemma quiet_throw {A} (e : JsError) : quiet (@throw (World E) A e).
Proof. intros w. repeat split. Qed.

Lemma quiet_pure {A} (r : result A) : quiet (fun w : World E => (r, w)).
Proof. intros w. repeat split. Qed.

Lemma quiet_bind {A B} (m : M (World E) A) (k : A -> M (World E) B) :
  quiet m -> (forall a, quiet (k a)) -> quiet (bind m k).
Proof.
  intros Hm Hk w. unfold bind. specialize (Hm w).
  destruct (m w) as [[a|e] w1]; cbn [snd] in *; [|exact Hm].
  destruct Hm as (?&?&?&?&?). destruct (Hk a w1) as (?&?&?&?&?).
  repeat split; congruence.
Qed.

Lemma quiet_try_catch {A} (m : M (World E) A) (h : JsError -> M (World E) A) :
  quiet m -> (forall e, quiet (h e)) -> quiet (try_catch m h).
Proof.
  intros Hm Hh w. unfold try_catch. specialize (Hm w).
  destruct (m w) as [[a|e] w1]; cbn [snd] in *; [exact Hm|].
  destruct Hm as (?&?&?&?&?). destruct (Hh e w1) as (?&?&?&?&?).
  repeat split; congruence.
Qed.

Lemma quiet_log (tag message : string) : quiet (log tag message : M (World E) unit).
Proof. intros w. repeat split. Qed.

Lemma quiet_Date_now : quiet (Date_now : M (World E) Z).
Proof. intros w. repeat split. Qed.

Lemma quiet_on_ext {A} (m : M E A) : quiet (on_ext m).
Proof. intros w. unfold on_ext. destruct (m (ext w)). repeat split. Qed.

Lemma quiet_start (api : ApiServer E) (listened : result unit) :
  quiet (start api listened).
Proof.
  unfold start. apply quiet_bind; [intros w; repeat split|]. intros _.
  apply quiet_bind; [intros w; repeat split|]. intros _.
  destruct listened; [apply quiet_log|].
  apply quiet_bind; [apply quiet_log | intros _; apply quiet_throw].
Qed.

End Quiet.

Create HintDb quiets.

#[local] Hint Resolve quiet_ret quiet_throw quiet_pure quiet_log quiet_Date_now
  quiet_on_ext : quiets.

Ltac quiet_step :=
  first
    [ apply quiet_bind; [|intros ?]
    | apply quiet_try_catch; [|intros ?]
    | solve [auto with quiets]
    | match goal with
      | |- quiet (match ?x with _ => _ end) => destruct x
      | |- quiet (if ?b then _ else _) => destruct b
      end ].

Section Transitions.
Context `{Host} {E : Type}.
Implicit Types (w : World E) (l : LoopProcess).
Variable api : ApiServer E.

Lemma quiet_handleCreatePlan req res : quiet (handleCreatePlan api req res).
Proof. unfold handleCreatePlan. repeat quiet_step. Qed.

Lemma quiet_handleSavePlan req res : quiet (handleSavePlan api req res).
Proof. unfold handleSavePlan. repeat quiet_step. Qed.

Lemma quiet_handleLoopStatus res : quiet (E:=E) (handleLoopStatus res).
Proof. intros w. repeat split. Qed.

Lemma quiet_handleClearSessions res : quiet (handleClearSessions api res).
Proof. unfold handleClearSessions. repeat quiet_step. Qed.

(** Cancelling touches neither the activations nor the processes spawned. *)
Lemma cancel_entry_await (entry : string * nat) w :
  awaiting (cancel_entry entry w).2 = awaiting w /\
  spawned (cancel_entry entry w).2 = spawned w.
Proof.
  unfold cancel_entry. destruct (heap w !! entry.2) as [l|]; [|split; reflexivity].
  destruct (process l); [|split; reflexivity].
  destruct (is_running (status l)); split; reflexivity.
Qed.

Lemma cancel_loop_await (entries : list (string * nat)) w :
  awaiting (for_of entries cancel_entry w).2 = awaiting w /\
  spawned (for_of entries cancel_entry w).2 = spawned w.
Proof.
  revert w. induction entries as [|entry rest IH]; intros w; cbn [for_of].
  - split; reflexivity.
  - unfold bind. destruct (cancel_entry_await entry w) as [Ha Hs].
    destruct (cancel_entry_run entry w) as (w0 & Hrun & _).
    rewrite Hrun in Ha, Hs |- *. cbn [snd] in Ha, Hs.
    destruct (IH w0) as [Ha' Hs']. split; congruence.
Qed.

(** What handling one event does to the loops; [stopping] tells the runs
    of [stop] from the others. *)
Inductive transition (stopping : bool) w w' : Prop :=
| t_quiet :
    heap w' = heap w -> activeLoops w' = activeLoops w ->
    next_ref w' = next_ref w -> awaiting w' = awaiting w ->
    spawned w' = spawned w ->
    transition stopping w w'
| t_cancel (refs : list nat) :
    (forall ref, heap w' !! ref =
       if bool_decide (ref ∈ refs) then cancelled_loop <$> heap w !! ref
       else heap w !! ref) ->
    activeLoops w' = (if stopping then [] else activeLoops w) ->
    next_ref w' = next_ref w -> awaiting w' = awaiting w ->
    spawned w' = spawned w ->
    transition stopping w w'
| t_start (name : string) (l0 l' : LoopProcess) (wd : string) :
    heap w' = <[next_ref w := l']> (heap w) ->
    activeLoops w' = Map_set (activeLoops w) name (next_ref w) ->
    next_ref w' = S (next_ref w) ->
    id l0 = name -> status l0 = running -> process l0 = None ->
    currentIteration l0 = 0 ->
    outcome (next_ref w) wd 1 l0 l' (awaiting w) (awaiting w')
            (spawned w) (spawned w') ->
    transition stopping w w'
| t_settle (pid : nat) (a : Activation) (l l' : LoopProcess) :
    awaiting w !! pid = Some a -> heap w !! act_loop a = Some l ->
    heap w' = <[act_loop a := l']> (heap w) ->
    activeLoops w' = activeLoops w -> next_ref w' = next_ref w ->
    outcome (act_loop a) (act_workDir a) (act_i a + 1) l l'
            (delete pid (awaiting w)) (awaiting w') (spawned w) (spawned w') ->
    transition stopping w w'.

Lemma quiet_transition {A} (m : M (World E) A) s w :
  quiet m -> transition s w (m w).2.
Proof. intros Hm. destruct (Hm w) as (?&?&?&?&?). apply t_quiet; assumption. Qed.

Lemma transition_then_quiet {A B} (m : M (World E) A) (k : M (World E) B) s w :
  transition s w (m w).2 -> quiet k -> transition s w (k (m w).2).2.
Proof.
  intros Ht Hk. destruct (Hk (m w).2) as (Hh & Ha & Hn & Haw & Hs).
  destruct Ht as [?????|refs ?????|name l0 l' wd ????????|pid a l l' ??????].
  - apply t_quiet; congruence.
  - apply (t_cancel _ _ _ refs); rewrite ?Hh, ?Ha, ?Hn, ?Haw, ?Hs; assumption.
  - apply (t_start _ _ _ name l0 l' wd); rewrite ?Hh, ?Ha, ?Hn, ?Haw, ?Hs;
      assumption.
  - apply (t_settle _ _ _ pid a l l'); rewrite ?Hh, ?Ha, ?Hn, ?Haw, ?Hs;
      assumption.
Qed.

(** *** The second invariant of the server *)

(** A registered loop carries the name it is registered under; an
    activation awaits the latest process of its loop, which is running or
    cancelled; and a running loop has an activation awaiting its process. *)
Record linked w : Prop := mkLinked {
  linked_names :
    forall name ref, (name, ref) ∈ activeLoops w ->
      exists l, heap w !! ref = Some l /\ id l = name;
  linked_awaiting :
    forall pid a, awaiting w !! pid = Some a ->
      (pid < spawned w)%nat /\
      exists l, heap w !! act_loop a = Some l /\ process l = Some pid /\
                currentIteration l = act_i a /\
                (status l = running \/ status l = cancelled);
  linked_running :
    forall ref l, heap w !! ref = Some l -> status l = running ->
      exists pid a, process l = Some pid /\ awaiting w !! pid = Some a /\
                    act_loop a = ref
}.

Lemma cancelled_loop_cases l :
  cancelled_loop l = l \/
  (cancelled_loop l = set_status cancelled l /\ status l = running).
Proof.
  unfold cancelled_loop, cancelling. destruct (process l); [|left; reflexivity].
  destruct (status l); cbn; auto.
Qed.

Lemma cancel_lookup (refs : list nat) w w' :
  (forall ref, heap w' !! ref =
     if bool_decide (ref ∈ refs) then cancelled_loop <$> heap w !! ref
     else heap w !! ref) ->
  (forall ref l, heap w !! ref = Some l ->
     exists l', heap w' !! ref = Some l' /\
       (l' = l \/ (l' = set_status cancelled l /\ status l = running))) /\
  (forall ref l', heap w' !! ref = Some l' ->
     exists l, heap w !! ref = Some l /\
       (l' = l \/ (l' = set_status cancelled l /\ status l = running))).
Proof.
  intros Hh. split.
  - intros ref l Hl. rewrite Hh, Hl. destruct (bool_decide _); cbn; [|eauto].
    eexists. split; [reflexivity|].
    destruct (cancelled_loop_cases l) as [->|[-> ?]]; auto.
  - intros ref l' Hl'. rewrite Hh in Hl'.
    destruct (heap w !! ref) as [l|]; [|destruct (bool_decide _); discriminate].
    exists l. split; [reflexivity|].
    destruct (bool_decide _); cbn in Hl'; injection Hl' as <-; [|auto].
    destruct (cancelled_loop_cases l) as [->|[-> ?]]; auto.
Qed.

Lemma transition_linked s w w' :
  wf w -> linked w -> transition s w w' -> linked w'.
Proof.
  intros Hwf [L1 L2 L3]
    [Hh Ha Hn Haw Hs|refs Hh Ha Hn Haw Hs
    |name l0 l' wd Hh Ha Hn Hid Hst Hproc Hcur (Hrec & Hout)
    |pid a l l' Hact Hl Hh Ha Hn (Hrec & Hout)].
  - split; rewrite ?Hh, ?Ha, ?Haw, ?Hs; assumption.
  - destruct (cancel_lookup refs w w' Hh) as [Hfwd Hbwd]. split.
    + intros name ref Hin.
      assert (Hin' : (name, ref) ∈ activeLoops w).
      { rewrite Ha in Hin. destruct s; [inversion Hin | exact Hin]. }
      destruct (L1 name ref Hin') as (l & Hl & Hid).
      destruct (Hfwd ref l Hl) as (l' & Hl' & [->|[-> _]]); eauto.
    + intros pid a Hact. rewrite Haw in Hact. rewrite Hs.
      destruct (L2 pid a Hact) as (Hlt & l & Hl & Hp & Hc & Hst).
      split; [exact Hlt|].
      destruct (Hfwd _ l Hl) as (l' & Hl' & [->|[-> _]]); eauto 10.
    + intros ref l' Hl' Hrun.
      destruct (Hbwd ref l' Hl') as (l & Hl & [->|[-> _]]); [|discriminate].
      rewrite Haw. eauto.
  - pose proof (wf_fresh w Hwf) as Hfresh.
    assert (Hold : forall r l, heap w !! r = Some l -> heap w' !! r = Some l).
    { intros r l Hl. rewrite Hh, lookup_insert_ne by congruence. exact Hl. }
    assert (Hnew : heap w' !! next_ref w = Some l')
      by (rewrite Hh; apply lookup_insert_eq).
    split.
    + intros name' r Hin. rewrite Ha in Hin.
      apply elem_of_Map_set in Hin as [Hin|[-> ->]].
      * destruct (L1 name' r Hin) as (l & Hl & Hidl). eauto.
      * exists l'. split; [exact Hnew|]. destruct Hrec as (-> & _). exact Hid.
    + intros pid a Hact.
      destruct Hout as [(Haw & _ & _ & Hsp & _)
                       |(Haw & Hsp & _ & Hrun' & Hproc' & Hcur')];
        rewrite Haw in Hact.
      * destruct (L2 pid a Hact) as (Hlt & l & Hl & Hrest).
        split; [lia|]. eauto.
      * apply lookup_insert_Some in Hact as [[<- <-]|[Hne Hact]].
        -- split; [lia|]. exists l'. cbn. auto.
        -- destruct (L2 pid a Hact) as (Hlt & l & Hl & Hrest).
           split; [lia|]. eauto.
    + intros r lr Hlr Hrun. destruct (decide (r = next_ref w)) as [->|Hne].
      * rewrite Hnew in Hlr. injection Hlr as <-.
        destruct Hout as [(_ & Hnot & _)|(Haw & _ & _ & _ & Hproc' & _)];
          [contradiction|].
        eexists _, _. split; [exact Hproc'|]. rewrite Haw.
        split; [apply lookup_insert_eq | reflexivity].
      * rewrite Hh, lookup_insert_ne in Hlr by congruence.
        destruct (L3 r lr Hlr Hrun) as (p & a & Hp & Hact & Hloop).
        exists p, a. split; [exact Hp|]. split; [|exact Hloop].
        destruct Hout as [(Haw & _)|(Haw & _)]; rewrite Haw; [exact Hact|].
        rewrite lookup_insert_ne; [exact Hact|].
        destruct (L2 p a Hact) as (Hlt & _). lia.
  - destruct (L2 pid a Hact) as (Hpid & l1 & Hl1 & Hp1 & _).
    rewrite Hl in Hl1. injection Hl1 as <-.
    assert (Hnew : heap w' !! act_loop a = Some l')
      by (rewrite Hh; apply lookup_insert_eq).
    assert (Hother : forall p' a', p' <> pid -> awaiting w !! p' = Some a' ->
              act_loop a' <> act_loop a).
    { intros p' a' Hne Hact' Heq.
      destruct (L2 p' a' Hact') as (_ & l2 & Hl2 & Hp2 & _).
      rewrite Heq, Hl in Hl2. injection Hl2 as <-. congruence. }
    split.
    + intros name r Hin. rewrite Ha in Hin.
      destruct (L1 name r Hin) as (lr & Hlr & Hidr).
      destruct (decide (r = act_loop a)) as [->|Hne].
      * rewrite Hl in Hlr. injection Hlr as <-. exists l'.
        split; [exact Hnew|]. destruct Hrec as (-> & _). exact Hidr.
      * exists lr. rewrite Hh, lookup_insert_ne by congruence. auto.
    + intros p' a' Hact'.
      assert (Hkept : p' <> pid -> awaiting w !! p' = Some a' ->
                (p' < spawned w')%nat /\
                exists l0, heap w' !! act_loop a' = Some l0 /\
                  process l0 = Some p' /\ currentIteration l0 = act_i a' /\
                  (status l0 = running \/ status l0 = cancelled)).
      { intros Hne Hold. destruct (L2 p' a' Hold) as (Hlt & l0 & Hl0 & Hrest).
        split.
        - destruct Hout as [(_ & _ & _ & Hsp & _)|(_ & Hsp & _)]; lia.
        - exists l0. rewrite Hh, lookup_insert_ne; [auto|].
          intros Heq. exact (Hother p' a' Hne Hold (eq_sym Heq)). }
      destruct Hout as [(Haw & _)|(Haw & Hsp & _ & Hrun' & Hproc' & Hcur')];
        rewrite Haw in Hact'.
      * apply lookup_delete_Some in Hact' as [Hne Hold]. apply Hkept; auto.
      * apply lookup_insert_Some in Hact' as [[<- <-]|[Hne' Hact']].
        -- split; [lia|]. exists l'. cbn. auto.
        -- apply lookup_delete_Some in Hact' as [Hne Hold]. apply Hkept; auto.
    + intros r lr Hlr Hrun. destruct (decide (r = act_loop a)) as [->|Hne].
      * rewrite Hnew in Hlr. injection Hlr as <-.
        destruct Hout as [(_ & Hnot & _)|(Haw & _ & _ & _ & Hproc' & _)];
          [contradiction|].
        eexists _, _. split; [exact Hproc'|]. rewrite Haw.
        split; [apply lookup_insert_eq | reflexivity].
      * rewrite Hh, lookup_insert_ne in Hlr by congruence.
        destruct (L3 r lr Hlr Hrun) as (p & a' & Hp & Hact' & Hloop).
        assert (Hpne : p <> pid).
        { intros ->. rewrite Hact in Hact'. injection Hact' as <-. congruence. }
        exists p, a'. split; [exact Hp|]. split; [|exact Hloop].
        destruct (L2 p a' Hact') as (Hlt & _).
        destruct Hout as [(Haw & _)|(Haw & _)]; rewrite Haw.
        -- rewrite lookup_delete_ne by congruence. exact Hact'.
        -- rewrite lookup_insert_ne by lia.
           rewrite lookup_delete_ne by congruence. exact Hact'.
Qed.

(** *** Every event is one of the transitions *)

(** The loop object [startLoopProcess] creates. *)
Definition new_loop (name : string) (its : Q) (instant : Z) : LoopProcess :=
  mkLoop name None its 0 running [] (toISOString instant).

(** The world in which [startLoopProcess] calls [runIterations]. *)
Definition registered (name : string) (its : Q) w : World E :=
  set_activeLoops (Map_set (activeLoops w) name (next_ref w))
    (set_next_ref (S (next_ref w))
       (set_heap (<[next_ref w := new_loop name its (clock w (reads w))]> (heap w))
          (set_reads (S (reads w)) w))).

Lemma startLoopProcess_eq name its wd w :
  startLoopProcess name its wd w =
    runIterations_from (next_ref w) wd 1 (registered name its w).
Proof. reflexivity. Qed.

Lemma startLoopProcess_transition name its wd w :
  exists w',
    startLoopProcess name its wd w = (Ok tt, w') /\ transition false w w'.
Proof.
  rewrite startLoopProcess_eq.
  destruct (from_outcome (next_ref w) wd 1 (registered name its w)
              (new_loop name its (clock w (reads w))))
    as (w' & l' & t & Hrun & (Hh & _ & _ & _ & Hu) & Hout);
    [apply lookup_insert_eq|].
  exists w'. split; [exact Hrun|].
  destruct Hu as (_ & Ha & Hn & _).
  apply (t_start _ _ _ name (new_loop name its (clock w (reads w))) l' wd);
    try reflexivity; try assumption.
  rewrite Hh. cbn. apply insert_insert_eq.
Qed.

Lemma try_catch_transition {A} (m : M (World E) A) (h : JsError -> M (World E) A)
    s w :
  transition s w (m w).2 -> (forall e, quiet (h e)) ->
  transition s w (try_catch m h w).2.
Proof.
  intros Hm Hh. unfold try_catch.
  destruct (m w) as [[a|e] w1] eqn:Hrun; [exact Hm|].
  replace w1 with ((m w).2) by (rewrite Hrun; reflexivity).
  apply (transition_then_quiet m (h e) s w); [|apply Hh].
  rewrite Hrun. exact Hm.
Qed.

Lemma handleStartLoop_transition req res w :
  transition false w (handleStartLoop api req res w).2.
Proof.
  unfold handleStartLoop, bind at 1.
  destruct (parsed req) as [body|e]; [|apply t_quiet; reflexivity].
  destruct (b_iterations body) as [its|]; [|apply t_quiet; reflexivity].
  destruct (invalid_iterations (Some its)); [apply t_quiet; reflexivity|].
  unfold bind at 1, Date_now. unfold bind at 1, log, emit, modify.
  unfold bind at 1.
  match goal with |- context [startLoopProcess ?name ?q ?wd ?w1] =>
    destruct (startLoopProcess_transition name q wd w1) as (w' & -> & Ht)
  end.
  unfold ret. cbn [snd].
  destruct Ht as [?????|refs ?????|name l0 l' wd ????????|pid a l l' ??????];
    world_simpl.
  - apply t_quiet; assumption.
  - apply (t_cancel _ _ _ refs); assumption.
  - apply (t_start _ _ _ name l0 l' wd); assumption.
  - apply (t_settle _ _ _ pid a l l'); assumption.
Qed.

Lemma handleCancelLoop_transition req res w :
  transition false w (handleCancelLoop req res w).2.
Proof.
  unfold handleCancelLoop, bind at 1.
  destruct (parsed req) as [body|e]; [|apply t_quiet; reflexivity].
  destruct (b_loopId body) as [loopId|]; [|apply t_quiet; reflexivity].
  destruct (String.eqb loopId EmptyString); [apply t_quiet; reflexivity|].
  destruct (Map_get (activeLoops w) loopId) as [ref|];
    [|apply t_quiet; reflexivity].
  unfold bind.
  destruct (cancel_entry_await (loopId, ref) w) as [Haw Hs].
  destruct (cancel_entry_run (loopId, ref) w)
    as (w' & Hrun & Hh & _ & Ha & Hn & _).
  rewrite Hrun in Haw, Hs |- *. cbn [snd] in *.
  apply (t_cancel _ _ _ [ref]); auto.
  intros r. rewrite Hh, lookup_alter. cbn [snd].
  destruct (decide (ref = r)) as [->|Hne].
  - rewrite bool_decide_eq_true_2 by apply list_elem_of_here. reflexivity.
  - rewrite bool_decide_eq_false_2; [reflexivity|].
    intros Hin. apply list_elem_of_singleton in Hin. congruence.
Qed.

Lemma handleRequest_transition req res w :
  transition false w (handleRequest api req res w).2.
Proof.
  unfold handleRequest.
  destruct (String.eqb (method req) "OPTIONS"); [apply t_quiet; reflexivity|].
  unfold bind at 1.
  destruct (URL_pathname (default "/" (url req))) as [path|e];
    [|apply t_quiet; reflexivity].
  apply try_catch_transition; [|intros e; repeat quiet_step].
  repeat match goal with
         | |- context [if ?b then _ else _] => destruct b
         end.
  - apply quiet_transition, quiet_handleCreatePlan.
  - apply quiet_transition, quiet_handleSavePlan.
  - apply handleStartLoop_transition.
  - apply quiet_transition, quiet_handleLoopStatus.
  - apply handleCancelLoop_transition.
  - apply quiet_transition, quiet_handleClearSessions.
  - apply t_quiet; reflexivity.
Qed.

Lemma process_settled_transition pid ev w :
  linked w -> transition false w (process_settled pid ev w).2.
Proof.
  intros Hlinked. unfold process_settled.
  destruct (awaiting w !! pid) as [a|] eqn:Hact; [|apply t_quiet; reflexivity].
  destruct (linked_awaiting w Hlinked pid a Hact) as (_ & l & Hl & _).
  destruct (resume_outcome a (settle ev) (set_awaiting (delete pid (awaiting w)) w) l)
    as (w' & l' & t & -> & (Hh & _ & _ & _ & Hu) & Hout); [exact Hl|].
  destruct Hu as (_ & Ha & Hn & _). cbn [snd].
  apply (t_settle _ _ _ pid a l l'); assumption.
Qed.

Lemma stop_transition w : transition true w (stop w).2.
Proof.
  unfold stop, bind at 1, cancel_active_loops, bind at 1, gets.
  destruct (cancel_loop_await (activeLoops w) w) as [Haw Hs].
  destruct (cancel_loop_run (activeLoops w) w)
    as (w1 & kills & Hrun & Ha & Hn & _ & _ & _ & Hh & _).
  rewrite Hrun in Haw, Hs |- *. cbn [snd] in Haw, Hs.
  unfold bind at 1, clear_active_loops, modify, close_server, bind, gets.
  world_simpl.
  destruct (server w1); cbn [snd];
    apply (t_cancel _ _ _ (activeLoops w).*2); world_simpl; auto.
Qed.

Definition is_stop (ev : Event) : bool :=
  match ev with EvStop => true | _ => false end.

Lemma step_transition ev w :
  linked w -> transition (is_stop ev) w (step api ev w).
Proof.
  intros Hlinked. destruct ev as [listened|req|pid pev|]; cbn [step].
  - apply quiet_transition, quiet_start.
  - apply handleRequest_transition.
  - apply process_settled_transition, Hlinked.
  - apply stop_transition.
Qed.

Lemma reachable_linked w : reachable api w -> linked w.
Proof.
  induction 1 as [w (_ & Ha & Hh & Haw & _)|w ev Hreach IH].
  - split.
    + intros name ref Hin. rewrite Ha in Hin. inversion Hin.
    + intros pid a Hact. rewrite Haw, lookup_empty in Hact. discriminate.
    + intros ref l Hl. rewrite Hh, lookup_empty in Hl. discriminate.
  - exact (transition_linked _ _ _ (reachable_wf api w Hreach) IH
             (step_transition ev w IH)).
Qed.

End Transitions.

(** ** The life of a loop, step by step *)

Section Life.
Context `{Host} {E : Type}.
Implicit Types (w : World E) (l : LoopProcess).
Variable api : ApiServer E.

Lemma step_process pid ev w a :
  awaiting w !! pid = Some a ->
  step api (EvProcess pid ev) w =
    (runIterations_resume a (settle ev)
       (set_awaiting (delete pid (awaiting w)) w)).2.
Proof. intros Hact. cbn [step]. unfold process_settled. rewrite Hact. reflexivity. Qed.

(** The world in which [handleStartLoop] calls [startLoopProcess]. *)
Definition announced (message : string) w : World E :=
  set_trace (trace w ++ [ELog "API" message]) (set_reads (S (reads w)) w).

Definition loop_name w : string := "loop-" +:+ pretty (clock w (reads w)).

Definition start_answer (name : string) (its : Q) (res : Response) : Response :=
  send_json 200 (JObj [("success", JBool true); ("loopId", JStr name);
                       ("iterations", JNum its)]) res.

Lemma valid_iterations (its : Q) :
  (1 <= its)%Q -> invalid_iterations (Some its) = false.
Proof.
  intros Hone. cbn. apply orb_false_iff. split.
  - destruct (Qeq_bool its 0) eqn:Hz; [|reflexivity].
    apply Qeq_bool_iff in Hz. lra.
  - apply negb_false_iff, Qle_bool_iff, Hone.
Qed.

Lemma handleStartLoop_eq req body its res w :
  parsed req = Ok body -> b_iterations body = Some its -> (1 <= its)%Q ->
  exists message,
    handleStartLoop api req res w =
      bind (runIterations_from (next_ref w) (default (workDir api) (b_workDir body)) 1)
           (fun _ => ret (start_answer (loop_name w) its res))
           (registered (loop_name w) its (announced message w)).
Proof.
  intros Hbody Hits Hone. unfold handleStartLoop, bind at 1. rewrite Hbody, Hits.
  rewrite (valid_iterations its Hone).
  exists ("Starting loop " +:+ loop_name w +:+ " with " +:+
          Number_toString its +:+ " iterations in " +:+
          default (workDir api) (b_workDir body)).
  unfold bind at 1, Date_now. unfold bind at 1, log, emit, modify.
  unfold bind at 1. rewrite startLoopProcess_eq. reflexivity.
Qed.

Lemma route_loop_start_any req res w :
  method req = "POST" ->
  URL_pathname (default "/" (url req)) = Ok "/api/loop/start" ->
  handleRequest api req res w =
    try_catch
      (handleStartLoop api req (setCorsHeaders res))
      (fun error =>
         bind (log "API" ("Error handling " +:+ "/api/loop/start" +:+ ": " +:+
                          String_of_error error)) (fun _ =>
         ret (send_json 500 (JObj [("error", JStr (String_of_error error))])
                        (setCorsHeaders res)))) w.
Proof.
  intros Hm Hp. unfold handleRequest. rewrite Hm.
  change (String.eqb "POST" "OPTIONS") with false. cbv iota.
  unfold bind at 1. rewrite Hp. reflexivity.
Qed.

(** A valid request to start a loop whose first command is spawned. *)
Lemma start_loop_spawned req body its w :
  method req = "POST" ->
  URL_pathname (default "/" (url req)) = Ok "/api/loop/start" ->
  parsed req = Ok body -> b_iterations body = Some its -> (1 <= its)%Q ->
  spawn_error w (spawned w) = None ->
  let wd := default (workDir api) (b_workDir body) in
  exists w' message message',
    handleRequest api req fresh_response w =
      (Ok (start_answer (loop_name w) its (setCorsHeaders fresh_response)), w') /\
    heap w' = <[next_ref w :=
                  mkLoop (loop_name w) (Some (spawned w)) its 1 running []
                         (toISOString (clock w (S (reads w))))]> (heap w) /\
    activeLoops w' = Map_set (activeLoops w) (loop_name w) (next_ref w) /\
    next_ref w' = S (next_ref w) /\
    awaiting w' = <[spawned w := mkActivation (next_ref w) 1 wd]> (awaiting w) /\
    spawned w' = S (spawned w) /\
    reads w' = S (S (reads w)) /\
    trace w' = trace w ++ [ELog "API" message; ELog "API" message';
                           ESpawn (spawned w) "claude" claude_args wd] /\
    server w' = server w /\ spawn_error w' = spawn_error w /\
    clock w' = clock w /\ ext w' = ext w.
Proof.
  intros Hm Hp Hbody Hits Hone Hspawn wd.
  rewrite (route_loop_start_any _ _ _ Hm Hp). unfold try_catch.
  destruct (handleStartLoop_eq req body its (setCorsHeaders fresh_response) w
              Hbody Hits Hone) as (message & ->).
  unfold bind.
  destruct (from_spawned (next_ref w) wd 1
              (registered (loop_name w) its (announced message w))
              (new_loop (loop_name w) its (clock w (S (reads w)))))
    as (w' & message' & Hrun & Hh & Ha & Hs & Ht & Hu);
    [apply lookup_insert_eq| |reflexivity|exact Hspawn|].
  { cbn [iterations new_loop]. apply Qle_bool_iff. exact Hone. }
  fold wd. rewrite Hrun. unfold ret.
  destruct Hu as (Hsrv & Hact & Hn & Herr & Hclk & Hrd & Hext).
  exists w', message, message'. split; [reflexivity|].
  unfold registered, announced in *. world_simpl.
  rewrite insert_insert_eq in Hh. rewrite <- app_assoc in Ht.
  repeat split; assumption.
Qed.


(** The command of iteration [i] ended well, without announcing
    completion, and iterations remain: the next command is spawned. *)
Lemma iteration_goes_on pid ev out i wd ref w l :
  heap w !! ref = Some l -> status l = running ->
  awaiting w !! pid = Some (mkActivation ref i wd) ->
  settle ev = Ok out -> includes marker out = false ->
  Qle_bool (inject_Z (i + 1)) (iterations l) = true ->
  spawn_error w (spawned w) = None ->
  let w' := step api (EvProcess pid ev) w in
  heap w' = <[ref := set_process (Some (spawned w))
                       (set_currentIteration (i + 1) (record_output i out l))]>
              (heap w) /\
  awaiting w' = <[spawned w := mkActivation ref (i + 1) wd]>
                  (delete pid (awaiting w)) /\
  spawned w' = S (spawned w) /\ spawn_error w' = spawn_error w /\
  activeLoops w' = activeLoops w.
Proof.
  intros Hl Hrun Hact Hsettle Hmark Hle Hspawn w'. subst w'.
  rewrite (step_process pid ev w _ Hact), Hsettle.
  rewrite (resume_next _ out _ l) by (cbn; assumption). cbn [act_loop act_i act_workDir].
  match goal with |- context [runIterations_from ref wd (i + 1) ?w1] =>
    destruct (from_spawned ref wd (i + 1) w1 (record_output i out l))
      as (w' & message & -> & Hh & Ha & Hs & _ & Hu);
      [world_simpl; apply lookup_insert_eq|exact Hle|exact Hrun|exact Hspawn|]
  end.
  destruct Hu as (_ & Hreg & _ & Herr & _). cbn [snd]. world_simpl.
  rewrite insert_insert_eq in Hh. repeat split; assumption.
Qed.

(** The command of iteration [i] ended well and no iteration remains, or
    the loop is not running: the function ends. *)
Lemma iteration_was_last pid ev out i wd ref w l :
  heap w !! ref = Some l ->
  awaiting w !! pid = Some (mkActivation ref i wd) ->
  settle ev = Ok out -> includes marker out = false ->
  Qle_bool (inject_Z (i + 1)) (iterations l) && is_running (status l) = false ->
  let w' := step api (EvProcess pid ev) w in
  heap w' = <[ref := finish (record_output i out l)]> (heap w) /\
  awaiting w' = delete pid (awaiting w) /\ spawned w' = spawned w /\
  activeLoops w' = activeLoops w.
Proof.
  intros Hl Hact Hsettle Hmark Hcond w'. subst w'.
  rewrite (step_process pid ev w _ Hact), Hsettle.
  rewrite (resume_next _ out _ l) by (cbn; assumption). cbn [act_loop act_i act_workDir].
  match goal with |- context [runIterations_from ref wd (i + 1) ?w1] =>
    destruct (from_done ref wd (i + 1) w1 (record_output i out l))
      as (w' & t & -> & (Hh & Ha & Hs & _ & Hu) & _);
      [world_simpl; apply lookup_insert_eq|exact Hcond|]
  end.
  destruct Hu as (_ & Hreg & _). cbn [snd]. world_simpl.
  rewrite insert_insert_eq in Hh. repeat split; assumption.
Qed.

(** The events handled one after the other. *)
Definition run_events (events : list Event) w : World E :=
  fold_left (fun w ev => step api ev w) events w.

(** The commands with the numbers [pid], [pid + 1], ... end one after the
    other with exit code 0 and the outputs [outs]. *)
Fixpoint closes (pid : nat) (outs : list string) : list Event :=
  match outs with
  | [] => []
  | out :: rest =>
      EvProcess pid (PClose (Some 0) out EmptyString) :: closes (S pid) rest
  end.

(** The output lines of the iterations [i], [i + 1], ... *)
Fixpoint records (i : Z) (outs : list string) : list string :=
  match outs with
  | [] => []
  | out :: rest => heading_line i :: out :: records (i + 1) rest
  end.

Lemma remaining_iterations ref wd (outs : list string) :
  forall out i w l pid,
    heap w !! ref = Some l -> status l = running -> currentIteration l = i ->
    awaiting w !! pid = Some (mkActivation ref i wd) ->
    spawned w = S pid -> (forall k, spawn_error w k = None) ->
    Forall (fun o => includes marker o = false) (out :: outs) ->
    i + Z.of_nat (length outs) = Qfloor (iterations l) ->
    exists l',
      heap (run_events (closes pid (out :: outs)) w) !! ref = Some l' /\
      status l' = completed /\
      currentIteration l' = Qfloor (iterations l) /\
      output l' = output l ++ records i (out :: outs) /\
      spawned (run_events (closes pid (out :: outs)) w)
        = (spawned w + length outs)%nat /\
      activeLoops (run_events (closes pid (out :: outs)) w) = activeLoops w.
Proof.
  induction outs as [|out' outs IH];
    intros out i w l pid Hl Hrun Hcur Hact Hsp Hnone Hmarks Hlen;
    apply Forall_cons in Hmarks as [Hmark Hmarks].
  - cbn [closes run_events fold_left].
    cbn [length] in Hlen. rewrite Z.add_0_r in Hlen.
    assert (Hcond : Qle_bool (inject_Z (i + 1)) (iterations l)
                    && is_running (status l) = false).
    { apply andb_false_iff. left.
      destruct (Qle_bool (inject_Z (i + 1)) (iterations l)) eqn:Hle; [|reflexivity].
      apply Qle_bool_iff in Hle. pose proof (Qlt_floor (iterations l)) as Hlt.
      rewrite <- Hlen in Hlt. lra. }
    destruct (iteration_was_last pid (PClose (Some 0) out EmptyString) out i wd
                ref w l Hl Hact eq_refl Hmark Hcond) as (Hh & _ & Hs & Ha).
    exists (finish (record_output i out l)).
    rewrite Hh, lookup_insert_eq, Hs, Ha. unfold finish. cbn. rewrite Hrun. cbn.
    rewrite <- app_assoc, Nat.add_0_r. repeat split; congruence.
  - change (run_events (closes pid (out :: out' :: outs)) w)
      with (run_events (closes (S pid) (out' :: outs))
              (step api (EvProcess pid (PClose (Some 0) out EmptyString)) w)).
    cbn [length] in Hlen.
    assert (Hle : Qle_bool (inject_Z (i + 1)) (iterations l) = true).
    { apply Qle_bool_iff. pose proof (Qfloor_le (iterations l)) as Hfl.
      apply Qle_trans with (inject_Z (Qfloor (iterations l))); [|exact Hfl].
      rewrite <- Zle_Qle. lia. }
    destruct (iteration_goes_on pid (PClose (Some 0) out EmptyString) out i wd
                ref w l Hl Hrun Hact eq_refl Hmark Hle (Hnone _))
      as (Hh & Haw & Hs & Herr & Ha).
    set (w1 := step api (EvProcess pid (PClose (Some 0) out EmptyString)) w) in *.
    set (l1 := set_process (Some (spawned w))
                 (set_currentIteration (i + 1) (record_output i out l))) in *.
    destruct (IH out' (i + 1) w1 l1 (spawned w)) as (l' & Hl' & Hst & Hc & Ho & Hs' & Ha').
    + rewrite Hh. apply lookup_insert_eq.
    + exact Hrun.
    + reflexivity.
    + rewrite Haw. apply lookup_insert_eq.
    + exact Hs.
    + intros k. rewrite Herr. apply Hnone.
    + exact Hmarks.
    + change (iterations l1) with (iterations l). lia.
    + exists l'. rewrite <- Hsp. split; [exact Hl'|]. split; [exact Hst|].
      split; [exact Hc|]. split.
      { rewrite Ho. cbn. rewrite <- !app_assoc. reflexivity. }
      split; [rewrite Hs', Hs; cbn; lia|]. rewrite Ha'. exact Ha.
Qed.

End Life.

(** ** Sample states *)

(** The sample loop of three iterations once its first command announced
    completion, and once its first command failed. *)
Definition sample_completed : World unit :=
  step (H:=sample_host) sample_api
       (EvProcess 0 (PClose (Some 0) "<promise>COMPLETE</promise>" EmptyString))
       sample_looping.

Lemma sample_completed_reachable :
  reachable (H:=sample_host) sample_api sample_completed.
Proof. apply reach_step, sample_looping_reachable. Qed.

Definition sample_loop : LoopProcess :=
  mkLoop "loop-1700000000000" (Some 0%nat) 3 1 running [] "1700000000001".

Definition sample_loop_completed : LoopProcess :=
  mkLoop "loop-1700000000000" (Some 0%nat) 3 1 completed
         ["=== Iteration 1 ==="; "<promise>COMPLETE</promise>"] "1700000000001".

Lemma sample_looping_loop : heap sample_looping !! 0%nat = Some sample_loop.
Proof. vm_compute. reflexivity. Qed.

Lemma sample_completed_loop :
  heap sample_completed !! 0%nat = Some sample_loop_completed.
Proof. vm_compute. reflexivity. Qed.

(** The sample loop once cancelled. *)
Definition cancel_request (name : string) : Request :=
  mkRequest "POST" (Some "/api/loop/cancel")
            (Ok (mkBody None None None None (Some name))).

Definition sample_cancelled : World unit :=
  step (H:=sample_host) sample_api
       (EvRequest (cancel_request "loop-1700000000000")) sample_looping.

Lemma sample_cancelled_reachable :
  reachable (H:=sample_host) sample_api sample_cancelled.
Proof. apply reach_step, sample_looping_reachable. Qed.

(** A server whose clock stands still. *)
Definition sample_instant : World unit :=
  mkWorld None [] ∅ 0 ∅ 0 (fun _ => None) (fun _ => 1700000000000) 0 [] tt.

Lemma sample_instant_reachable :
  reachable (H:=sample_host) sample_api sample_instant.
Proof. apply reach_initial. repeat split. Qed.

(** ** Properties of the loops *)

(** X9: a loop that is completed or failed is final: no request, no end of a
    process and no [stop] changes anything of it afterwards. *)
Theorem finished_loops_are_frozen `{Host} {E : Type} (api : ApiServer E)
    (w : World E) (ev : Event) (ref : nat) (l : LoopProcess) :
  reachable api w -> heap w !! ref = Some l ->
  status l = completed \/ status l = failed ->
  heap (step api ev w) !! ref = Some l.
Proof.
  intros Hreach Hl Hfinal.
  pose proof (reachable_wf api w Hreach) as Hwf.
  pose proof (reachable_linked api w Hreach) as Hlinked.
  destruct (step_transition api ev w Hlinked)
    as [Hh _ _ _ _|refs Hh _ _ _ _
       |name l0 l' wd Hh _ _ _ _ _ _ _
       |pid a l1 l' Hact Hl1 Hh _ _ _].
  - rewrite Hh. exact Hl.
  - rewrite Hh, Hl. destruct (bool_decide _); [|reflexivity]. cbn.
    destruct (cancelled_loop_cases l) as [->|[_ Hrun]]; [reflexivity|].
    destruct Hfinal; congruence.
  - rewrite Hh, lookup_insert_ne; [exact Hl|].
    intros <-. rewrite (wf_fresh w Hwf) in Hl. discriminate.
  - rewrite Hh, lookup_insert_ne; [exact Hl|].
    intros <-. destruct (linked_awaiting w Hlinked pid a Hact)
      as (_ & l2 & Hl2 & _ & _ & Hst).
    rewrite Hl in Hl2. injection Hl2 as <-.
    destruct Hfinal, Hst; congruence.
Qed.

Lemma finished_loops_are_frozen_witness :
  reachable (H:=sample_host) sample_api sample_completed /\
  heap sample_completed !! 0%nat = Some sample_loop_completed /\
  heap (step (H:=sample_host) sample_api EvStop sample_completed) !! 0%nat
    = Some sample_loop_completed.
Proof.
  split; [exact sample_completed_reachable|].
  split; [exact sample_completed_loop|].
  exact (finished_loops_are_frozen (H:=sample_host) sample_api sample_completed
           EvStop 0 sample_loop_completed sample_completed_reachable
           sample_completed_loop (or_introl eq_refl)).
Defined.

(** X10: whatever happens, a loop object keeps its name, its number of
    iterations and its start time; its output is only added to; and its
    current iteration stays or goes up by one. *)
Theorem loop_records_only_grow `{Host} {E : Type} (api : ApiServer E)
    (w : World E) (ev : Event) (ref : nat) (l : LoopProcess) :
  reachable api w -> heap w !! ref = Some l ->
  exists l',
    heap (step api ev w) !! ref = Some l' /\
    id l' = id l /\ iterations l' = iterations l /\ startedAt l' = startedAt l /\
    output l `prefix_of` output l' /\
    currentIteration l <= currentIteration l' <= currentIteration l + 1.
Proof.
  intros Hreach Hl.
  pose proof (reachable_wf api w Hreach) as Hwf.
  pose proof (reachable_linked api w Hreach) as Hlinked.
  assert (Hsame : forall w' : World E, heap w' !! ref = Some l ->
            exists l', heap w' !! ref = Some l' /\
              id l' = id l /\ iterations l' = iterations l /\
              startedAt l' = startedAt l /\ output l `prefix_of` output l' /\
              currentIteration l <= currentIteration l' <= currentIteration l + 1).
  { intros w' Hl'. exists l. repeat split; try assumption; try lia. reflexivity. }
  destruct (step_transition api ev w Hlinked)
    as [Hh _ _ _ _|refs Hh _ _ _ _
       |name l0 l' wd Hh _ _ _ _ _ _ _
       |pid a l1 l' Hact Hl1 Hh _ _ (Hrec & Hout)].
  - apply Hsame. rewrite Hh. exact Hl.
  - destruct (cancel_lookup refs w _ Hh) as [Hfwd _].
    destruct (Hfwd ref l Hl) as (l' & Hl' & [->|[-> _]]); [apply Hsame, Hl'|].
    exists (set_status cancelled l). repeat split; try assumption; cbn; try lia.
    reflexivity.
  - apply Hsame. rewrite Hh, lookup_insert_ne; [exact Hl|].
    intros <-. rewrite (wf_fresh w Hwf) in Hl. discriminate.
  - destruct (decide (ref = act_loop a)) as [->|Hne].
    + rewrite Hl in Hl1. injection Hl1 as <-.
      destruct (linked_awaiting w Hlinked pid a Hact)
        as (_ & l2 & Hl2 & _ & Hcur & _).
      rewrite Hl in Hl2. injection Hl2 as <-.
      exists l'. split; [rewrite Hh; apply lookup_insert_eq|].
      destruct Hrec as (Hid & Hits & Hstart & Hpre).
      repeat split; try assumption;
        destruct Hout as [(_ & _ & _ & _ & [Hc|[_ Hc]])|(_ & _ & _ & _ & _ & Hc)];
        lia.
    + apply Hsame. rewrite Hh, lookup_insert_ne by congruence. exact Hl.
Qed.

Lemma loop_records_only_grow_witness :
  reachable (H:=sample_host) sample_api sample_looping /\
  heap sample_looping !! 0%nat = Some sample_loop /\
  exists l',
    heap sample_completed !! 0%nat = Some l' /\
    id l' = id sample_loop /\ iterations l' = iterations sample_loop /\
    startedAt l' = startedAt sample_loop /\
    output sample_loop `prefix_of` output l' /\
    currentIteration sample_loop <= currentIteration l'
      <= currentIteration sample_loop + 1.
Proof.
  split; [exact sample_looping_reachable|].
  split; [exact sample_looping_loop|].
  exact (loop_records_only_grow (H:=sample_host) sample_api sample_looping
           (EvProcess 0 (PClose (Some 0) "<promise>COMPLETE</promise>" EmptyString))
           0 sample_loop sample_looping_reachable sample_looping_loop).
Defined.

(** X11: only [stop] takes a loop off the register: whatever else happens, a
    name that is registered stays registered, so finished loops go on
    being listed. *)
Theorem registrations_last_until_stop `{Host} {E : Type} (api : ApiServer E)
    (w : World E) (ev : Event) (name : string) :
  reachable api w -> ev <> EvStop ->
  is_Some (Map_get (activeLoops w) name) ->
  is_Some (Map_get (activeLoops (step api ev w)) name).
Proof.
  intros Hreach Hev Hreg.
  pose proof (reachable_linked api w Hreach) as Hlinked.
  assert (Hstop : is_stop ev = false) by (destruct ev; try reflexivity; congruence).
  pose proof (step_transition api ev w Hlinked) as Ht. rewrite Hstop in Ht.
  destruct Ht as [_ Ha _ _ _|refs _ Ha _ _ _
                 |name' l0 l' wd _ Ha _ _ _ _ _ _
                 |pid a l1 l' _ _ _ Ha _ _]; rewrite Ha; try exact Hreg.
  rewrite Map_get_set. destruct (String.eqb name' name); [eauto | exact Hreg].
Qed.

Lemma registrations_last_until_stop_witness :
  reachable (H:=sample_host) sample_api sample_looping /\
  EvProcess 0 (PClose (Some 0) "<promise>COMPLETE</promise>" EmptyString) <> EvStop /\
  is_Some (Map_get (activeLoops sample_looping) "loop-1700000000000") /\
  is_Some (Map_get (activeLoops sample_completed) "loop-1700000000000").
Proof.
  assert (Hreg : is_Some (Map_get (activeLoops sample_looping) "loop-1700000000000"))
    by (vm_compute; eauto).
  split; [exact sample_looping_reachable|]. split; [discriminate|].
  split; [exact Hreg|].
  exact (registrations_last_until_stop (H:=sample_host) sample_api sample_looping
           (EvProcess 0 (PClose (Some 0) "<promise>COMPLETE</promise>" EmptyString))
           "loop-1700000000000" sample_looping_reachable
           ltac:(discriminate) Hreg).
Defined.

(** ** Starting a loop *)



(** ** The end of a command *)

(** X13: when the command of an iteration fails (an [error] event, or an exit
    code that is neither 0 nor missing) the loop becomes failed, whatever
    its status was, cancelled included: the line [Error in iteration i:
    ...] is added to its output and no further command is spawned. *)
Theorem failed_command_fails_the_loop `{Host} {E : Type} (api : ApiServer E)
    (w : World E) (pid : nat) (a : Activation) (ev : ProcessEvent)
    (error : JsError) :
  reachable api w -> awaiting w !! pid = Some a -> settle ev = Throw error ->
  let w' := step api (EvProcess pid ev) w in
  exists l l',
    heap w !! act_loop a = Some l /\ process l = Some pid /\
    heap w' !! act_loop a = Some l' /\
    status l' = failed /\
    output l' = output l ++ ["Error in iteration " +:+ pretty (currentIteration l)
                             +:+ ": " +:+ String_of_error error] /\
    currentIteration l' = currentIteration l /\
    spawned w' = spawned w /\ awaiting w' = delete pid (awaiting w).
Proof.
  intros Hreach Hact Hsettle w'. subst w'.
  pose proof (reachable_linked api w Hreach) as Hlinked.
  destruct (linked_awaiting w Hlinked pid a Hact) as (_ & l & Hl & Hp & Hcur & _).
  rewrite (step_process api pid ev w a Hact), Hsettle.
  destruct (resume_failed a error (set_awaiting (delete pid (awaiting w)) w) l Hl)
    as (w' & t & -> & (Hh & Ha & Hs & _) & _).
  exists l, (fail_with (act_i a) error l). cbn [snd].
  split; [exact Hl|]. split; [exact Hp|].
  split; [rewrite Hh; apply lookup_insert_eq|].
  rewrite Hcur. repeat split; assumption.
Qed.

Lemma failed_command_fails_the_loop_witness :
  let w' := step (H:=sample_host) sample_api
              (EvProcess 0 (PClose (Some 2) EmptyString "no PRD.md")) sample_looping in
  exists l',
    heap w' !! 0%nat = Some l' /\ status l' = failed /\
    output l' = ["Error in iteration 1: Error: Command failed with code 2: no PRD.md"] /\
    spawned w' = spawned sample_looping.
Proof.
  intros w'.
  assert (Hact : awaiting sample_looping !! 0%nat
                 = Some (mkActivation 0 1 "/srv/app"))
    by (vm_compute; reflexivity).
  assert (Hsettle : settle (PClose (Some 2) EmptyString "no PRD.md")
                    = Throw (Error_ "Command failed with code 2: no PRD.md"))
    by (vm_compute; reflexivity).
  destruct (failed_command_fails_the_loop (H:=sample_host) sample_api
              sample_looping 0 (mkActivation 0 1 "/srv/app")
              (PClose (Some 2) EmptyString "no PRD.md")
              (Error_ "Command failed with code 2: no PRD.md")
              sample_looping_reachable Hact Hsettle)
    as (l & l' & Hl & _ & Hl' & Hst & Hout & _ & Hsp & _).
  cbn [act_loop] in Hl, Hl'. rewrite sample_looping_loop in Hl. injection Hl as <-.
  exists l'. split; [exact Hl'|]. split; [exact Hst|].
  split; [rewrite Hout; vm_compute; reflexivity | exact Hsp].
Defined.

(** X14: when the output of a command contains [<promise>COMPLETE</promise>]
    the loop becomes completed, whatever its status was and however many
    iterations remain: the heading of the iteration and the output are
    added to its output and no further command is spawned. *)
Theorem complete_marker_completes_the_loop `{Host} {E : Type}
    (api : ApiServer E) (w : World E) (pid : nat) (a : Activation)
    (ev : ProcessEvent) (out : string) :
  reachable api w -> awaiting w !! pid = Some a -> settle ev = Ok out ->
  includes "<promise>COMPLETE</promise>" out = true ->
  let w' := step api (EvProcess pid ev) w in
  exists l l',
    heap w !! act_loop a = Some l /\ process l = Some pid /\
    heap w' !! act_loop a = Some l' /\
    status l' = completed /\
    output l' = output l ++ ["=== Iteration " +:+ pretty (currentIteration l)
                             +:+ " ==="; out] /\
    currentIteration l' = currentIteration l /\
    spawned w' = spawned w /\ awaiting w' = delete pid (awaiting w).
Proof.
  intros Hreach Hact Hsettle Hmark w'. subst w'.
  pose proof (reachable_linked api w Hreach) as Hlinked.
  destruct (linked_awaiting w Hlinked pid a Hact) as (_ & l & Hl & Hp & Hcur & _).
  rewrite (step_process api pid ev w a Hact), Hsettle.
  destruct (resume_complete a out (set_awaiting (delete pid (awaiting w)) w) l Hl
              Hmark) as (w' & t & -> & (Hh & Ha & Hs & _) & _).
  exists l, (set_status completed (record_output (act_i a) out l)). cbn [snd].
  split; [exact Hl|]. split; [exact Hp|].
  split; [rewrite Hh; apply lookup_insert_eq|].
  rewrite Hcur. cbn. rewrite <- app_assoc. repeat split; assumption.
Qed.

Lemma complete_marker_completes_the_loop_witness :
  exists l',
    heap sample_completed !! 0%nat = Some l' /\ status l' = completed /\
    output l' = ["=== Iteration 1 ==="; "<promise>COMPLETE</promise>"] /\
    spawned sample_completed = spawned sample_looping.
Proof.
  assert (Hact : awaiting sample_looping !! 0%nat
                 = Some (mkActivation 0 1 "/srv/app"))
    by (vm_compute; reflexivity).
  destruct (complete_marker_completes_the_loop (H:=sample_host) sample_api
              sample_looping 0 (mkActivation 0 1 "/srv/app")
              (PClose (Some 0) "<promise>COMPLETE</promise>" EmptyString)
              "<promise>COMPLETE</promise>"
              sample_looping_reachable Hact eq_refl
              ltac:(vm_compute; reflexivity))
    as (l & l' & Hl & _ & Hl' & Hst & Hout & _ & Hsp & _).
  cbn [act_loop] in Hl, Hl'. rewrite sample_looping_loop in Hl. injection Hl as <-.
  exists l'. split; [exact Hl'|]. split; [exact Hst|].
  split; [rewrite Hout; vm_compute; reflexivity | exact Hsp].
Defined.

(** X15: when the command of a cancelled loop ends well (exit code 0, or none
    because a signal ended it) without the completion marker, the loop
    stays cancelled: the heading of the iteration and the output are added
    to its output and no further command is spawned. *)
Theorem cancelled_loop_is_not_resumed `{Host} {E : Type} (api : ApiServer E)
    (w : World E) (pid : nat) (a : Activation) (l : LoopProcess)
    (ev : ProcessEvent) (out : string) :
  reachable api w -> awaiting w !! pid = Some a ->
  heap w !! act_loop a = Some l -> status l = cancelled ->
  settle ev = Ok out -> includes "<promise>COMPLETE</promise>" out = false ->
  let w' := step api (EvProcess pid ev) w in
  exists l',
    heap w' !! act_loop a = Some l' /\
    status l' = cancelled /\
    output l' = output l ++ ["=== Iteration " +:+ pretty (currentIteration l)
                             +:+ " ==="; out] /\
    currentIteration l' = currentIteration l /\ process l' = process l /\
    spawned w' = spawned w /\ awaiting w' = delete pid (awaiting w).
Proof.
  intros Hreach Hact Hl Hst Hsettle Hmark w'.
  pose proof (reachable_linked api w Hreach) as Hlinked.
  destruct (linked_awaiting w Hlinked pid a Hact) as (_ & l0 & Hl0 & _ & Hcur & _).
  rewrite Hl in Hl0. injection Hl0 as <-.
  destruct a as [ref i wd]. cbn [act_loop act_i] in *.
  destruct (iteration_was_last api pid ev out i wd ref w l Hl Hact Hsettle Hmark)
    as (Hh & Haw & Hs & _).
  { rewrite Hst. apply andb_false_r. }
  fold w' in Hh, Haw, Hs.
  exists (finish (record_output i out l)).
  split; [rewrite Hh; apply lookup_insert_eq|].
  unfold finish. cbn. rewrite Hst, Hcur. cbn. rewrite <- app_assoc.
  repeat split; assumption.
Qed.

Lemma cancelled_loop_is_not_resumed_witness :
  let w' := step (H:=sample_host) sample_api
              (EvProcess 0 (PClose None "interrupted" EmptyString))
              sample_cancelled in
  exists l',
    heap w' !! 0%nat = Some l' /\ status l' = cancelled /\
    output l' = ["=== Iteration 1 ==="; "interrupted"] /\
    spawned w' = spawned sample_cancelled.
Proof.
  intros w'.
  assert (Hact : awaiting sample_cancelled !! 0%nat
                 = Some (mkActivation 0 1 "/srv/app"))
    by (vm_compute; reflexivity).
  assert (Hl : heap sample_cancelled !! 0%nat
               = Some (set_status cancelled sample_loop))
    by (vm_compute; reflexivity).
  destruct (cancelled_loop_is_not_resumed (H:=sample_host) sample_api
              sample_cancelled 0 (mkActivation 0 1 "/srv/app")
              (set_status cancelled sample_loop)
              (PClose None "interrupted" EmptyString) "interrupted"
              sample_cancelled_reachable Hact Hl eq_refl eq_refl
              ltac:(vm_compute; reflexivity))
    as (l' & Hl' & Hst & Hout & _ & _ & Hsp & _).
  exists l'. split; [exact Hl'|]. split; [exact Hst|].
  split; [rewrite Hout; vm_compute; reflexivity | exact Hsp].
Defined.

(** X16: a loop runs as many commands as its number of iterations says,
    rounded down.  Started with [iterations >= 1], and with every command
    spawned and ending with exit code 0 and without the completion marker,
    the loop is completed when the last of these commands has ended: its
    current iteration is the number of iterations rounded down, its output
    holds the heading and the output of each iteration in turn, and no
    other command was spawned. *)
Theorem loop_runs_its_iterations `{Host} {E : Type} (api : ApiServer E)
    (req : Request) (b : Body) (its : Q) (w : World E) (outs : list string) :
  method req = "POST" ->
  URL_pathname (default "/" (url req)) = Ok "/api/loop/start" ->
  parsed req = Ok b -> b_iterations b = Some its -> (1 <= its)%Q ->
  (forall k, spawn_error w k = None) ->
  Z.of_nat (length outs) = Qfloor its ->
  Forall (fun out => includes "<promise>COMPLETE</promise>" out = false) outs ->
  let w' := run_events api (EvRequest req :: closes (spawned w) outs) w in
  exists l,
    Map_get (activeLoops w') ("loop-" +:+ pretty (clock w (reads w)))
      = Some (next_ref w) /\
    heap w' !! next_ref w = Some l /\
    status l = completed /\
    currentIteration l = Qfloor its /\
    output l = records 1 outs /\
    spawned w' = (spawned w + length outs)%nat.
Proof.
  intros Hm Hp Hbody Hits Hone Hnone Hlen Hmarks w'. subst w'.
  destruct outs as [|out outs].
  { exfalso. cbn in Hlen.
    pose proof (Qfloor_resp_le 1 its Hone) as Hfloor.
    change (Qfloor 1) with 1 in Hfloor. lia. }
  destruct (start_loop_spawned api req b its w Hm Hp Hbody Hits Hone (Hnone _))
    as (w1 & message & message' & Hrun & Hh & Ha & _ & Haw & Hs & _ & _ & _ & Herr & _).
  assert (Hstep : step api (EvRequest req) w = w1)
    by (cbn [step]; rewrite Hrun; reflexivity).
  change (run_events api (EvRequest req :: closes (spawned w) (out :: outs)) w)
    with (run_events api (closes (spawned w) (out :: outs))
            (step api (EvRequest req) w)).
  rewrite Hstep.
  destruct (remaining_iterations api (next_ref w)
              (default (workDir api) (b_workDir b)) outs out 1 w1
              (mkLoop (loop_name w) (Some (spawned w)) its 1 running []
                      (toISOString (clock w (S (reads w)))))
              (spawned w))
    as (l' & Hl' & Hst & Hcur & Hout & Hsp & Hreg).
  - rewrite Hh. apply lookup_insert_eq.
  - reflexivity.
  - reflexivity.
  - rewrite Haw. apply lookup_insert_eq.
  - exact Hs.
  - intros k. rewrite Herr. apply Hnone.
  - exact Hmarks.
  - cbn [iterations]. cbn [length] in Hlen. lia.
  - exists l'. rewrite Hreg, Ha, Map_get_set, String.eqb_refl.
    split; [reflexivity|]. split; [exact Hl'|]. split; [exact Hst|].
    split; [exact Hcur|]. split; [exact Hout|].
    rewrite Hsp, Hs. cbn [length]. lia.
Qed.

Lemma loop_runs_its_iterations_witness :
  let w' := run_events (H:=sample_host) sample_api
              (EvRequest (start_request (Some (5 # 2)%Q)) :: closes 0 ["one"; "two"])
              sample_listening in
  exists l,
    Map_get (activeLoops w') "loop-1700000000000" = Some 0%nat /\
    heap w' !! 0%nat = Some l /\
    status l = completed /\
    currentIteration l = 2 /\
    output l = ["=== Iteration 1 ==="; "one"; "=== Iteration 2 ==="; "two"] /\
    spawned w' = 2%nat.
Proof.
  exact (loop_runs_its_iterations (H:=sample_host) sample_api
           (start_request (Some (5 # 2)%Q))
           (mkBody None None None (Some (5 # 2)%Q) None) (5 # 2)%Q
           sample_listening ["one"; "two"] eq_refl eq_refl eq_refl eq_refl
           ltac:(discriminate) (fun _ => eq_refl) eq_refl
           ltac:(repeat constructor)).
Defined.

(** ** Names of loops *)

Lemma Map_set_twice {V} (m : JsMap V) (k : string) (v v' : V) :
  Map_set (Map_set m k v) k v' = Map_set m k v'.
Proof.
  induction m as [|[k0 v0] m IH]; cbn.
  - rewrite String.eqb_refl. reflexivity.
  - destruct (String.eqb k0 k) eqn:Hk; cbn; rewrite Hk; [reflexivity|].
    rewrite IH. reflexivity.
Qed.

Lemma stop_leaves_unregistered {E : Type} (w : World E) (ref : nat) :
  ref ∉ (activeLoops w).*2 -> heap (stop w).2 !! ref = heap w !! ref.
Proof.
  intros Hout. unfold stop, bind at 1, cancel_active_loops, bind at 1, gets.
  destruct (cancel_loop_run (activeLoops w) w)
    as (w1 & kills & -> & _ & _ & _ & _ & _ & Hh & _).
  unfold bind at 1, clear_active_loops, modify, close_server, bind, gets.
  world_simpl. specialize (Hh ref).
  rewrite bool_decide_eq_false_2 in Hh by exact Hout.
  destruct (server w1); exact Hh.
Qed.

(** X17: the name of a loop is [loop-] and the time in milliseconds, so two
    loops started within the same millisecond get the same name: the
    second one takes the place of the first one on the register.  The
    first loop goes on running, but no request can name it any more, and
    [stop] neither signals its process nor marks it cancelled. *)
Theorem loops_of_one_millisecond_share_a_name `{Host} {E : Type}
    (api : ApiServer E) (req : Request) (b : Body) (its : Q) (w : World E) :
  reachable api w ->
  method req = "POST" ->
  URL_pathname (default "/" (url req)) = Ok "/api/loop/start" ->
  parsed req = Ok b -> b_iterations b = Some its -> (1 <= its)%Q ->
  spawn_error w (spawned w) = None -> spawn_error w (S (spawned w)) = None ->
  clock w (S (S (reads w))) = clock w (reads w) ->
  let name := "loop-" +:+ pretty (clock w (reads w)) in
  let w1 := step api (EvRequest req) w in
  let w2 := step api (EvRequest req) w1 in
  Map_get (activeLoops w1) name = Some (next_ref w) /\
  Map_get (activeLoops w2) name = Some (S (next_ref w)) /\
  (forall other, (other, next_ref w) ∉ activeLoops w2) /\
  exists l,
    heap w2 !! next_ref w = Some l /\
    status l = running /\ process l = Some (spawned w) /\
    heap (step api EvStop w2) !! next_ref w = Some l.
Proof.
  intros Hreach Hm Hp Hbody Hits Hone Hsp1 Hsp2 Hclock name w1 w2.
  pose proof (reachable_wf api w Hreach) as Hwf.
  destruct (start_loop_spawned api req b its w Hm Hp Hbody Hits Hone Hsp1)
    as (w1' & m1 & m1' & Hrun1 & Hh1 & Ha1 & Hn1 & Haw1 & Hs1 & Hr1 & _ & _
        & Herr1 & Hclk1 & _).
  assert (Hw1 : w1 = w1') by (subst w1; cbn [step]; rewrite Hrun1; reflexivity).
  assert (Hname : loop_name w1' = name).
  { unfold loop_name. rewrite Hclk1, Hr1, Hclock. reflexivity. }
  destruct (start_loop_spawned api req b its w1' Hm Hp Hbody Hits Hone)
    as (w2' & m2 & m2' & Hrun2 & Hh2 & Ha2 & _);
    [rewrite Herr1, Hs1; exact Hsp2|].
  assert (Hw2 : w2 = w2')
    by (subst w2; rewrite Hw1; cbn [step]; rewrite Hrun2; reflexivity).
  rewrite Hname, Hn1, Ha1 in Ha2. rewrite Hn1, Hh1 in Hh2.
  fold (loop_name w) in name. fold name in Ha1, Ha2.
  rewrite Map_set_twice in Ha2.
  assert (Hgone : forall other, (other, next_ref w) ∉ activeLoops w2').
  { intros other Hin. rewrite Ha2 in Hin.
    apply elem_of_Map_set in Hin as [Hin|[_ Heq]]; [|lia].
    destruct (wf_registered w Hwf other (next_ref w) Hin) as [l0 Hl0].
    rewrite (wf_fresh w Hwf) in Hl0. discriminate. }
  rewrite Hw1, Hw2.
  split; [rewrite Ha1, Map_get_set, String.eqb_refl; reflexivity|].
  split; [rewrite Ha2, Map_get_set, String.eqb_refl; reflexivity|].
  split; [exact Hgone|].
  eexists. split.
  { rewrite Hh2, lookup_insert_ne by lia. apply lookup_insert_eq. }
  split; [reflexivity|]. split; [reflexivity|].
  cbn [step]. rewrite stop_leaves_unregistered.
  - rewrite Hh2, lookup_insert_ne by lia. apply lookup_insert_eq.
  - intros Hin. apply list_elem_of_fmap in Hin as ([other r] & Hr & Hin).
    cbn in Hr. subst r. exact (Hgone other Hin).
Qed.

Lemma loops_of_one_millisecond_share_a_name_witness :
  let w1 := step (H:=sample_host) sample_api
              (EvRequest (start_request (Some 3%Q))) sample_instant in
  let w2 := step (H:=sample_host) sample_api
              (EvRequest (start_request (Some 3%Q))) w1 in
  Map_get (activeLoops w1) "loop-1700000000000" = Some 0%nat /\
  Map_get (activeLoops w2) "loop-1700000000000" = Some 1%nat /\
  (forall other, (other, 0%nat) ∉ activeLoops w2) /\
  exists l,
    heap w2 !! 0%nat = Some l /\
    status l = running /\ process l = Some 0%nat /\
    heap (step (H:=sample_host) sample_api EvStop w2) !! 0%nat = Some l.
Proof.
  exact (loops_of_one_millisecond_share_a_name (H:=sample_host) sample_api
           (start_request (Some 3%Q)) (mkBody None None None (Some 3%Q) None) 3%Q
           sample_instant sample_instant_reachable eq_refl eq_refl eq_refl eq_refl
           ltac:(discriminate) eq_refl eq_refl eq_refl).
Defined.

(** ** The status and cancel endpoints *)

Section Endpoints.
Context `{Host} {E : Type}.
Implicit Types (w : World E) (l : LoopProcess).
Variable api : ApiServer E.

Definition on_error (path : string) (res : Response) (error : JsError)
  : M (World E) Response :=
  bind (log "API" ("Error handling " +:+ path +:+ ": " +:+ String_of_error error))
       (fun _ =>
  ret (send_json 500 (JObj [("error", JStr (String_of_error error))]) res)).

Lemma route_loop_status req w :
  method req = "GET" ->
  URL_pathname (default "/" (url req)) = Ok "/api/loop/status" ->
  handleRequest api req fresh_response w =
    try_catch (handleLoopStatus (setCorsHeaders fresh_response))
              (on_error "/api/loop/status" (setCorsHeaders fresh_response)) w.
Proof.
  intros Hm Hp. unfold handleRequest. rewrite Hm.
  change (String.eqb "GET" "OPTIONS") with false. cbv iota.
  unfold bind at 1. rewrite Hp. reflexivity.
Qed.

Lemma route_loop_cancel req w :
  method req = "POST" ->
  URL_pathname (default "/" (url req)) = Ok "/api/loop/cancel" ->
  handleRequest api req fresh_response w =
    try_catch (handleCancelLoop req (setCorsHeaders fresh_response))
              (on_error "/api/loop/cancel" (setCorsHeaders fresh_response)) w.
Proof.
  intros Hm Hp. unfold handleRequest. rewrite Hm.
  change (String.eqb "POST" "OPTIONS") with false. cbv iota.
  unfold bind at 1. rewrite Hp. reflexivity.
Qed.

Lemma registered_loops (entries : JsMap nat) w :
  (forall name ref, (name, ref) ∈ entries ->
     exists l, heap w !! ref = Some l /\ id l = name) ->
  Forall2 (fun entry l => heap w !! entry.2 = Some l /\ id l = entry.1) entries
          (omap (fun ref => heap w !! ref) (Map_values entries)).
Proof.
  induction entries as [|[name ref] entries IH]; intros Hall; cbn.
  - constructor.
  - destruct (Hall name ref (list_elem_of_here _ _)) as (l & Hl & Hid).
    rewrite Hl. constructor; [split; assumption|].
    apply IH. intros name' ref' Hin. apply Hall, list_elem_of_further, Hin.
Qed.

Lemma slice_last_suffix {A} (n : nat) (xs : list A) :
  slice_last n xs `suffix_of` xs /\
  length (slice_last n xs) = Nat.min n (length xs).
Proof.
  unfold slice_last. split.
  - exists (take (length xs - n) xs). symmetry. apply take_drop.
  - rewrite length_skipn. lia.
Qed.

(** What [handleCancelLoop] does for a request that names a loop. *)
Definition cancel_answer (name status : string) (res : Response) : Response :=
  send_json 200 (JObj [("success", JBool true); ("loopId", JStr name);
                       ("status", JStr status)]) res.

Lemma handleCancelLoop_outcome req b name res w :
  reachable api w ->
  parsed req = Ok b -> b_loopId b = Some name -> name <> EmptyString ->
  match Map_get (activeLoops w) name with
  | None =>
      handleCancelLoop req res w =
        (Ok (send_json 404 (JObj [("error", JStr "Loop not found")]) res), w)
  | Some ref =>
      exists l,
        heap w !! ref = Some l /\ id l = name /\
        match status l with
        | running =>
            exists pid w',
              process l = Some pid /\
              handleCancelLoop req res w =
                (Ok (cancel_answer name "cancelled" res), w') /\
              heap w' = <[ref := set_status cancelled l]> (heap w) /\
              trace w' = trace w ++ [EKill pid "SIGTERM";
                                     ELog "API" ("Cancelled loop " +:+ name)] /\
              activeLoops w' = activeLoops w
        | st =>
            handleCancelLoop req res w =
              (Ok (cancel_answer name (status_name st) res), w)
        end
  end.
Proof.
  intros Hreach Hbody Hid Hname.
  pose proof (reachable_wf api w Hreach) as Hwf.
  pose proof (reachable_linked api w Hreach) as Hlinked.
  assert (Hne : String.eqb name EmptyString = false)
    by (apply String.eqb_neq; exact Hname).
  remember (handleCancelLoop req res w) as run eqn:Hrun.
  unfold handleCancelLoop, bind at 1 in Hrun. rewrite Hbody, Hid, Hne in Hrun.
  destruct (Map_get (activeLoops w) name) as [ref|] eqn:Hget; [|exact Hrun].
  destruct (linked_names w Hlinked name ref (Map_get_elem _ _ _ Hget))
    as (l & Hl & Hidl).
  exists l. split; [exact Hl|]. split; [exact Hidl|]. subst run.
  unfold bind, cancel_entry. cbn [fst snd]. rewrite Hl.
  destruct (status l) eqn:Hst.
  - destruct (wf_good w Hwf ref l Hl) as [_ Hproc].
    destruct (Hproc Hst) as [pid Hpid]. rewrite Hpid. cbn [is_running].
    unfold bind, kill, log, emit, modify.
    erewrite update_loop_run by (world_simpl; exact Hl).
    world_simpl. rewrite lookup_insert_eq. cbn [status set_status status_name].
    eexists pid, _. split; [reflexivity|]. split; [reflexivity|].
    world_simpl. rewrite <- app_assoc. repeat split.
  - destruct (process l); cbn [is_running]; rewrite Hl, Hst; reflexivity.
  - destruct (process l); cbn [is_running]; rewrite Hl, Hst; reflexivity.
  - destruct (process l); cbn [is_running]; rewrite Hl, Hst; reflexivity.
Qed.

Lemma cancel_outcome req b name w :
  reachable api w ->
  method req = "POST" ->
  URL_pathname (default "/" (url req)) = Ok "/api/loop/cancel" ->
  parsed req = Ok b -> b_loopId b = Some name -> name <> EmptyString ->
  let cors := setCorsHeaders fresh_response in
  match Map_get (activeLoops w) name with
  | None =>
      handleRequest api req fresh_response w =
        (Ok (send_json 404 (JObj [("error", JStr "Loop not found")]) cors), w)
  | Some ref =>
      exists l,
        heap w !! ref = Some l /\ id l = name /\
        match status l with
        | running =>
            exists pid w',
              process l = Some pid /\
              handleRequest api req fresh_response w =
                (Ok (cancel_answer name "cancelled" cors), w') /\
              heap w' = <[ref := set_status cancelled l]> (heap w) /\
              trace w' = trace w ++ [EKill pid "SIGTERM";
                                     ELog "API" ("Cancelled loop " +:+ name)] /\
              activeLoops w' = activeLoops w
        | st =>
            handleRequest api req fresh_response w =
              (Ok (cancel_answer name (status_name st) cors), w)
        end
  end.
Proof.
  intros Hreach Hm Hp Hbody Hid Hname cors.
  pose proof (handleCancelLoop_outcome req b name cors w Hreach Hbody Hid Hname)
    as Hout.
  rewrite (route_loop_cancel req w Hm Hp). unfold try_catch. fold cors.
  destruct (Map_get (activeLoops w) name) as [ref|]; [|rewrite Hout; reflexivity].
  destruct Hout as (l & Hl & Hidl & Hout). exists l.
  split; [exact Hl|]. split; [exact Hidl|].
  destruct (status l); [|rewrite Hout; reflexivity..].
  destruct Hout as (pid & w' & Hpid & Hrun & Hrest).
  exists pid, w'. split; [exact Hpid|]. rewrite Hrun. split; [reflexivity | exact Hrest].
Qed.

End Endpoints.

(** X18: the status endpoint answers with one entry for each registered loop,
    in the order of registration, each under its name; the entry gives the
    number of output lines and, as [lastOutput], the last five of them
    (all of them when there are fewer).  The request changes nothing. *)
Theorem status_lists_registered_loops `{Host} {E : Type} (api : ApiServer E)
    (req : Request) (w : World E) :
  reachable api w ->
  method req = "GET" ->
  URL_pathname (default "/" (url req)) = Ok "/api/loop/status" ->
  exists res loops,
    handleRequest api req fresh_response w = (Ok res, w) /\
    statusCode res = Some 200 /\
    body res = Some (JObj [("loops", JArr (map loop_summary loops))]) /\
    Forall2 (fun entry l => heap w !! entry.2 = Some l /\ id l = entry.1)
            (activeLoops w) loops /\
    forall l, l ∈ loops ->
      exists last,
        loop_summary l =
          JObj [("id", JStr (id l));
                ("iterations", JNum (iterations l));
                ("currentIteration", JNum (inject_Z (currentIteration l)));
                ("status", JStr (status_name (status l)));
                ("startedAt", JStr (startedAt l));
                ("outputLines", JNum (inject_Z (Z.of_nat (length (output l)))));
                ("lastOutput", JArr (map JStr last))] /\
        last `suffix_of` output l /\
        length last = Nat.min 5 (length (output l)).
Proof.
  intros Hreach Hm Hp.
  pose proof (reachable_linked api w Hreach) as Hlinked.
  rewrite (route_loop_status api req w Hm Hp).
  eexists _, _. split; [reflexivity|]. split; [reflexivity|].
  split; [reflexivity|]. split.
  - apply registered_loops, (linked_names w Hlinked).
  - intros l _. exists (slice_last 5 (output l)).
    split; [reflexivity|]. apply slice_last_suffix.
Qed.

Lemma status_lists_registered_loops_witness :
  exists res loops,
    handleRequest (H:=sample_host) sample_api
                  (mkRequest "GET" (Some "/api/loop/status?all=1") (Ok empty_body))
                  fresh_response sample_completed = (Ok res, sample_completed) /\
    statusCode res = Some 200 /\
    body res = Some (JObj [("loops", JArr (map loop_summary loops))]) /\
    Forall2 (fun entry l => heap sample_completed !! entry.2 = Some l /\
                            id l = entry.1)
            (activeLoops sample_completed) loops.
Proof.
  destruct (status_lists_registered_loops (H:=sample_host) sample_api
              (mkRequest "GET" (Some "/api/loop/status?all=1") (Ok empty_body))
              sample_completed sample_completed_reachable eq_refl eq_refl)
    as (res & loops & Hrun & Hcode & Hbody & Hall & _).
  exists res, loops. repeat split; assumption.
Defined.

(** X19: a request to cancel a loop by its name is answered 404 when no loop
    is registered under the name.  Otherwise it is answered 200 with the
    status of the loop: when the loop is running, its process is sent
    SIGTERM, once, and the loop becomes cancelled; when it is not, nothing
    is signalled and nothing changes.  So cancelling twice is the same as
    cancelling once. *)
Theorem cancel_signals_running_loops_once `{Host} {E : Type} (api : ApiServer E)
    (req : Request) (b : Body) (name : string) (w : World E) :
  reachable api w ->
  method req = "POST" ->
  URL_pathname (default "/" (url req)) = Ok "/api/loop/cancel" ->
  parsed req = Ok b -> b_loopId b = Some name -> name <> EmptyString ->
  let w' := step api (EvRequest req) w in
  (exists res,
     handleRequest api req fresh_response w = (Ok res, w') /\
     match Map_get (activeLoops w) name with
     | None =>
         statusCode res = Some 404 /\
         body res = Some (JObj [("error", JStr "Loop not found")]) /\ w' = w
     | Some ref =>
         exists l,
           heap w !! ref = Some l /\ id l = name /\
           statusCode res = Some 200 /\
           match status l with
           | running =>
               exists pid,
                 process l = Some pid /\
                 body res = Some (JObj [("success", JBool true);
                                        ("loopId", JStr name);
                                        ("status", JStr "cancelled")]) /\
                 heap w' = <[ref := set_status cancelled l]> (heap w) /\
                 trace w' = trace w ++ [EKill pid "SIGTERM";
                                        ELog "API" ("Cancelled loop " +:+ name)]
           | st =>
               body res = Some (JObj [("success", JBool true);
                                      ("loopId", JStr name);
                                      ("status", JStr (status_name st))]) /\
               w' = w
           end
     end) /\
  step api (EvRequest req) w' = w'.
Proof.
  intros Hreach Hm Hp Hbody Hid Hname w'.
  pose proof (cancel_outcome api req b name w Hreach Hm Hp Hbody Hid Hname) as Hone.
  pose proof (cancel_outcome api req b name w' (reach_step api w _ Hreach)
                Hm Hp Hbody Hid Hname) as Htwo.
  cbn zeta in Hone, Htwo. subst w'. cbn [step] in *.
  destruct (Map_get (activeLoops w) name) as [ref|] eqn:Hget.
  - destruct Hone as (l & Hl & Hidl & Hone).
    destruct (status l) eqn:Hst.
    + destruct Hone as (pid & w' & Hpid & Hrun & Hh & Ht & Ha).
      rewrite Hrun in *. cbn [snd] in *. rewrite Ha, Hget in Htwo.
      destruct Htwo as (l' & Hl' & _ & Htwo).
      rewrite Hh, lookup_insert_eq in Hl'. injection Hl' as <-.
      cbn [status set_status] in Htwo. split; [|rewrite Htwo; reflexivity].
      eexists. split; [reflexivity|]. exists l. rewrite Hst.
      repeat split; try assumption. exists pid. repeat split; assumption.
    + rewrite Hone in *. cbn [snd] in *. rewrite Hget in Htwo.
      destruct Htwo as (l' & Hl' & _ & Htwo).
      rewrite Hl in Hl'. injection Hl' as <-. rewrite Hst in Htwo.
      split; [|rewrite Htwo; reflexivity].
      eexists. split; [reflexivity|]. exists l. rewrite Hst. repeat split; assumption.
    + rewrite Hone in *. cbn [snd] in *. rewrite Hget in Htwo.
      destruct Htwo as (l' & Hl' & _ & Htwo).
      rewrite Hl in Hl'. injection Hl' as <-. rewrite Hst in Htwo.
      split; [|rewrite Htwo; reflexivity].
      eexists. split; [reflexivity|]. exists l. rewrite Hst. repeat split; assumption.
    + rewrite Hone in *. cbn [snd] in *. rewrite Hget in Htwo.
      destruct Htwo as (l' & Hl' & _ & Htwo).
      rewrite Hl in Hl'. injection Hl' as <-. rewrite Hst in Htwo.
      split; [|rewrite Htwo; reflexivity].
      eexists. split; [reflexivity|]. exists l. rewrite Hst. repeat split; assumption.
  - rewrite Hone in *. cbn [snd] in *. rewrite Hget in Htwo.
    split; [|rewrite Htwo; reflexivity].
    eexists. split; [reflexivity|]. repeat split.
Qed.

Lemma cancel_signals_running_loops_once_witness :
  exists res,
    handleRequest (H:=sample_host) sample_api (cancel_request "loop-1700000000000")
                  fresh_response sample_looping = (Ok res, sample_cancelled) /\
    statusCode res = Some 200 /\
    List.filter (fun e => match e with EKill _ _ => true | _ => false end)
                (trace sample_cancelled) = [EKill 0 "SIGTERM"] /\
    step (H:=sample_host) sample_api
         (EvRequest (cancel_request "loop-1700000000000")) sample_cancelled
      = sample_cancelled.
Proof.
  destruct (cancel_signals_running_loops_once (H:=sample_host) sample_api
              (cancel_request "loop-1700000000000")
              (mkBody None None None None (Some "loop-1700000000000"))
              "loop-1700000000000" sample_looping sample_looping_reachable
              eq_refl eq_refl eq_refl eq_refl ltac:(discriminate))
    as ((res & Hrun & _) & Htwice).
  assert (Hres : (handleRequest (H:=sample_host) sample_api
                    (cancel_request "loop-1700000000000") fresh_response
                    sample_looping).1
                 = Ok (cancel_answer "loop-1700000000000" "cancelled"
                                     (setCorsHeaders fresh_response)))
    by (vm_compute; reflexivity).
  rewrite Hrun in Hres. cbn [fst] in Hres. injection Hres as ->.
  exists (cancel_answer "loop-1700000000000" "cancelled"
                        (setCorsHeaders fresh_response)).
  split; [exact Hrun|]. split; [reflexivity|].
  split; [vm_compute; reflexivity | exact Htwice].
Defined.

(** ** Requests and answers *)

Definition cors_headers : list (string * string) :=
  [("Access-Control-Allow-Origin", "*");
   ("Access-Control-Allow-Methods", "GET, POST, OPTIONS");
   ("Access-Control-Allow-Headers", "Content-Type")].

(** The routes of the server. *)
Definition routes : list (string * string) :=
  [("POST", "/api/plan/create"); ("POST", "/api/plan/save");
   ("POST", "/api/loop/start"); ("GET", "/api/loop/status");
   ("POST", "/api/loop/cancel"); ("POST", "/api/sessions/clear")].

Definition answer_codes : list Z := [200; 400; 404; 500].

Section Answers.
Context `{Host} {E : Type}.
Implicit Types (w : World E).
Variable api : ApiServer E.

(** When the handler completes, it has sent a JSON answer on [res]. *)
Definition answers (res : Response) (m : M (World E) Response) : Prop :=
  forall w r w', m w = (Ok r, w') ->
    exists code value, r = send_json code value res /\ code ∈ answer_codes.

Lemma answer_sent res code value w :
  code ∈ answer_codes ->
  forall r w', (Ok (send_json code value res), w) = (Ok r, w') ->
    exists code' value', r = send_json code' value' res /\ code' ∈ answer_codes.
Proof. intros Hcode r w' Heq. injection Heq as <- _. eauto. Qed.

Lemma code_200 : 200 ∈ answer_codes.
Proof. apply list_elem_of_here. Qed.

Lemma code_400 : 400 ∈ answer_codes.
Proof. apply list_elem_of_further, list_elem_of_here. Qed.

Lemma code_404 : 404 ∈ answer_codes.
Proof. do 2 apply list_elem_of_further. apply list_elem_of_here. Qed.

Lemma code_500 : 500 ∈ answer_codes.
Proof. do 3 apply list_elem_of_further. apply list_elem_of_here. Qed.

Lemma answers_handleCreatePlan req res : answers res (handleCreatePlan api req res).
Proof.
  intros w r w'. unfold handleCreatePlan, bind at 1.
  destruct (parsed req) as [b|e]; [|discriminate].
  destruct (b_prompt b) as [prompt|]; [|apply answer_sent, code_400].
  destruct (String.eqb prompt EmptyString); [apply answer_sent, code_400|].
  unfold bind at 1, log at 1, emit, modify, try_catch, bind at 1.
  destruct (command_completion _ _ _) as [out|error].
  - apply answer_sent, code_200.
  - apply answer_sent, code_500.
Qed.

Lemma answers_handleSavePlan req res : answers res (handleSavePlan api req res).
Proof.
  intros w r w'. unfold handleSavePlan, bind at 1.
  destruct (parsed req) as [b|e]; [|discriminate].
  destruct (b_content b) as [content|]; [|apply answer_sent, code_400].
  destruct (String.eqb content EmptyString); [apply answer_sent, code_400|].
  unfold bind at 1, log at 1, emit, modify, try_catch, bind at 1.
  destruct (writeFile_completion _ _) as [[]|error].
  - apply answer_sent, code_200.
  - apply answer_sent, code_500.
Qed.

Lemma answers_handleStartLoop req res : answers res (handleStartLoop api req res).
Proof.
  intros w r w'. unfold handleStartLoop, bind at 1.
  destruct (parsed req) as [b|e]; [|discriminate].
  destruct (b_iterations b) as [its|]; [|apply answer_sent, code_400].
  destruct (invalid_iterations (Some its)); [apply answer_sent, code_400|].
  unfold bind at 1, Date_now. unfold bind at 1, log, emit, modify.
  unfold bind at 1.
  destruct (startLoopProcess _ _ _ _) as [[[]|error] w1]; [|discriminate].
  apply answer_sent, code_200.
Qed.

Lemma answers_handleLoopStatus res : answers res (handleLoopStatus (E:=E) res).
Proof. intros w r w'. apply answer_sent, code_200. Qed.

Lemma answers_handleCancelLoop req res : answers res (handleCancelLoop req res).
Proof.
  intros w r w'. unfold handleCancelLoop, bind at 1.
  destruct (parsed req) as [b|e]; [|discriminate].
  destruct (b_loopId b) as [name|]; [|apply answer_sent, code_400].
  destruct (String.eqb name EmptyString); [apply answer_sent, code_400|].
  destruct (Map_get (activeLoops w) name) as [ref|]; [|apply answer_sent, code_404].
  unfold bind.
  destruct (cancel_entry (name, ref) w) as [[[]|error] w1]; [|discriminate].
  apply answer_sent, code_200.
Qed.

Lemma answers_handleClearSessions res : answers res (handleClearSessions api res).
Proof.
  intros w r w'. unfold handleClearSessions.
  unfold bind at 1, log at 1, emit, modify, try_catch.
  destruct (onClearSessions api) as [callback|].
  - unfold bind at 1, on_ext. world_simpl.
    destruct (callback _) as [[[]|error] e1].
    + apply answer_sent, code_200.
    + apply answer_sent, code_500.
  - apply answer_sent, code_200.
Qed.

(** The handler being what it is, the [try] of [handleRequest] completes
    with a JSON answer. *)
Lemma try_answers path res (m : M (World E) Response) w :
  answers res m ->
  exists code value w',
    try_catch m (on_error path res) w = (Ok (send_json code value res), w') /\
    code ∈ answer_codes.
Proof.
  intros Hm. unfold try_catch. destruct (m w) as [[r|error] w1] eqn:Hrun.
  - destruct (Hm w r w1 Hrun) as (code & value & -> & Hcode). eauto.
  - eexists _, _, _. split; [reflexivity | apply code_500].
Qed.

Lemma not_routed (method path : string) :
  (method, path) ∉ routes ->
  Forall (fun route => String.eqb method route.1 && String.eqb path route.2 = false)
         routes.
Proof.
  intros Hout. apply Forall_forall. intros [m p] Hin. cbn [fst snd].
  destruct (String.eqb_spec method m) as [->|]; [|reflexivity].
  destruct (String.eqb_spec path p) as [->|]; [|reflexivity].
  contradiction.
Qed.

End Answers.

(** X20: a preflight request ([OPTIONS]) is answered 204 without a body,
    whatever its target, and nothing is changed.  Every other request
    whose target parses is answered with a JSON body and one of the codes
    200, 400, 404 and 500, never with a rejection; the answer is 404 [Not
    found], and nothing is changed, when the method and the path are not
    those of a route (the path and the method must match exactly).  A
    request whose target does not parse is not answered at all:
    [handleRequest] rejects with the error of [new URL].  Every answer
    carries the three CORS headers. *)
Theorem requests_are_answered `{Host} {E : Type} (api : ApiServer E)
    (req : Request) (w : World E) :
  (method req = "OPTIONS" ->
   handleRequest api req fresh_response w =
     (Ok (mkResponse cors_headers (Some 204) None true), w)) /\
  (method req <> "OPTIONS" ->
   forall path, URL_pathname (default "/" (url req)) = Ok path ->
   exists code value w',
     handleRequest api req fresh_response w =
       (Ok (mkResponse (cors_headers ++ [("Content-Type", "application/json")])
                       (Some code) (Some value) true), w') /\
     code ∈ [200; 400; 404; 500] /\
     ((method req, path) ∉ routes ->
      code = 404 /\ value = JObj [("error", JStr "Not found")] /\ w' = w)) /\
  (method req <> "OPTIONS" ->
   forall error, URL_pathname (default "/" (url req)) = Throw error ->
   handleRequest api req fresh_response w = (Throw error, w)).
Proof.
  split; [|split].
  - intros Hm. unfold handleRequest. rewrite Hm. reflexivity.
  - intros Hm path Hp. apply String.eqb_neq in Hm.
    unfold handleRequest. rewrite Hm. unfold bind at 1. rewrite Hp.
    fold (on_error (E:=E) path (setCorsHeaders fresh_response)).
    destruct (decide ((method req, path) ∈ routes)) as [Hin|Hout].
    + match goal with |- context [try_catch ?m _ w] =>
        destruct (try_answers path (setCorsHeaders fresh_response) m w)
          as (code & value & w' & Hrun & Hcode)
      end.
      { repeat match goal with
               | |- answers _ (if ?b then _ else _) => destruct b
               end.
        - apply answers_handleCreatePlan.
        - apply answers_handleSavePlan.
        - apply answers_handleStartLoop.
        - apply answers_handleLoopStatus.
        - apply answers_handleCancelLoop.
        - apply answers_handleClearSessions.
        - intros w0 r w0'. apply answer_sent, code_404. }
      exists code, value, w'. split; [exact Hrun|]. split; [exact Hcode|].
      intros Hout. contradiction.
    + pose proof (not_routed _ _ Hout) as Hall.
      repeat (apply Forall_cons in Hall as [Htest Hall]; cbn [fst snd] in Htest;
              rewrite Htest; clear Htest).
      eexists 404, _, w. split; [reflexivity|]. split; [apply code_404|].
      intros _. repeat split.
  - intros Hm error Hp. apply String.eqb_neq in Hm.
    unfold handleRequest. rewrite Hm. unfold bind at 1. rewrite Hp. reflexivity.
Qed.

(** A request to the wrong method of a route, or to a path with a
    trailing slash, is not routed. *)
Example wrong_method_is_not_found :
  Forall (fun req =>
            handleRequest (H:=sample_host) sample_api req fresh_response
                          sample_looping
            = (Ok (mkResponse
                     (cors_headers ++ [("Content-Type", "application/json")])
                     (Some 404) (Some (JObj [("error", JStr "Not found")])) true),
               sample_looping))
         [mkRequest "GET" (Some "/api/loop/start") (Ok empty_body);
          mkRequest "POST" (Some "/api/loop/status") (Ok empty_body);
          mkRequest "POST" (Some "/api/loop/cancel/") (Ok empty_body);
          mkRequest "GET" None (Ok empty_body)].
Proof. repeat constructor. Qed.

(** X21: only the requests that start or cancel a loop touch the loops: any
    other request leaves every loop object, the register and the commands
    awaited as they are. *)
Theorem other_requests_leave_loops_alone `{Host} {E : Type} (api : ApiServer E)
    (req : Request) (w : World E) :
  method req <> "POST" \/
  (URL_pathname (default "/" (url req)) <> Ok "/api/loop/start" /\
   URL_pathname (default "/" (url req)) <> Ok "/api/loop/cancel") ->
  let w' := step api (EvRequest req) w in
  heap w' = heap w /\ activeLoops w' = activeLoops w /\ awaiting w' = awaiting w.
Proof.
  intros Hother w'. subst w'. cbn [step]. unfold handleRequest.
  destruct (String.eqb (method req) "OPTIONS"); [repeat split|].
  unfold bind at 1.
  destruct (URL_pathname (default "/" (url req))) as [path|error] eqn:Hp;
    [|repeat split].
  match goal with |- context [try_catch ?m ?h w] =>
    assert (Hquiet : quiet (try_catch m h))
  end.
  { apply quiet_try_catch; [|intros error; repeat quiet_step].
    destruct (String.eqb (method req) "POST" && String.eqb path "/api/plan/create");
      [apply quiet_handleCreatePlan|].
    destruct (String.eqb (method req) "POST" && String.eqb path "/api/plan/save");
      [apply quiet_handleSavePlan|].
    destruct (String.eqb (method req) "POST" && String.eqb path "/api/loop/start")
      eqn:Hstart.
    { apply andb_true_iff in Hstart as [Hm Hpath].
      apply String.eqb_eq in Hm, Hpath. subst path.
      destruct Hother as [Hnot|[Hnot _]]; contradiction. }
    destruct (String.eqb (method req) "GET" && String.eqb path "/api/loop/status");
      [apply quiet_handleLoopStatus|].
    destruct (String.eqb (method req) "POST" && String.eqb path "/api/loop/cancel")
      eqn:Hcancel.
    { apply andb_true_iff in Hcancel as [Hm Hpath].
      apply String.eqb_eq in Hm, Hpath. subst path.
      destruct Hother as [Hnot|[_ Hnot]]; contradiction. }
    destruct (String.eqb (method req) "POST" && String.eqb path "/api/sessions/clear");
      [apply quiet_handleClearSessions | apply quiet_ret]. }
  destruct (Hquiet w) as (Hh & Ha & _ & Haw & _). auto.
Qed.

Lemma other_requests_leave_loops_alone_witness :
  let w' := step (H:=sample_host) sample_api
              (EvRequest (mkRequest "POST" (Some "/api/plan/create")
                            (Ok (mkBody (Some "a plan") None None None None))))
              sample_looping in
  heap w' = heap sample_looping /\ activeLoops w' = activeLoops sample_looping /\
  awaiting w' = awaiting sample_looping.
Proof.
  apply (other_requests_leave_loops_alone (H:=sample_host) sample_api).
  right. split; discriminate.
Defined.

(** ** Request bodies *)

(** The routes that read the body, each with what it says of a body
    that lacks its field. *)
Definition body_routes : list (string * string) :=
  [("/api/plan/create", "Missing 'prompt' in request body");
   ("/api/plan/save", "Missing 'content' in request body");
   ("/api/loop/start",
    "Missing or invalid 'iterations' in request body (must be >= 1)");
   ("/api/loop/cancel", "Missing 'loopId' in request body")].

(** The text [parseBody] has gathered from the chunks. *)
Definition body_text (chunks : list string) : string :=
  fold_left (fun body chunk => body +:+ chunk) chunks EmptyString.

Lemma parseBody_from_end (JSON_parse : string -> result Body)
    (chunks : list string) (rest : list StreamEvent) (body : string) :
  parseBody_from JSON_parse body (map SData chunks ++ SEnd :: rest) =
    let text := fold_left (fun body chunk => body +:+ chunk) chunks body in
    Some (if String.eqb text EmptyString then Ok empty_body
          else match JSON_parse text with
               | Ok value => Ok value
               | Throw _ => Throw (Error_ "Invalid JSON body")
               end).
Proof.
  revert body. induction chunks as [|chunk chunks IH]; intros body; cbn.
  - reflexivity.
  - apply IH.
Qed.

(** X22: the body of a request is what the chunks received before the end of
    the stream make together.  On the four routes that read it, a POST
    with an empty body is answered 400 with the message of the route about
    its missing field, and nothing is changed; a POST whose body
    [JSON.parse] rejects is answered 500 with [Error: Invalid JSON body],
    whatever the parser said, and all that happens is one line in the log. *)
Theorem empty_and_malformed_bodies `{Host} {E : Type} (api : ApiServer E)
    (JSON_parse : string -> result Body) (chunks : list string)
    (rest : list StreamEvent) (target : option string) (path message : string)
    (w : World E) :
  (path, message) ∈ body_routes ->
  URL_pathname (default "/" target) = Ok path ->
  exists settled,
    parseBody JSON_parse (map SData chunks ++ SEnd :: rest) = Some settled /\
    let req := mkRequest "POST" target settled in
    let cors := setCorsHeaders fresh_response in
    (body_text chunks = EmptyString ->
     handleRequest api req fresh_response w =
       (Ok (send_json 400 (JObj [("error", JStr message)]) cors), w)) /\
    (body_text chunks <> EmptyString ->
     forall error, JSON_parse (body_text chunks) = Throw error ->
     handleRequest api req fresh_response w =
       (Ok (send_json 500 (JObj [("error", JStr "Error: Invalid JSON body")]) cors),
        set_trace (trace w ++ [ELog "API" ("Error handling " +:+ path +:+
                                           ": Error: Invalid JSON body")]) w)).
Proof.
  intros Hroute Hp. unfold parseBody. rewrite parseBody_from_end. cbn zeta.
  fold (body_text chunks). eexists. split; [reflexivity|]. cbn zeta.
  assert (Hrun : forall settled,
            handleRequest api (mkRequest "POST" target settled) fresh_response w =
            try_catch
              (if String.eqb path "/api/plan/create"
               then handleCreatePlan api (mkRequest "POST" target settled)
                      (setCorsHeaders fresh_response)
               else if String.eqb path "/api/plan/save"
               then handleSavePlan api (mkRequest "POST" target settled)
                      (setCorsHeaders fresh_response)
               else if String.eqb path "/api/loop/start"
               then handleStartLoop api (mkRequest "POST" target settled)
                      (setCorsHeaders fresh_response)
               else if String.eqb path "/api/loop/cancel"
               then handleCancelLoop (mkRequest "POST" target settled)
                      (setCorsHeaders fresh_response)
               else if String.eqb path "/api/sessions/clear"
               then handleClearSessions api (setCorsHeaders fresh_response)
               else ret (send_json 404 (JObj [("error", JStr "Not found")])
                                   (setCorsHeaders fresh_response)))
              (on_error path (setCorsHeaders fresh_response)) w).
  { intros settled. unfold handleRequest. cbn [method url].
    change (String.eqb "POST" "OPTIONS") with false. cbv iota.
    unfold bind at 1. rewrite Hp. reflexivity. }
  split.
  - intros Hempty. rewrite Hempty, Hrun. cbn [String.eqb].
    repeat (apply elem_of_cons in Hroute as [Heq|Hroute];
            [injection Heq as -> ->; reflexivity|]).
    inversion Hroute.
  - intros Hfull error Hparse. apply String.eqb_neq in Hfull.
    rewrite Hfull, Hparse, Hrun.
    repeat (apply elem_of_cons in Hroute as [Heq|Hroute];
            [injection Heq as -> ->; reflexivity|]).
    inversion Hroute.
Qed.

Lemma empty_and_malformed_bodies_witness :
  exists settled,
    parseBody (fun _ => Throw (mkError "SyntaxError" "Unexpected token"))
              (map SData ["{iter"; "ations"] ++ [SEnd]) = Some settled /\
    handleRequest (H:=sample_host) sample_api
                  (mkRequest "POST" (Some "/api/loop/start") settled)
                  fresh_response sample_listening
      = (Ok (send_json 500 (JObj [("error", JStr "Error: Invalid JSON body")])
                       (setCorsHeaders fresh_response)),
         set_trace (trace sample_listening ++
                    [ELog "API" ("Error handling " +:+ "/api/loop/start" +:+
                                 ": Error: Invalid JSON body")])
                   sample_listening).
Proof.
  destruct (empty_and_malformed_bodies (H:=sample_host) sample_api
              (fun _ => Throw (mkError "SyntaxError" "Unexpected token"))
              ["{iter"; "ations"] [] (Some "/api/loop/start") "/api/loop/start"
              "Missing or invalid 'iterations' in request body (must be >= 1)"
              sample_listening)
    as (settled & Hparse & _ & Hbad).
  - do 2 apply list_elem_of_further. apply list_elem_of_here.
  - reflexivity.
  - exists settled. split; [exact Hparse|].
    apply (Hbad ltac:(discriminate) (mkError "SyntaxError" "Unexpected token")).
    reflexivity.
Defined.

(** ** [runCommand] *)

Definition is_data (ev : CommandEvent) : bool :=
  match ev with
  | CStdout _ | CStderr _ => true
  | _ => false
  end.

(** What the process wrote to its standard output, and to its standard
    error. *)
Fixpoint written_out (events : list CommandEvent) : string :=
  match events with
  | [] => EmptyString
  | CStdout data :: rest => data +:+ written_out rest
  | _ :: rest => written_out rest
  end.

Fixpoint written_err (events : list CommandEvent) : string :=
  match events with
  | [] => EmptyString
  | CStderr data :: rest => data +:+ written_err rest
  | _ :: rest => written_err rest
  end.

Lemma append_assoc (a b c : string) : (a +:+ b) +:+ c = a +:+ (b +:+ c).
Proof.
  induction a as [|x a IH]; [reflexivity|].
  change (String x ((a +:+ b) +:+ c) = String x (a +:+ (b +:+ c))).
  rewrite IH. reflexivity.
Qed.

Lemma append_empty (a : string) : a +:+ EmptyString = a.
Proof.
  induction a as [|x a IH]; [reflexivity|].
  change (String x (a +:+ EmptyString) = String x a). rewrite IH. reflexivity.
Qed.

Section Commands.
Context `{Host}.
Variable timeoutMs : Q.

Definition run_command (events : list CommandEvent) (c : Command) : Command :=
  fold_left (fun c ev => runCommand_on timeoutMs ev c) events c.

Lemma data_run (pre : list CommandEvent) (c : Command) :
  forallb is_data pre = true ->
  run_command pre c =
    mkCommand (stdout c +:+ written_out pre) (stderr c +:+ written_err pre)
              (timedOut c) (timer c) (promise c) (signals c).
Proof.
  revert c. induction pre as [|ev pre IH]; intros c Hdata; cbn.
  - rewrite !append_empty. destruct c; reflexivity.
  - cbn in Hdata. apply andb_true_iff in Hdata as [Hev Hdata].
    destruct ev; try discriminate; unfold run_command in IH; rewrite IH by exact Hdata;
      cbn; rewrite append_assoc; reflexivity.
Qed.

Lemma settled_run (post : list CommandEvent) (c : Command) (r : result string) :
  promise c = Some r -> timer c = false ->
  promise (run_command post c) = Some r /\
  signals (run_command post c) = signals c.
Proof.
  revert c. induction post as [|ev post IH]; intros c Hsettled Htimer; cbn.
  - split; [exact Hsettled | reflexivity].
  - assert (Hstep : promise (runCommand_on timeoutMs ev c) = Some r /\
                    timer (runCommand_on timeoutMs ev c) = false /\
                    signals (runCommand_on timeoutMs ev c) = signals c).
    { destruct ev as [|data|data|code|error]; cbn.
      - rewrite Htimer. auto.
      - auto.
      - auto.
      - destruct (timedOut c); cbn; [auto|].
        destruct code as [[| |]|]; cbn; rewrite Hsettled; auto.
      - rewrite Hsettled. auto. }
    destruct Hstep as (Hp & Ht & Hs).
    destruct (IH _ Hp Ht) as [Hp' Hs']. unfold run_command in *.
    split; [exact Hp' | congruence].
Qed.

End Commands.

(** X23: the promise of [runCommand] is settled by what comes first after the
    output: by the timer, and then the process is sent SIGTERM, once, and
    the promise is rejected with [Command timed out]; by the end of the
    process, with all it wrote to its standard output when the exit code
    is 0, and rejected otherwise, also when there is no exit code because
    a signal ended the process, with what it wrote to its standard error
    (to its standard output when that is empty); or by an error of the
    process.  Nothing that comes later changes the result or signals the
    process, and no signal is sent unless the timer fires. *)
Theorem command_settles_by_first_cause `{Host} (timeoutMs : option Q)
    (pre post : list CommandEvent) (ev : CommandEvent) :
  forallb is_data pre = true -> is_data ev = false ->
  let before := runCommand timeoutMs pre in
  let after := runCommand timeoutMs (pre ++ ev :: post) in
  promise before = None /\ signals before = [] /\
  stdout before = written_out pre /\ stderr before = written_err pre /\
  promise after =
    Some (match ev with
          | CTimer =>
              Throw (Error_ ("Command timed out after " +:+
                             Number_toString
                               (default (5 * 60 * 1000)%Q timeoutMs / 1000)%Q
                             +:+ "s"))
          | CClose (Some 0) => Ok (written_out pre)
          | CClose code =>
              Throw (Error_ ("Command failed with code " +:+ code_toString code
                             +:+ ": " +:+
                             (if String.eqb (written_err pre) EmptyString
                              then written_out pre else written_err pre)))
          | CError error => Throw error
          | CStdout _ | CStderr _ => Ok EmptyString
          end) /\
  signals after = match ev with
                  | CTimer => ["SIGTERM"]
                  | _ => []
                  end.
Proof.
  intros Hpre Hev before after. subst before after. unfold runCommand.
  set (t := default (5 * 60 * 1000)%Q timeoutMs).
  rewrite fold_left_app. fold (run_command t pre command_spawned).
  rewrite (data_run t pre command_spawned Hpre). cbn [fold_left].
  cbn [stdout stderr timedOut timer promise signals command_spawned
       String.append].
  repeat (split; [reflexivity|]).
  match goal with |- context [fold_left _ post ?c] =>
    fold (run_command t post c)
  end.
  destruct ev as [|data|data|code|error]; try discriminate.
  - apply settled_run; reflexivity.
  - destruct code as [[| |]|]; apply settled_run; reflexivity.
  - apply settled_run; reflexivity.
Qed.

Lemma command_settles_by_first_cause_witness :
  let after := runCommand (H:=sample_host) None
                 [CStdout "plan "; CStderr "warning"; CStdout "written";
                  CClose None; CTimer; CError (Error_ "late")] in
  promise after = Some (Throw (Error_ "Command failed with code null: warning")) /\
  signals after = [].
Proof.
  destruct (command_settles_by_first_cause (H:=sample_host) None
              [CStdout "plan "; CStderr "warning"; CStdout "written"]
              [CTimer; CError (Error_ "late")] (CClose None) eq_refl eq_refl)
    as (_ & _ & _ & _ & Hpromise & Hsignals).
  split; [exact Hpromise | exact Hsignals].
Defined.

(** The same end of a process, by a signal and so without an exit code,
    is a failure for [runCommand] and a success for the command of a
    loop iteration. *)
Example signalled_command :
  promise (runCommand (H:=sample_host) None [CStdout "partial"; CClose None])
    = Some (Throw (Error_ "Command failed with code null: partial")) /\
  settle (PClose None "partial" EmptyString) = Ok "partial".
Proof. split; reflexivity. Qed.

End ApiMore.
